(** * space-anon-backend: comment threading, likes and notification fan-out

    A shallow embedding of the route handlers of [src/server.js]: the two
    like toggles, comment creation with its notification, the two tree
    builders with their queries, the pagination parameters, the recursive
    comment delete, and the routes that add, list and delete posts and
    list bookmarks and notifications. The two searches by tag and by
    category read columns that the model of a post does not keep, and are
    left out.

    The PostgreSQL tables of [init] are lists of rows in insertion order,
    with the sequences behind their SERIAL ids; a handler is a function
    from the store to a response and the store it leaves behind, and a
    statement that the schema rejects (NOT NULL, foreign key) ends the
    handler, as nothing in the source catches a rejected [pool.query].
    A path parameter is an integer: where a route binds it to an INTEGER
    column the handler is given for an id the column can hold, and the
    route ([route_like_post], [route_delete_comment], ...) adds what
    happens outside that range. The [userId] of the like routes is a
    string; the body of
    [POST /api/comments] keeps missing and [null] fields apart from values,
    because the handler tests them for truthiness. *)

From Stdlib Require Import ZArith Ascii String.
From stdpp Require Import base list gmap strings sorting.

Local Open Scope Z_scope.

(** ** JavaScript values of the request body *)

(** A field of [req.body]: missing, JSON [null], or a value of the
    expected type. *)
Inductive field (A : Type) : Type :=
  | Undefined
  | Null
  | Value (a : A).
Arguments Undefined {A}.
Arguments Null {A}.
Arguments Value {A} a.

(** What node-postgres binds for a parameter: [undefined] and [null] both
    become SQL NULL. *)
Definition to_sql {A} (f : field A) : option A :=
  match f with
  | Value a => Some a
  | _ => None
  end.

(** What node-postgres returns for a column: SQL NULL reads back as [null]. *)
Definition of_sql {A} (o : option A) : field A :=
  match o with
  | Some a => Value a
  | None => Null
  end.

(** JavaScript truthiness, for an integer and for a string field. *)
Definition truthy_int (f : field Z) : bool :=
  match f with
  | Value n => negb (n =? 0)
  | _ => false
  end.

Definition truthy_str (f : field string) : bool :=
  match f with
  | Value s => negb (String.eqb s EmptyString)
  | _ => false
  end.

(** [a !== b] on fields: [undefined] and [null] are distinct values. *)
Definition strict_ne {A} `{EqDecision A} (a b : field A) : bool :=
  match a, b with
  | Undefined, Undefined => false
  | Null, Null => false
  | Value x, Value y => bool_decide (x ≠ y)
  | _, _ => true
  end.

(** ** The tables of [init] *)

(** [posts]: the columns the modelled routes read or write. *)
Record post := Post {
  p_id : Z;
  p_user_id : option string;
  p_likes : option (list string)
}.

(** [comments]. *)
Record comment := Comment {
  c_id : Z;
  c_postid : option Z;
  c_userid : option string;
  c_content : string;
  c_parent_id : option Z
}.

(** [comment_likes]; the like route always stores both columns. *)
Record comment_like := CommentLike {
  l_id : Z;
  l_comment_id : Z;
  l_userid : string
}.

Inductive ntype := TComment | TReply.

(** [notifications]: every column is NOT NULL. *)
Record notification := Notification {
  n_id : Z;
  n_user_id : string;
  n_type : ntype;
  n_post_id : Z;
  n_comment_id : Z
}.

(** The store: the four tables, and the sequences behind the SERIAL ids. *)
Record db := Db {
  posts : list post;
  comments : list comment;
  comment_likes : list comment_like;
  notifications : list notification;
  comments_seq : Z;
  comment_likes_seq : Z;
  notifications_seq : Z
}.

#[global] Instance post_eq_dec : EqDecision post.
Proof. solve_decision. Defined.
#[global] Instance comment_eq_dec : EqDecision comment.
Proof. solve_decision. Defined.
#[global] Instance comment_like_eq_dec : EqDecision comment_like.
Proof. solve_decision. Defined.
#[global] Instance ntype_eq_dec : EqDecision ntype.
Proof. solve_decision. Defined.
#[global] Instance notification_eq_dec : EqDecision notification.
Proof. solve_decision. Defined.

(** ** Handlers and their outcome *)

(** What a handler does with [res]: a JSON body, a bare status, or nothing
    at all because a rejected [pool.query] escaped the [async] handler. *)
Inductive response (A : Type) : Type :=
  | Json (body : A)
  | Status (code : Z)
  | Threw.
Arguments Json {A} body.
Arguments Status {A} code.
Arguments Threw {A}.

(** ** Like toggle *)

Section toggle.
Context {A : Type} `{EqDecision A}.

(** Lines 126-130: [includes], then [filter] or [push]. *)
Definition toggle (likes : list A) (userId : A) : list A :=
  if decide (userId ∈ likes)
  then filter (λ uid, uid ≠ userId) likes
  else likes ++ [userId].
End toggle.

Definition set_likes (likes : list string) (p : post) : post :=
  {| p_id := p_id p; p_user_id := p_user_id p; p_likes := Some likes |}.

(** [UPDATE posts SET likes = $1 WHERE id = $2]. *)
Definition update_likes (likes : list string) (id : Z) (ps : list post) : list post :=
  (λ p, if decide (p_id p = id) then set_likes likes p else p) <$> ps.

Definition with_posts (ps : list post) (d : db) : db :=
  {| posts := ps; comments := comments d; comment_likes := comment_likes d;
     notifications := notifications d; comments_seq := comments_seq d;
     comment_likes_seq := comment_likes_seq d;
     notifications_seq := notifications_seq d |}.

(** Lines 121-132, the handler of [PUT /api/posts/:id/like] for an [id]
    in the range of INTEGER; [route_like_post] is the route. *)
Definition put_post_like (id : Z) (userId : string) (d : db)
  : response (option post) * db :=
  match filter (λ p, p_id p = id) (posts d) with
  | [] => (Status 404, d)
  | row :: _ =>
      let likes := toggle (default [] (p_likes row)) userId in
      let ps := update_likes likes id (posts d) in
      (Json (head (filter (λ p, p_id p = id) ps)), with_posts ps d)
  end.

(** ** Path parameters *)

(** The range of INTEGER. An id of a path is sent as it is written and
    bound to an INTEGER parameter: outside this range PostgreSQL refuses
    the statement, which is the first of its handler, so the handler
    throws and nothing is read or written. *)
Definition int4 (n : Z) : Prop := - 2 ^ 31 ≤ n < 2 ^ 31.

#[global] Instance int4_dec n : Decision (int4 n).
Proof. unfold int4. apply _. Defined.

(** The route [PUT /api/posts/:id/like], lines 120-133: the [SELECT] of
    line 123 binds [id]. *)
Definition route_like_post (id : Z) (userId : string) (d : db)
  : response (option post) * db :=
  if decide (int4 id) then put_post_like id userId d else (Threw, d).

(** The like array of post [id] as the store holds it. *)
Definition post_likes (d : db) (id : Z) : list string :=
  match filter (λ p, p_id p = id) (posts d) with
  | [] => []
  | row :: _ => default [] (p_likes row)
  end.

Definition with_comment_likes (ls : list comment_like) (seq : Z) (d : db) : db :=
  {| posts := posts d; comments := comments d; comment_likes := ls;
     notifications := notifications d; comments_seq := comments_seq d;
     comment_likes_seq := seq;
     notifications_seq := notifications_seq d |}.

(** [json_agg(cl.userid)] over the likes joined to comment [id]. *)
Definition likes_of (d : db) (id : Z) : list string :=
  l_userid <$> filter (λ l, l_comment_id l = id) (comment_likes d).

Definition same_pair (id : Z) (userId : string) (l : comment_like) : Prop :=
  l_comment_id l = id ∧ l_userid l = userId.

#[global] Instance same_pair_dec id userId l : Decision (same_pair id userId l).
Proof. unfold same_pair. apply _. Defined.

(** [INSERT INTO comment_likes ... ON CONFLICT DO NOTHING]: the sequence
    advances first; the foreign key to [comments] rejects an unknown
    comment, the unique pair makes a second insert a no-op. *)
Definition insert_like (id : Z) (userId : string) (d : db) : option db :=
  let k := comment_likes_seq d in
  if decide (Exists (λ c, c_id c = id) (comments d)) then
    if decide (Exists (same_pair id userId) (comment_likes d))
    then Some (with_comment_likes (comment_likes d) (k + 1) d)
    else Some (with_comment_likes
                 (comment_likes d ++ [CommentLike k id userId]) (k + 1) d)
  else None.

(** [PUT /api/comments/:id/like]. *)
Definition put_comment_like (id : Z) (userId : string) (d : db)
  : response (option (comment * list string)) * db :=
  let answer d' :=
    (Json ((λ c, (c, likes_of d' id)) <$> head (filter (λ c, c_id c = id) (comments d'))), d') in
  match filter (same_pair id userId) (comment_likes d) with
  | _ :: _ =>
      answer (with_comment_likes
                (filter (λ l, ¬ same_pair id userId l) (comment_likes d))
                (comment_likes_seq d) d)
  | [] =>
      match insert_like id userId d with
      | Some d' => answer d'
      | None =>
          (Threw, with_comment_likes (comment_likes d) (comment_likes_seq d + 1) d)
      end
  end.

(** Every like row refers to a stored comment (the foreign key of
    [comment_likes.comment_id]). *)
Definition likes_fk (d : db) : Prop :=
  ∀ l, l ∈ comment_likes d → ∃ c, c ∈ comments d ∧ c_id c = l_comment_id l.

(** ** Comment creation and its notification *)

(** The body of [POST /api/comments]. *)
Record comment_body := CommentBody {
  postid : field Z;
  userid : field string;
  content : field string;
  parent_id : field Z
}.

Definition with_comments (cs : list comment) (seq : Z) (d : db) : db :=
  {| posts := posts d; comments := cs; comment_likes := comment_likes d;
     notifications := notifications d; comments_seq := seq;
     comment_likes_seq := comment_likes_seq d;
     notifications_seq := notifications_seq d |}.

Definition with_notifications (ns : list notification) (seq : Z) (d : db) : db :=
  {| posts := posts d; comments := comments d; comment_likes := comment_likes d;
     notifications := ns; comments_seq := comments_seq d;
     comment_likes_seq := comment_likes_seq d;
     notifications_seq := seq |}.

(** A nullable foreign key: NULL, or the key of a row of the target. *)
Definition references {R} (key : R → Z) (target : list R) (ref : option Z) : Prop :=
  match ref with
  | None => True
  | Some k => Exists (λ r, key r = k) target
  end.

#[global] Instance references_dec {R} (key : R → Z) target ref :
  Decision (references key target ref).
Proof. destruct ref; simpl; apply _. Defined.

(** [parent_id || null]. *)
Definition or_null (f : field Z) : option Z :=
  if truthy_int f then to_sql f else None.

(** Lines 141-145, [INSERT INTO comments ... RETURNING *].  The id is drawn
    from the sequence, which keeps the value even when the statement fails;
    [content] is NOT NULL; both foreign keys are checked once the row is
    in, so a row may name itself as its parent. *)
Definition insert_comment (b : comment_body) (d : db) : option comment * db :=
  let k := comments_seq d in
  match to_sql (content b) with
  | None => (None, with_comments (comments d) (k + 1) d)
  | Some text =>
      let row := Comment k (to_sql (postid b)) (to_sql (userid b)) text
                         (or_null (parent_id b)) in
      if decide (references p_id (posts d) (c_postid row)
                 ∧ references c_id (comments d ++ [row]) (c_parent_id row))
      then (Some row, with_comments (comments d ++ [row]) (k + 1) d)
      else (None, with_comments (comments d) (k + 1) d)
  end.

(** Lines 148-164: [notifyUserId] and [type] after the lookup. *)
Definition notify_target (b : comment_body) (d : db) : field string * ntype :=
  if truthy_int (parent_id b) then
    match filter (λ c, Some (c_id c) = to_sql (parent_id b)) (comments d) with
    | parent :: _ =>
        if strict_ne (of_sql (c_userid parent)) (userid b)
        then (of_sql (c_userid parent), TReply)
        else (Null, TComment)
    | [] => (Null, TComment)
    end
  else
    match filter (λ p, Some (p_id p) = to_sql (postid b)) (posts d) with
    | owner :: _ =>
        if strict_ne (of_sql (p_user_id owner)) (userid b)
        then (of_sql (p_user_id owner), TComment)
        else (Null, TComment)
    | [] => (Null, TComment)
    end.

(** The recipient the handler goes on to notify: [notify_target] behind the
    guard [if (notifyUserId)] of line 165. *)
Definition deriveRecipient (b : comment_body) (d : db) : option (string * ntype) :=
  match notify_target b d with
  | (Value u, t) => if truthy_str (Value u) then Some (u, t) else None
  | _ => None
  end.

(** Lines 166-169, [INSERT INTO notifications]: [post_id] is NOT NULL. *)
Definition insert_notification (u : string) (t : ntype) (post_id : option Z)
    (comment_id : Z) (d : db) : option db :=
  let k := notifications_seq d in
  match post_id with
  | None => None
  | Some p =>
      Some (with_notifications
              (notifications d ++ [Notification k u t p comment_id]) (k + 1) d)
  end.

(** Which statements of a request the store fails for reasons of its own
    (connection lost, timeout): statement [0] is the comment insert, [1] the
    lookup of the parent or the post, [2] the notification insert. *)
Definition outage := nat → bool.

Definition no_outage : outage := λ _, false.

(** [POST /api/comments]. No statement is wrapped in [try]: the first one
    that rejects ends the handler before [res.json]. *)
Definition createComment (out : outage) (b : comment_body) (d : db)
  : response comment * db :=
  if out 0%nat then (Threw, d) else
  match insert_comment b d with
  | (None, d1) => (Threw, d1)
  | (Some comment, d1) =>
      if out 1%nat then (Threw, d1) else
      match deriveRecipient b d1 with
      | None => (Json comment, d1)
      | Some (u, t) =>
          if out 2%nat then (Threw, d1) else
          match insert_notification u t (to_sql (postid b)) (c_id comment) d1 with
          | Some d2 => (Json comment, d2)
          | None => (Threw, with_notifications (notifications d1)
                              (notifications_seq d1 + 1) d1)
          end
      end
  end.

(** ** Pagination parameters *)

(** White space that [parseInt] skips, for code units below 256. *)
Definition is_space (c : ascii) : bool :=
  let n := nat_of_ascii c in
  ((9 <=? n) && (n <=? 13) || (n =? 32) || (n =? 160))%nat.

Definition digit_of (c : ascii) : option Z :=
  let n := nat_of_ascii c in
  if ((48 <=? n) && (n <=? 57))%nat then Some (Z.of_nat n - 48) else None.

Fixpoint skip_space (s : string) : string :=
  match s with
  | String c r => if is_space c then skip_space r else s
  | EmptyString => s
  end.

(** The longest prefix of decimal digits. *)
Fixpoint leading_digits (s : string) : list Z :=
  match s with
  | String c r =>
      match digit_of c with
      | Some v => v :: leading_digits r
      | None => []
      end
  | EmptyString => []
  end.

Definition decimal (ds : list Z) : Z := foldl (λ acc v, 10 * acc + v) 0 ds.

(** The sign [parseInt] reads after the white space, and what follows it. *)
Definition split_sign (s : string) : bool * string :=
  match s with
  | String c r =>
      if Ascii.eqb c "-" then (true, r)
      else if Ascii.eqb c "+" then (false, r)
      else (false, s)
  | EmptyString => (false, s)
  end.

(** The number JavaScript holds for an integer: the nearest double, a tie
    going to the one with the even mantissa. Up to [2 ^ 53] in size it is
    the integer itself; [2 ^ 1024] and [- 2 ^ 1024], which no double
    equals, stand for [Infinity] and [-Infinity]. *)
Definition js_number (n : Z) : Z :=
  let a := Z.abs n in
  if a <? 2 ^ 53 then n else
    let e := Z.log2 a - 52 in
    let q := a / 2 ^ e in
    let r := a mod 2 ^ e in
    let up := (2 ^ (e - 1) <? r) || ((r =? 2 ^ (e - 1)) && Z.odd q) in
    Z.sgn n * Z.min ((if up then q + 1 else q) * 2 ^ e) (2 ^ 1024).

(** [parseInt(s, 10)]; [None] is NaN. The result is the number for the
    integer the digits denote (after the 20th digit ECMAScript leaves the
    digits to the implementation; V8 reads them all). *)
Definition parseInt (s : string) : option Z :=
  let '(neg, s2) := split_sign (skip_space s) in
  match leading_digits s2 with
  | [] => None
  | ds => Some (js_number (if neg then - decimal ds else decimal ds))
  end.

(** [parseInt(req.query.x, 10) || dflt] for a query parameter that is
    missing ([parseInt] then reads the text of [undefined]) or a string. *)
Definition query_int (q : option string) (dflt : Z) : Z :=
  match parseInt (default "undefined"%string q) with
  | Some n => if n =? 0 then dflt else n
  | None => dflt
  end.

(** Lines 178-179. *)
Definition limit_of (q : option string) : Z := query_int q 20.
Definition offset_of (q : option string) : Z := query_int q 0.

(** ** Tree builders *)

(** A row of the thread queries: [c.*] and the aggregated [likes]. *)
Record row := Row {
  r_comment : comment;
  r_likes : list string
}.

Definition r_id (r : row) : Z := c_id (r_comment r).
Definition r_parent_id (r : row) : option Z := c_parent_id (r_comment r).

#[global] Instance row_eq_dec : EqDecision row.
Proof. solve_decision. Defined.

(** The rows of a query result are objects of their own: an object is known
    by its address, here its position among the objects of the request.
    The only property the handlers write is [replies], so the heap keeps,
    per address, the array of addresses [replies] holds once it is set. *)
Abbreviation heap := (gmap nat (list nat)).

(** The lookup table [map]: comment id to object. Ids are integers, so
    their property names are distinct; [map[null]] is never set. *)
Abbreviation idmap := (gmap Z nat).

Definition objects (base : nat) (rows : list row) : list (nat * row) :=
  imap (λ i r, ((base + i)%nat, r)) rows.

(** [c.replies = []; map[c.id] = c]. *)
Definition index_step (st : heap * idmap) (o : nat * row) : heap * idmap :=
  (<[o.1 := []]> st.1, <[r_id o.2 := o.1]> st.2).

(** [target.replies.push(c)]; a target without [replies] is a TypeError. *)
Definition push (h : heap) (target c : nat) : option heap :=
  kids ← h !! target; Some (<[target := kids ++ [c]]> h).

(** [if (c.parent_id)] on a row. *)
Definition has_parent (r : row) : bool := truthy_int (of_sql (r_parent_id r)).

(** Lines 240-246, the body of the second [forEach]. *)
Definition attach_step (m : idmap) (st : list nat * heap) (o : nat * row)
  : option (list nat * heap) :=
  if has_parent o.2 then
    match r_parent_id o.2 ≫= (m !!.) with
    | Some target => pair st.1 <$> push st.2 target o.1
    | None => Some st
    end
  else Some (st.1 ++ [o.1], st.2).

(** Lines 236-247: the forest [tree] and the heap it points into. *)
Definition buildUnlimited (all : list row) : option (list nat * heap) :=
  let objs := objects 0 all in
  let '(h0, m) := foldl index_step (∅, ∅) objs in
  foldl (λ st o, st ≫= λ s, attach_step m s o) (Some ([], h0)) objs.

(** Lines 214-218, the body of [replies.forEach]. *)
Definition reply_step (m : idmap) (h : heap) (o : nat * row) : option heap :=
  match r_parent_id o.2 ≫= (m !!.) with
  | Some target => push h target o.1
  | None => Some h
  end.

(** Lines 211-220: [topLevelComments] and the heap after the two loops.
    The replies are separate objects, placed after the top-level ones. *)
Definition buildOneLevel (topLevel replies : list row) : option (list nat * heap) :=
  let tops := objects 0 topLevel in
  let '(h0, m) := foldl index_step (∅, ∅) tops in
  h ← foldl (λ st o, st ≫= λ h, reply_step m h o) (Some h0)
        (objects (length topLevel) replies);
  Some (tops.*1, h).

(** What [res.json] writes for an object: its row, and [replies] when set. *)
#[warnings="-register-all"]
Inductive node := Node (r : row) (replies : option (list node)).

Fixpoint render (fuel : nat) (rows : list row) (h : heap) (a : nat) : option node :=
  match fuel with
  | O => None
  | S f =>
      r ← rows !! a;
      match h !! a with
      | None => Some (Node r None)
      | Some kids => (λ ks, Node r (Some ks)) <$> mapM (render f rows h) kids
      end
  end.

(** Levels of [replies] below a node that hold at least one comment. *)
Fixpoint depth (n : node) : nat :=
  match n with
  | Node _ None => O
  | Node _ (Some kids) => foldr Nat.max O ((λ k, S (depth k)) <$> kids)
  end.

Definition node_row (n : node) : row := let 'Node r _ := n in r.

Definition node_replies (n : node) : list node :=
  let 'Node _ o := n in default [] o.

(** The rows behind a list of addresses. *)
Definition rows_at (rows : list row) (addrs : list nat) : list row :=
  omap (rows !!.) addrs.

(** ** Recursive delete *)

(** One round of the recursive term of [to_delete]: the comments whose
    [parent_id] joins a row of the working table. *)
Definition cte_step (cs : list comment) (work : list Z) : list Z :=
  c ← cs; td ← work; if decide (c_parent_id c = Some td) then [c_id c] else [].

(** [WITH RECURSIVE ... UNION ALL]: rounds are appended until one comes
    back empty. [None]: not finished after [fuel] rounds. *)
Fixpoint cte_rounds (fuel : nat) (cs : list comment) (work : list Z) : option (list Z) :=
  match work with
  | [] => Some []
  | _ :: _ =>
      match fuel with
      | O => None
      | S f => (work ++.) <$> cte_rounds f cs (cte_step cs work)
      end
  end.

Definition to_delete (fuel : nat) (cs : list comment) (id : Z) : option (list Z) :=
  cte_rounds fuel cs (c_id <$> filter (λ c, c_id c = id) cs).

Definition child_of_any (gone : list Z) (c : comment) : Prop :=
  from_option (λ p, p ∈ gone) False (c_parent_id c).

#[global] Instance child_of_any_dec gone c : Decision (child_of_any gone c).
Proof. unfold child_of_any. destruct (c_parent_id c); simpl; apply _. Defined.

(** [ON DELETE CASCADE] of [comments.parent_id]: rows that referenced a
    deleted row go as well, round after round. *)
Fixpoint cascade (fuel : nat) (gone : list Z) (cs : list comment) : list comment :=
  match fuel with
  | O => cs
  | S f =>
      match filter (child_of_any gone) cs with
      | [] => cs
      | dead => cascade f (c_id <$> dead) (filter (λ c, ¬ child_of_any gone c) cs)
      end
  end.

(** [DELETE FROM comments WHERE id IN (...)] with its cascades to
    [comments] and [comment_likes]. *)
Definition delete_comments (ids : list Z) (d : db) : db :=
  let hit := filter (λ c, c_id c ∈ ids) (comments d) in
  let rest := filter (λ c, c_id c ∉ ids) (comments d) in
  let kept := cascade (length rest) (c_id <$> hit) rest in
  {| posts := posts d;
     comments := kept;
     comment_likes :=
       filter (λ l, Exists (λ c, c_id c = l_comment_id l) kept
                    ∨ ¬ Exists (λ c, c_id c = l_comment_id l) (comments d))
              (comment_likes d);
     notifications := notifications d;
     comments_seq := comments_seq d;
     comment_likes_seq := comment_likes_seq d;
     notifications_seq := notifications_seq d |}.

(** Lines 278-289, the handler of [DELETE /api/comments/:id] for an [id]
    in the range of INTEGER. [None]: the recursive query has not finished
    within [fuel] rounds. *)
Definition delete_comment (fuel : nat) (id : Z) (d : db) : option (response () * db) :=
  ids ← to_delete fuel (comments d) id;
  Some (Status 204, delete_comments ids d).

(** The route [DELETE /api/comments/:id], lines 277-290. *)
Definition route_delete_comment (fuel : nat) (id : Z) (d : db)
  : option (response () * db) :=
  if decide (int4 id) then delete_comment fuel id d else Some (Threw, d).

(** [c] is the comment [root] or one of its descendants along
    [parent_id]. *)
Inductive in_subtree (cs : list comment) (root : Z) : Z → Prop :=
  | subtree_root c :
      c ∈ cs → c_id c = root → in_subtree cs root root
  | subtree_child c p :
      c ∈ cs → c_parent_id c = Some p → in_subtree cs root p →
      in_subtree cs root (c_id c).

(** No comment is its own ancestor: [rank] grows from parent to child. *)
Definition ranked (rank : Z → nat) (cs : list comment) : Prop :=
  ∀ c p, c ∈ cs → c_parent_id c = Some p → (rank p < rank (c_id c))%nat.

(** ** Predicates and sample stores used in the statements *)

Definition demo_post : post := Post 1 (Some "u1"%string) (Some ["u2"; "u3"]%string).
Definition demo_root : comment := Comment 1 (Some 1) (Some "u1"%string) "first" None.
Definition demo_reply : comment := Comment 2 (Some 1) (Some "u2"%string) "second" (Some 1).
Definition demo_db : db :=
  Db [demo_post] [demo_root; demo_reply] [CommentLike 1 1 "u2"] [] 3 2 1.

(** A parent comment whose author column is the empty string, and a reply
    to it by another user. *)
Definition quiet_parent : comment := Comment 1 (Some 1) (Some EmptyString) "first" None.
Definition quiet_db : db :=
  Db [Post 1 (Some EmptyString) (Some [])] [quiet_parent] [] [] 2 1 1.
Definition reply_to_quiet : comment_body :=
  CommentBody (Value 1) (Value "u2"%string) (Value "hello"%string) (Value 1).
Definition comment_on_quiet : comment_body :=
  CommentBody (Value 1) (Value "u2"%string) (Value "hello"%string) Undefined.

(** The notification step of a request fails: the store drops the lookup,
    or a recipient is derived and the insert is dropped or violates the
    NOT NULL constraint of [post_id]. *)
Definition notification_fails (out : outage) (b : comment_body) (d1 : db) : Prop :=
  out 1%nat = true
  ∨ ∃ r, deriveRecipient b d1 = Some r
         ∧ (out 2%nat = true ∨ to_sql (postid b) = None).

(** A reply to comment 1 of [demo_db] that names no post. *)
Definition reply_without_post : comment_body :=
  CommentBody Undefined (Value "u2"%string) (Value "hello"%string) (Value 1).

Definition spaces (cs : list ascii) : Prop := Forall (λ c, is_space c = true) cs.
Definition digits (cs : list ascii) : Prop := Forall (λ c, is_Some (digit_of c)) cs.

(** The text of an optional sign. *)
Definition sign_text (neg : option bool) : string :=
  match neg with
  | Some true => "-"
  | Some false => "+"
  | None => EmptyString
  end.

(** One round of a loop that pushes an object onto the [replies] of its
    target, if it has one. *)
Definition push_step (target : nat * row → option nat) (h : heap) (o : nat * row)
  : option heap :=
  match target o with
  | Some t => push h t o.1
  | None => Some h
  end.

(** Where the second loop of the unlimited builder sends an object. *)
Definition forest_target (m : idmap) (o : nat * row) : option nat :=
  if has_parent o.2 then r_parent_id o.2 ≫= (m !!.) else None.

Definition thread : list row :=
  [Row (Comment 1 (Some 1) (Some "u1"%string) "a" None) [];
   Row (Comment 2 (Some 1) (Some "u2"%string) "b" (Some 1)) ["u1"%string];
   Row (Comment 3 (Some 1) (Some "u3"%string) "c" (Some 2)) [];
   Row (Comment 4 (Some 1) (Some "u2"%string) "d" None) [];
   Row (Comment 5 (Some 1) (Some "u1"%string) "e" (Some 9)) []].

(** A reply as [res.json] writes it: no [replies] property. *)
Definition leaf (r : row) : node := Node r None.

(** A top-level comment with the replies that name it, in their order. *)
Definition one_level (replies : list row) (t : row) : node :=
  Node t (Some (leaf <$> filter (λ r, r_parent_id r = Some (r_id t)) replies)).

Definition page : list row :=
  [Row (Comment 1 (Some 1) (Some "u1"%string) "a" None) [];
   Row (Comment 4 (Some 1) (Some "u2"%string) "d" None) []].

Definition page_replies : list row :=
  [Row (Comment 2 (Some 1) (Some "u2"%string) "b" (Some 1)) ["u1"%string];
   Row (Comment 3 (Some 1) (Some "u3"%string) "c" (Some 2)) [];
   Row (Comment 6 (Some 1) (Some "u3"%string) "f" (Some 1)) []].

Definition family : list comment :=
  [Comment 1 (Some 1) (Some "u1"%string) "a" None;
   Comment 2 (Some 1) (Some "u2"%string) "b" (Some 1);
   Comment 3 (Some 1) (Some "u3"%string) "c" (Some 2);
   Comment 4 (Some 1) (Some "u2"%string) "d" None;
   Comment 5 (Some 1) (Some "u1"%string) "e" (Some 4)].

Definition family_db : db :=
  Db [demo_post] family [CommentLike 1 3 "u1"; CommentLike 2 4 "u1"] [] 6 3 1.


(** ** Posts, bookmarks and the store as a whole *)

(** [bookmarks]: both columns are NOT NULL. *)
Record bookmark := Bookmark {
  b_id : Z;
  b_user_id : string;
  b_postid : Z
}.

(** The five tables of [init]: the four of [db], [bookmarks], and the
    sequence behind [posts.id]. *)
Record store := Store {
  tables : db;
  bookmarks : list bookmark;
  posts_seq : Z
}.

(** What [init] leaves on a fresh database: empty tables, sequences at 1. *)
Definition init_store : store := Store (Db [] [] [] [] 1 1 1) [] 1.

Definition with_tables (d : db) (s : store) : store :=
  {| tables := d; bookmarks := bookmarks s; posts_seq := posts_seq s |}.

(** The body of [POST /api/post]. *)
Module post_body.
Record t := Make {
  title : field string;
  content : field string;
  user_id : field string;
  tags : field (list string);
  category : field string
}.
End post_body.

(** A value fits a [VARCHAR(n)] column: NULL, or a text with nothing but
    spaces after its first [n] characters (these spaces are cut off). *)
Definition fits (n : nat) (v : option string) : Prop :=
  from_option
    (λ t, Forall (λ ch, ch = " "%char) (drop n (list_ascii_of_string t))) True v.

#[global] Instance fits_dec n v : Decision (fits n v).
Proof. destruct v; simpl; apply _. Defined.

(** Lines 110-117, [INSERT INTO posts ... RETURNING *]. [title] is
    VARCHAR(255) and [category] VARCHAR(50): a longer value is refused
    when the statement is bound, before an id is drawn. [title] and
    [content] are NOT NULL: a row without one is refused after its id is
    drawn, and the id is lost. [likes] takes its default, the empty
    array. Of the row, the columns of [post] are kept. *)
Definition add_post (b : post_body.t) (s : store) : response post * store :=
  let k := posts_seq s in
  if decide (fits 255 (to_sql (post_body.title b))
             ∧ fits 50 (to_sql (post_body.category b))) then
    match to_sql (post_body.title b), to_sql (post_body.content b) with
    | Some _, Some _ =>
        let row := Post k (to_sql (post_body.user_id b)) (Some []) in
        (Json row,
         {| tables := with_posts (posts (tables s) ++ [row]) (tables s);
            bookmarks := bookmarks s; posts_seq := k + 1 |})
    | _, _ =>
        (Threw, {| tables := tables s; bookmarks := bookmarks s; posts_seq := k + 1 |})
    end
  else (Threw, s).

(** [ORDER BY id DESC]. *)
Definition newer (p q : post) : Prop := p_id q ≤ p_id p.

#[global] Instance newer_dec p q : Decision (newer p q).
Proof. unfold newer. apply _. Defined.

#[global] Instance newer_trans : Transitive newer.
Proof. unfold newer. intros p q r ? ?. lia. Qed.

#[global] Instance newer_total : Total newer.
Proof. unfold newer. intros p q. lia. Qed.

(** Lines 81-84, [GET /api/posts]. *)
Definition get_posts (s : store) : list post :=
  merge_sort newer (posts (tables s)).

(** Lines 87-94, [GET /api/myposts/:user_id]. *)
Definition get_myposts (user_id : string) (s : store) : list post :=
  merge_sort newer (filter (λ p, p_user_id p = Some user_id) (posts (tables s))).

(** [ORDER BY b.id DESC]. *)
Definition later (b1 b2 : bookmark) : Prop := b_id b2 ≤ b_id b1.

#[global] Instance later_dec b1 b2 : Decision (later b1 b2).
Proof. unfold later. apply _. Defined.

#[global] Instance later_trans : Transitive later.
Proof. unfold later. intros p q r ? ?. lia. Qed.

#[global] Instance later_total : Total later.
Proof. unfold later. intros p q. lia. Qed.

(** Lines 97-107, [GET /api/bookmarks/:user_id]: the posts joined to the
    bookmarks of the user, latest bookmark first. *)
Definition get_bookmarks (user_id : string) (s : store) : list post :=
  b ← merge_sort later (filter (λ b, b_user_id b = user_id) (bookmarks s));
  filter (λ p, p_id p = b_postid b) (posts (tables s)).

(** Lines 313-320, [GET /api/notifications/:user_id]. [created_at] is set
    by the insert, so [ORDER BY created_at DESC] is insertion order
    reversed. *)
Definition get_notifications (user_id : string) (d : db) : list notification :=
  reverse (filter (λ n, n_user_id n = user_id) (notifications d)).

(** ** Thread queries *)

(** [c.*] with [likes], the user ids of the likes joined to the comment. *)
Definition with_likes (d : db) (c : comment) : row := Row c (likes_of d (c_id c)).

(** Lines 178-179: [limit] and [offset], the numbers behind [$2] and [$3]. *)
Definition limit_number (q : option string) : Z := limit_of q.
Definition offset_number (q : option string) : Z := offset_of q.

(** What [LIMIT] and [OFFSET] accept: a bigint that is not negative. *)
Definition row_count (n : Z) : option nat :=
  if decide (0 ≤ n < 2 ^ 63) then Some (Z.to_nat n) else None.

(** Lines 181-188, the top-level comments of a post. [createdat] is set
    by the insert, so [ORDER BY c.createdat ASC] is insertion order. *)
Definition top_level (postId : Z) (d : db) : list row :=
  with_likes d <$>
    filter (λ c, c_postid c = Some postId ∧ c_parent_id c = None) (comments d).

(** Lines 181-192, with [LIMIT $2 OFFSET $3]. [None]: the statement is
    rejected. *)
Definition top_level_query (postId limit offset : Z) (d : db) : option (list row) :=
  n ← row_count limit; k ← row_count offset;
  Some (take n (drop k (top_level postId d))).

(** Lines 198-208, [WHERE c.parent_id = ANY($1)]. *)
Definition reply_query (topIds : list Z) (d : db) : list row :=
  with_likes d <$> filter (child_of_any topIds) (comments d).

(** [res.json] on the objects at [out]: [JSON.stringify] follows [replies]
    and throws on a circular structure; without a cycle no path is longer
    than the number of objects. *)
Definition res_json (rows : list row) (built : list nat * heap) : option (list node) :=
  mapM (render (S (length rows)) rows built.2) built.1.

(** Lines 177-220, the handler of [GET /api/comments/:postId?limit=&offset=]
    for a [postId] in the range of INTEGER. *)
Definition get_thread (postId : Z) (limit offset : option string) (d : db)
  : response (list node) :=
  match top_level_query postId (limit_number limit) (offset_number offset) d with
  | None => Threw
  | Some topLevelComments =>
      let replies :=
        match topLevelComments with
        | [] => []
        | _ :: _ => reply_query (r_id <$> topLevelComments) d
        end in
      match buildOneLevel topLevelComments replies
            ≫= res_json (topLevelComments ++ replies) with
      | Some nodes => Json nodes
      | None => Threw
      end
  end.

(** The route [GET /api/comments/:postId], lines 176-221: the first query
    binds [postId]. *)
Definition route_thread (postId : Z) (limit offset : option string) (d : db)
  : response (list node) :=
  if decide (int4 postId) then get_thread postId limit offset d else Threw.

(** Lines 227-234, all comments of a post, in insertion order. *)
Definition thread_rows (postId : Z) (d : db) : list row :=
  with_likes d <$> filter (λ c, c_postid c = Some postId) (comments d).

(** Lines 225-247, the handler of [GET /api/comments/unlimited/:postId]
    for a [postId] in the range of INTEGER. *)
Definition get_full_thread (postId : Z) (d : db) : response (list node) :=
  let comments := thread_rows postId d in
  match buildUnlimited comments ≫= res_json comments with
  | Some nodes => Json nodes
  | None => Threw
  end.

(** The route [GET /api/comments/unlimited/:postId], lines 224-248. *)
Definition route_full_thread (postId : Z) (d : db) : response (list node) :=
  if decide (int4 postId) then get_full_thread postId d else Threw.

(** The comments of the whole table as rows. *)
Definition all_rows (d : db) : list row := with_likes d <$> comments d.

(** A node and the nodes below it. *)
Fixpoint subnodes (n : node) : list node :=
  match n with
  | Node _ None => [n]
  | Node _ (Some kids) => n :: (kids ≫= subnodes)
  end.

(** A node of the unlimited view over [all]: [replies] is set and holds,
    in input order, nodes of the same kind for the rows that name the
    node's row as parent. *)
#[warnings="-register-all"]
Inductive threaded (all : list row) : node → Prop :=
  | threaded_node r kids :
      node_row <$> kids
      = filter (λ c, has_parent c = true ∧ r_parent_id c = Some (r_id r)) all →
      Forall (threaded all) kids →
      threaded all (Node r (Some kids)).

(** The rows the unlimited view shows: those without a parent, and those
    whose parent is among the rows and is shown. *)
Inductive shown (all : list row) : row → Prop :=
  | shown_root r :
      r ∈ all → has_parent r = false → shown all r
  | shown_reply r q :
      r ∈ all → has_parent r = true → r_parent_id r = Some (r_id q) →
      shown all q → shown all r.

(** The row at address [a] of [all] has no parent. *)
Definition root_at (all : list row) (a : nat) : Prop :=
  ∃ r, all !! a = Some r ∧ has_parent r = false.

(** The row at [a] names the row at [p] as its parent. *)
Definition child_at (all : list row) (p a : nat) : Prop :=
  ∃ rp ra, all !! p = Some rp ∧ all !! a = Some ra
           ∧ has_parent ra = true ∧ r_parent_id ra = Some (r_id rp).

(** [a], its parent, the parent of that, and so on up to a root. *)
Fixpoint chain (all : list row) (a : nat) (path : list nat) : Prop :=
  match path with
  | [] => root_at all a
  | p :: rest => child_at all p a ∧ chain all p rest
  end.

(** ** Deleting a post *)

(** Lines 272-273, the handler of [DELETE /api/post/:id] for an [id] in
    the range of INTEGER. The delete cascades to the
    bookmarks and the comments of the post, from these comments to their
    replies, and from every deleted comment to its likes. No foreign key
    leads from [notifications], which stay. *)
Definition delete_post (id : Z) (s : store) : response () * store :=
  let d := tables s in
  if decide (Exists (λ p, p_id p = id) (posts d)) then
    let hit := filter (λ c, c_postid c = Some id) (comments d) in
    let rest := filter (λ c, c_postid c ≠ Some id) (comments d) in
    let kept := cascade (length rest) (c_id <$> hit) rest in
    (Status 204,
     {| tables :=
          {| posts := filter (λ p, p_id p ≠ id) (posts d);
             comments := kept;
             comment_likes :=
               filter (λ l, Exists (λ c, c_id c = l_comment_id l) kept
                            ∨ ¬ Exists (λ c, c_id c = l_comment_id l) (comments d))
                      (comment_likes d);
             notifications := notifications d;
             comments_seq := comments_seq d;
             comment_likes_seq := comment_likes_seq d;
             notifications_seq := notifications_seq d |};
        bookmarks := filter (λ b, b_postid b ≠ id) (bookmarks s);
        posts_seq := posts_seq s |})
  else (Status 204, s).

(** The route [DELETE /api/post/:id], lines 271-274. *)
Definition route_delete_post (id : Z) (s : store) : response () * store :=
  if decide (int4 id) then delete_post id s else (Threw, s).

(** A comment the cascade reaches from the deleted ids [gone]: a reply to
    one of them, or a reply to a comment the cascade reaches. *)
Inductive doomed (cs : list comment) (gone : list Z) : comment → Prop :=
  | doomed_child c p :
      c ∈ cs → c_parent_id c = Some p → p ∈ gone → doomed cs gone c
  | doomed_below c q :
      c ∈ cs → c_parent_id c = Some (c_id q) → doomed cs gone q →
      doomed cs gone c.

(** A comment the delete of post [id] removes: a comment of the post, or a
    reply to a comment it removes. *)
Inductive swept (cs : list comment) (id : Z) : comment → Prop :=
  | swept_post c :
      c ∈ cs → c_postid c = Some id → swept cs id c
  | swept_reply c q :
      c ∈ cs → c_parent_id c = Some (c_id q) → swept cs id q →
      swept cs id c.

(** ** Requests *)

(** The requests that write to the store. *)
Inductive request :=
  | AddPost (b : post_body.t)
  | LikePost (id : Z) (userId : string)
  | CreateComment (out : outage) (b : comment_body)
  | LikeComment (id : Z) (userId : string)
  | DeletePost (id : Z)
  | DeleteComment (id : Z).

(** The store a request leaves behind. A comment delete whose query does
    not finish leaves none. *)
Definition serves (r : request) (s s' : store) : Prop :=
  match r with
  | AddPost b => s' = (add_post b s).2
  | LikePost id u => s' = with_tables (put_post_like id u (tables s)).2 s
  | CreateComment out b => s' = with_tables (createComment out b (tables s)).2 s
  | LikeComment id u => s' = with_tables (put_comment_like id u (tables s)).2 s
  | DeletePost id => s' = (delete_post id s).2
  | DeleteComment id =>
      ∃ fuel r, delete_comment fuel id (tables s) = Some (r, tables s')
                ∧ s' = with_tables (tables s') s
  end.

(** The stores the routes can build from a fresh database. *)
Inductive reachable : store → Prop :=
  | reachable_init : reachable init_store
  | reachable_step s r s' : reachable s → serves r s s' → reachable s'.

(** What the schema and the sequences keep true of a store. *)
Record consistent (s : store) : Prop := Consistent {
  seqs_positive : 0 < posts_seq s ∧ 0 < comments_seq (tables s);
  post_ids_ascend : StronglySorted Z.lt (p_id <$> posts (tables s));
  post_ids_drawn : ∀ p, p ∈ posts (tables s) → 0 < p_id p < posts_seq s;
  post_likes_unique : ∀ p, p ∈ posts (tables s) → NoDup (default [] (p_likes p));
  comment_ids_ascend : StronglySorted Z.lt (c_id <$> comments (tables s));
  comment_ids_drawn :
    ∀ c, c ∈ comments (tables s) → 0 < c_id c < comments_seq (tables s);
  comment_post_fk :
    ∀ c, c ∈ comments (tables s) → references p_id (posts (tables s)) (c_postid c);
  comment_parent_fk :
    ∀ c p, c ∈ comments (tables s) → c_parent_id c = Some p →
      p ≤ c_id c ∧ Exists (λ q, c_id q = p) (comments (tables s));
  like_comment_fk : likes_fk (tables s);
  like_pairs_unique :
    NoDup ((λ l, (l_comment_id l, l_userid l)) <$> comment_likes (tables s));
  bookmark_post_fk :
    ∀ b, b ∈ bookmarks s → Exists (λ p, p_id p = b_postid b) (posts (tables s))
}.

(** A comment that is its own parent. *)
Definition self_parent (cs : list comment) (id : Z) : Prop :=
  Exists (λ c, c_id c = id ∧ c_parent_id c = Some id) cs.

(** Two posts; a reply on the second post to a comment of the first, and a
    comment that is its own parent. *)
Definition mixed_db : db :=
  Db [Post 1 (Some "u1"%string) (Some []); Post 2 (Some "u2"%string) (Some [])]
     [Comment 1 (Some 1) (Some "u2"%string) "a" None;
      Comment 2 (Some 2) (Some "u1"%string) "b" (Some 1);
      Comment 3 (Some 1) (Some "u3"%string) "c" (Some 3);
      Comment 4 (Some 1) (Some "u1"%string) "d" (Some 1)]
     [CommentLike 1 4 "u2"] [] 5 2 1.

(** A run of requests on a fresh database: two posts, a comment on the
    first, a reply to it sent for the second post, a comment that names
    itself as parent, a second reply, and a like. *)
Definition busy_history : store :=
  let post1 := post_body.Make (Value "one"%string) (Value "text"%string)
                 (Value "u1"%string) Undefined Undefined in
  let post2 := post_body.Make (Value "two"%string) (Value "text"%string)
                 (Value "u2"%string) Undefined Undefined in
  let say b s := with_tables (createComment no_outage b (tables s)).2 s in
  let s1 := (add_post post1 init_store).2 in
  let s2 := (add_post post2 s1).2 in
  let s3 := say (CommentBody (Value 1) (Value "u2"%string) (Value "a"%string) Undefined) s2 in
  let s4 := say (CommentBody (Value 2) (Value "u1"%string) (Value "b"%string) (Value 1)) s3 in
  let s5 := say (CommentBody (Value 1) (Value "u3"%string) (Value "c"%string) (Value 3)) s4 in
  let s6 := say (CommentBody (Value 1) (Value "u1"%string) (Value "d"%string) (Value 1)) s5 in
  with_tables (put_comment_like 4 "u2" (tables s6)).2 s6.

(** The store this run leaves behind. *)
Definition busy_store : store := Eval vm_compute in busy_history.

(** The tables of [mixed_db] with bookmarks put in by hand; the second
    post is bookmarked twice by the same user. *)
Definition shelf : store :=
  Store mixed_db
    [Bookmark 1 "u1" 2; Bookmark 2 "u2" 1; Bookmark 3 "u1" 1; Bookmark 4 "u1" 2] 3.

(** * Properties *)

(** ** Like toggles *)

Section toggle_facts.
Context {A : Type} `{EqDecision A}.
Implicit Types (likes : list A) (u v : A).

Lemma toggle_member likes u :
  u ∈ likes → toggle likes u = filter (λ uid, uid ≠ u) likes.
Proof. intros Hin. unfold toggle. by rewrite decide_True. Qed.

Lemma toggle_fresh likes u :
  u ∉ likes → toggle likes u = likes ++ [u].
Proof. intros Hin. unfold toggle. by rewrite decide_False. Qed.

Lemma toggle_flips likes u : u ∈ toggle likes u ↔ u ∉ likes.
Proof.
  unfold toggle. case_decide as Hin.
  - rewrite list_elem_of_filter. tauto.
  - rewrite elem_of_app, list_elem_of_singleton. tauto.
Qed.

Lemma toggle_others likes u v : v ≠ u → v ∈ toggle likes u ↔ v ∈ likes.
Proof.
  intros Hne. unfold toggle. case_decide.
  - rewrite list_elem_of_filter. tauto.
  - rewrite elem_of_app, list_elem_of_singleton. tauto.
Qed.

Lemma toggle_twice likes u v : v ∈ toggle (toggle likes u) u ↔ v ∈ likes.
Proof.
  destruct (decide (v = u)) as [->|Hne].
  - rewrite toggle_flips, toggle_flips. destruct (decide (u ∈ likes)); tauto.
  - by rewrite !toggle_others.
Qed.
End toggle_facts.

Section filter_head.
Context {A : Type} (P : A → Prop) `{!∀ x, Decision (P x)}.

Lemma filter_cons_inv (l : list A) x xs :
  filter P l = x :: xs → P x ∧ x ∈ l.
Proof.
  intros Heq. assert (x ∈ filter P l) as Hin by (rewrite Heq; left).
  by apply list_elem_of_filter in Hin.
Qed.

Lemma filter_nil_iff (l : list A) : filter P l = [] ↔ ¬ Exists P l.
Proof.
  rewrite Exists_exists. split.
  - intros Heq (x & Hin & HP).
    assert (x ∈ filter P l) as Hx by (by apply list_elem_of_filter).
    rewrite Heq in Hx. by apply elem_of_nil in Hx.
  - intros Hno. destruct (filter P l) as [|x xs] eqn:Heq; [done|].
    apply filter_cons_inv in Heq as [HP Hin]. destruct Hno; eauto.
Qed.

Lemma filter_head_Exists (l : list A) :
  Exists P l → ∃ x xs, filter P l = x :: xs.
Proof.
  intros Hex. destruct (filter P l) as [|x xs] eqn:Heq; [|eauto].
  by apply filter_nil_iff in Heq.
Qed.
End filter_head.

Lemma filter_update_likes likes id id' ps :
  filter (λ p, p_id p = id') (update_likes likes id ps)
  = (λ p, if decide (p_id p = id) then set_likes likes p else p)
      <$> filter (λ p, p_id p = id') ps.
Proof.
  unfold update_likes. induction ps as [|p ps IH]; [done|].
  rewrite fmap_cons, !filter_cons, IH.
  destruct (decide (p_id p = id)), (decide (p_id p = id')); unfold set_likes; simpl;
    rewrite ?decide_True, ?decide_False by done; done.
Qed.

Lemma post_likes_put_same id u d :
  Exists (λ p, p_id p = id) (posts d) →
  post_likes (put_post_like id u d).2 id = toggle (post_likes d id) u.
Proof.
  intros Hex. unfold put_post_like, post_likes.
  destruct (filter_head_Exists _ _ Hex) as (row & rows & Hrows).
  rewrite Hrows. simpl. rewrite filter_update_likes, Hrows. simpl.
  apply filter_cons_inv in Hrows as [Hid _]. by rewrite decide_True.
Qed.

Lemma put_post_like_missing id u d :
  ¬ Exists (λ p, p_id p = id) (posts d) →
  put_post_like id u d = (Status 404, d).
Proof.
  intros Hex. unfold put_post_like.
  by rewrite (proj2 (filter_nil_iff _ _) Hex).
Qed.

Lemma post_likes_put_other id id' u d :
  id' ≠ id → post_likes (put_post_like id u d).2 id' = post_likes d id'.
Proof.
  intros Hne. unfold put_post_like.
  destruct (filter (λ p, p_id p = id) (posts d)) as [|row rows]; [done|].
  unfold post_likes. simpl. rewrite filter_update_likes.
  destruct (filter (λ p, p_id p = id') (posts d)) as [|r rs] eqn:Hrows; [done|].
  simpl. apply filter_cons_inv in Hrows as [Hid _].
  rewrite decide_False; [done|congruence].
Qed.

Lemma post_likes_missing id d :
  ¬ Exists (λ p, p_id p = id) (posts d) → post_likes d id = [].
Proof. intros Hex. unfold post_likes. by rewrite (proj2 (filter_nil_iff _ _) Hex). Qed.

Lemma elem_of_likes_of d id v :
  v ∈ likes_of d id ↔ Exists (same_pair id v) (comment_likes d).
Proof.
  unfold likes_of, same_pair. rewrite list_elem_of_fmap, Exists_exists. split.
  - intros (l & -> & Hin). apply list_elem_of_filter in Hin as [? ?]. eauto.
  - intros (l & Hin & Hid & Hu). exists l. split; [done|].
    by apply list_elem_of_filter.
Qed.

Lemma put_comment_like_comments id u d :
  comments (put_comment_like id u d).2 = comments d.
Proof.
  unfold put_comment_like, insert_like.
  destruct (filter (same_pair id u) (comment_likes d)); [|done].
  repeat case_decide; done.
Qed.

(** The like rows a toggle leaves behind. *)
Lemma put_comment_like_rows id u d :
  comment_likes (put_comment_like id u d).2 =
    if decide (Exists (same_pair id u) (comment_likes d))
    then filter (λ l, ¬ same_pair id u l) (comment_likes d)
    else if decide (Exists (λ c, c_id c = id) (comments d))
         then comment_likes d ++ [CommentLike (comment_likes_seq d) id u]
         else comment_likes d.
Proof.
  unfold put_comment_like, insert_like.
  destruct (filter (same_pair id u) (comment_likes d)) as [|l ls] eqn:Hrows.
  - apply filter_nil_iff in Hrows. repeat case_decide; done.
  - rewrite decide_True; [done|].
    apply filter_cons_inv in Hrows as [? ?]. apply Exists_exists; eauto.
Qed.

Lemma Exists_same_pair_filter id u v ls :
  Exists (same_pair id v) (filter (λ l, ¬ same_pair id u l) ls)
  ↔ v ≠ u ∧ Exists (same_pair id v) ls.
Proof.
  rewrite !Exists_exists. unfold same_pair. split.
  - intros (l & Hin & Hid & Hv). apply list_elem_of_filter in Hin as [Hno Hin].
    split; [intros ->; tauto|eauto].
  - intros (Hne & l & Hin & Hid & Hv). exists l. split; [|done].
    apply list_elem_of_filter. split; [|done]. intros [_ Hu]. congruence.
Qed.

Lemma Exists_same_pair_snoc id u v k ls :
  Exists (same_pair id v) (ls ++ [CommentLike k id u])
  ↔ v = u ∨ Exists (same_pair id v) ls.
Proof.
  rewrite Exists_app, Exists_cons, Exists_nil. unfold same_pair at 2. simpl.
  split; [intros [?|[[_ ->]|[]]]; eauto|intros [->|?]; eauto].
Qed.

(** One toggle at the membership level, when the statement succeeds. *)
Lemma likes_of_put id u d v :
  Exists (λ c, c_id c = id) (comments d) →
  v ∈ likes_of (put_comment_like id u d).2 id
  ↔ if decide (v = u) then u ∉ likes_of d id else v ∈ likes_of d id.
Proof.
  intros Hc. case_decide as Hv; rewrite !elem_of_likes_of, put_comment_like_rows.
  all: destruct (decide (Exists (same_pair id u) (comment_likes d))) as [Hu|Hu].
  all: rewrite ?Exists_same_pair_filter, ?(decide_True _ _ Hc),
         ?Exists_same_pair_snoc; subst; tauto.
Qed.

Lemma likes_fk_put id u d : likes_fk d → likes_fk (put_comment_like id u d).2.
Proof.
  unfold likes_fk. intros Hfk l.
  rewrite put_comment_like_comments, put_comment_like_rows.
  repeat case_decide.
  - intros Hin. apply list_elem_of_filter in Hin as [_ Hin]. eauto.
  - rewrite elem_of_app, list_elem_of_singleton. intros [Hin| ->]; [eauto|].
    simpl. by apply Exists_exists.
  - eauto.
Qed.

(** Two toggles by the same user restore the members of a comment. *)
Lemma likes_of_put_twice id u d v :
  likes_fk d →
  v ∈ likes_of (put_comment_like id u (put_comment_like id u d).2).2 id
  ↔ v ∈ likes_of d id.
Proof.
  intros Hfk.
  destruct (decide (Exists (λ c, c_id c = id) (comments d))) as [Hc|Hc].
  - rewrite likes_of_put by (by rewrite put_comment_like_comments).
    case_decide as Hv.
    + subst v. rewrite likes_of_put by done. rewrite decide_True by done.
      destruct (decide (u ∈ likes_of d id)); tauto.
    + rewrite likes_of_put by done. by rewrite decide_False.
  - assert (¬ Exists (same_pair id u) (comment_likes d)) as Hno.
    { rewrite Exists_exists. intros (l & Hin & Hid & _).
      destruct (Hfk l Hin) as (c & Hcin & Hcid). apply Hc, Exists_exists.
      exists c. split; [done|congruence]. }
    assert (comment_likes (put_comment_like id u d).2 = comment_likes d) as Hsame.
    { rewrite put_comment_like_rows. by rewrite !decide_False. }
    rewrite !elem_of_likes_of, put_comment_like_rows, put_comment_like_comments.
    rewrite Hsame. by rewrite !decide_False.
Qed.

Lemma Exists_update_likes likes id id' ps :
  Exists (λ p, p_id p = id') (update_likes likes id ps)
  ↔ Exists (λ p, p_id p = id') ps.
Proof.
  unfold update_likes. induction ps as [|p ps IH]; [done|].
  rewrite fmap_cons, !Exists_cons, IH.
  by destruct (decide (p_id p = id)).
Qed.

Lemma put_post_like_Exists id id' u d :
  Exists (λ p, p_id p = id') (posts (put_post_like id u d).2)
  ↔ Exists (λ p, p_id p = id') (posts d).
Proof.
  unfold put_post_like.
  destruct (filter (λ p, p_id p = id) (posts d)); [done|].
  apply Exists_update_likes.
Qed.

Lemma post_likes_put_twice id u d v :
  v ∈ post_likes (put_post_like id u (put_post_like id u d).2).2 id
  ↔ v ∈ post_likes d id.
Proof.
  destruct (decide (Exists (λ p, p_id p = id) (posts d))) as [Hex|Hex].
  - rewrite post_likes_put_same by (by apply put_post_like_Exists).
    rewrite post_likes_put_same by done. apply toggle_twice.
  - rewrite (put_post_like_missing id u d Hex). simpl.
    by rewrite (put_post_like_missing id u d Hex).
Qed.

Lemma demo_db_likes_fk : likes_fk demo_db.
Proof.
  intros l Hl. apply list_elem_of_singleton in Hl as ->.
  exists demo_root. split; [left|done].
Qed.

(** C3: the like toggle is an involution on membership. For every like
    array [S] and user [u], [toggle (toggle S u) u] has the members of [S];
    the same holds for the store after two [PUT /api/posts/:id/like] by one
    user, and after two [PUT /api/comments/:id/like] on a store whose like
    rows refer to stored comments. The first toggle flips the membership of
    [u] and of nobody else when the post, or the comment, exists. *)
Theorem like_toggle_involution (d : db) (pid cid : Z) (u : string) :
  likes_fk d →
  (∀ (S : list string) v, v ∈ toggle (toggle S u) u ↔ v ∈ S)
  ∧ (∀ v, v ∈ post_likes (put_post_like pid u (put_post_like pid u d).2).2 pid
          ↔ v ∈ post_likes d pid)
  ∧ (Exists (λ p, p_id p = pid) (posts d) →
     ∀ v, v ∈ post_likes (put_post_like pid u d).2 pid
          ↔ if decide (v = u) then u ∉ post_likes d pid else v ∈ post_likes d pid)
  ∧ (∀ v, v ∈ likes_of (put_comment_like cid u (put_comment_like cid u d).2).2 cid
          ↔ v ∈ likes_of d cid)
  ∧ (Exists (λ c, c_id c = cid) (comments d) →
     ∀ v, v ∈ likes_of (put_comment_like cid u d).2 cid
          ↔ if decide (v = u) then u ∉ likes_of d cid else v ∈ likes_of d cid).
Proof.
  intros Hfk. split_and!.
  - intros S v. apply toggle_twice.
  - intros v. apply post_likes_put_twice.
  - intros Hex v. rewrite post_likes_put_same by done.
    case_decide as Hv; [subst v; apply toggle_flips|by apply toggle_others].
  - intros v. by apply likes_of_put_twice.
  - intros Hex v. by apply likes_of_put.
Qed.

Lemma like_toggle_involution_witness :
  likes_fk demo_db
  ∧ post_likes (put_post_like 1 "u2" (put_post_like 1 "u2" demo_db).2).2 1
    = ["u3"; "u2"]%string
  ∧ ∀ v, v ∈ likes_of (put_comment_like 1 "u2" (put_comment_like 1 "u2" demo_db).2).2 1
         ↔ v ∈ likes_of demo_db 1.
Proof.
  split; [exact demo_db_likes_fk|]. split; [reflexivity|].
  exact (proj1 (proj2 (proj2 (proj2
    (like_toggle_involution demo_db 1 1 "u2" demo_db_likes_fk))))).
Defined.

(** C9, as the code has it: a like on a post id that no post carries
    leaves the store as it was, no [UPDATE] runs; the answer is 404 when
    the id is in the range of INTEGER, and outside that range the [SELECT]
    is refused and the handler throws. *)
Theorem like_missing_post_not_found (d : db) (id : Z) (u : string) :
  ¬ Exists (λ p, p_id p = id) (posts d) →
  (route_like_post id u d).2 = d
  ∧ (int4 id → (route_like_post id u d).1 = Status 404)
  ∧ (¬ int4 id → (route_like_post id u d).1 = Threw).
Proof.
  intros Hno. unfold route_like_post. case_decide as Hid.
  - rewrite put_post_like_missing by done. tauto.
  - tauto.
Qed.

Lemma like_missing_post_not_found_witness :
  ¬ Exists (λ p, p_id p = 7) (posts demo_db)
  ∧ route_like_post 7 "u2" demo_db = (Status 404, demo_db).
Proof.
  assert (¬ Exists (λ p, p_id p = 7) (posts demo_db)) as Hno
    by (apply (bool_decide_unpack _); vm_compute; exact I).
  split; [exact Hno|].
  destruct (like_missing_post_not_found demo_db 7 "u2" Hno) as (Hd & H404 & _).
  apply injective_projections; [|exact Hd]. apply H404. unfold int4. lia.
Defined.

(** C9 as stated fails: no post has the id 2147483648, and the like does
    not answer 404 but throws. *)
Lemma like_missing_post_counterexample :
  ¬ Exists (λ p, p_id p = 2147483648) (posts demo_db)
  ∧ (route_like_post 2147483648 "u2" demo_db).1 ≠ Status 404.
Proof.
  split; [apply (bool_decide_unpack _); vm_compute; exact I|].
  vm_compute. discriminate.
Qed.

(** C10: on an existing post, a like by a user already in the array writes
    the array filtered of every occurrence of that user, the other entries
    in their order; a like by a user not in the array writes the array with
    the user appended. The arrays of the other posts are not touched. *)
Theorem post_like_filter_or_push (d : db) (id : Z) (u : string) :
  Exists (λ p, p_id p = id) (posts d) →
  let likes := post_likes d id in
  let likes' := post_likes (put_post_like id u d).2 id in
  (u ∈ likes → likes' = filter (λ uid, uid ≠ u) likes ∧ u ∉ likes')
  ∧ (u ∉ likes → likes' = likes ++ [u])
  ∧ (∀ id', id' ≠ id →
       post_likes (put_post_like id u d).2 id' = post_likes d id').
Proof.
  intros Hex likes likes'. subst likes likes'.
  rewrite post_likes_put_same by done. split_and!.
  - intros Hin. rewrite toggle_member by done. split; [done|].
    rewrite list_elem_of_filter. tauto.
  - intros Hin. by rewrite toggle_fresh.
  - intros id' Hne. by apply post_likes_put_other.
Qed.

Lemma post_like_filter_or_push_witness :
  Exists (λ p, p_id p = 1) (posts demo_db)
  ∧ post_likes (put_post_like 1 "u2" demo_db).2 1 = ["u3"]%string
  ∧ post_likes (put_post_like 1 "u9" demo_db).2 1 = ["u2"; "u3"; "u9"]%string.
Proof.
  assert (Exists (λ p, p_id p = 1) (posts demo_db)) as Hex
    by (apply (bool_decide_unpack _); vm_compute; exact I).
  split; [exact Hex|]. split.
  - refine (proj1 (proj1 (post_like_filter_or_push demo_db 1 "u2" Hex) _)).
    apply (bool_decide_unpack _); vm_compute; exact I.
  - refine (proj1 (proj2 (post_like_filter_or_push demo_db 1 "u9" Hex)) _).
    apply (bool_decide_unpack _); vm_compute; exact I.
Defined.

(** ** Notification recipient *)

Lemma or_null_Some f p : or_null f = Some p ↔ f = Value p ∧ p ≠ 0.
Proof.
  unfold or_null. destruct f as [| |n]; simpl; [intuition congruence..|].
  destruct (Z.eqb_spec n 0); simpl; intuition congruence.
Qed.

Lemma or_null_None f : or_null f = None ↔ truthy_int f = false.
Proof.
  unfold or_null. destruct f as [| |n]; simpl; [done..|].
  by destruct (n =? 0).
Qed.

Lemma truthy_str_Value s : truthy_str (Value s) = true ↔ s ≠ EmptyString.
Proof.
  simpl. destruct (String.eqb_spec s EmptyString); simpl; [|done].
  split; [done|]. by intros [].
Qed.

(** The guard and the strict comparison, for an author read from a row. *)
Lemma recipient_of_author (author : option string) (uid : field string) (t : ntype) :
  (if strict_ne (of_sql author) uid
   then match of_sql author with
        | Value u => if truthy_str (Value u) then Some (u, t) else None
        | _ => None
        end
   else None)
  = match author with
    | Some a =>
        if decide (a ≠ EmptyString ∧ Some a ≠ to_sql uid) then Some (a, t) else None
    | None => None
    end.
Proof.
  destruct author as [a|]; simpl; [|by destruct uid].
  pose proof (truthy_str_Value a) as Ha. simpl in Ha.
  destruct uid as [| |s]; simpl.
  - destruct (negb (a =? EmptyString)%string); case_decide; intuition congruence.
  - destruct (negb (a =? EmptyString)%string); case_decide; intuition congruence.
  - case_bool_decide; destruct (negb (a =? EmptyString)%string); case_decide; intuition congruence.
Qed.

Lemma deriveRecipient_reply b d p :
  or_null (parent_id b) = Some p →
  deriveRecipient b d =
    match head (filter (λ c, c_id c = p) (comments d)) with
    | Some c =>
        match c_userid c with
        | Some a =>
            if decide (a ≠ EmptyString ∧ Some a ≠ to_sql (userid b))
            then Some (a, TReply) else None
        | None => None
        end
    | None => None
    end.
Proof.
  intros [Hp Hnz]%or_null_Some. unfold deriveRecipient, notify_target.
  rewrite Hp. simpl. rewrite (proj2 (Z.eqb_neq p 0) Hnz). simpl.
  rewrite (list_filter_iff (λ c, Some (c_id c) = Some p) (λ c, c_id c = p))
    by (intros c; split; congruence).
  destruct (filter (λ c, c_id c = p) (comments d)) as [|c cs]; [done|]. simpl.
  rewrite <-(recipient_of_author (c_userid c) (userid b) TReply).
  by destruct (strict_ne (of_sql (c_userid c)) (userid b)).
Qed.

Lemma deriveRecipient_top b d :
  or_null (parent_id b) = None →
  deriveRecipient b d =
    match to_sql (postid b) ≫= λ k, head (filter (λ q, p_id q = k) (posts d)) with
    | Some q =>
        match p_user_id q with
        | Some a =>
            if decide (a ≠ EmptyString ∧ Some a ≠ to_sql (userid b))
            then Some (a, TComment) else None
        | None => None
        end
    | None => None
    end.
Proof.
  intros Hp%or_null_None. unfold deriveRecipient, notify_target. rewrite Hp.
  destruct (to_sql (postid b)) as [k|] eqn:Hk; simpl.
  - rewrite (list_filter_iff (λ q, Some (p_id q) = Some k) (λ q, p_id q = k))
      by (intros c; split; congruence).
    destruct (filter (λ q, p_id q = k) (posts d)) as [|q qs]; [done|]. simpl.
    rewrite <-(recipient_of_author (p_user_id q) (userid b) TComment).
    by destruct (strict_ne (of_sql (p_user_id q)) (userid b)).
  - rewrite (proj2 (filter_nil_iff (λ q, Some (p_id q) = None) (posts d))); [done|].
    rewrite Exists_exists. by intros (? & _ & ?).
Qed.

Lemma insert_comment_Some b d c d1 :
  insert_comment b d = (Some c, d1) →
  d1 = with_comments (comments d ++ [c]) (comments_seq d + 1) d
  ∧ c_id c = comments_seq d
  ∧ c_parent_id c = or_null (parent_id b)
  ∧ c_userid c = to_sql (userid b).
Proof.
  unfold insert_comment. destruct (to_sql (content b)); [|done].
  case_decide; [|done]. by intros [= <- <-].
Qed.

(** What a request that meets no outage leaves in [notifications]: nothing
    new when no recipient is derived, one row for the derived recipient
    when the comment names a post. *)
Lemma createComment_notifications b d0 c d1 :
  insert_comment b d0 = (Some c, d1) →
  (deriveRecipient b d1 = None →
   notifications (createComment no_outage b d0).2 = notifications d0)
  ∧ (∀ r k, deriveRecipient b d1 = Some r → to_sql (postid b) = Some k →
       notifications (createComment no_outage b d0).2
       = notifications d0 ++ [Notification (notifications_seq d0) r.1 r.2 k (c_id c)]).
Proof.
  intros Hins. unfold createComment. simpl. rewrite Hins.
  apply insert_comment_Some in Hins as (-> & _). split.
  - by intros ->.
  - intros [u t] k -> Hk. unfold insert_notification. by rewrite Hk.
Qed.

(** C1, as the code has it: for a comment created with a parent id [p],
    no recipient is derived if and only if no comment has id [p], or the
    parent's author is the commenter, or the parent's author is NULL or
    the empty string (the guard [if (notifyUserId)]); a derived recipient
    is the parent's author, with type "reply". The handler stores no
    notification when none is derived, and one row for the recipient when
    one is derived and the comment names a post. *)
Theorem reply_recipient (b : comment_body) (d : db) (p : Z) :
  or_null (parent_id b) = Some p →
  let parent := head (filter (λ c, c_id c = p) (comments d)) in
  (deriveRecipient b d = None ↔
     parent = None
     ∨ ∃ c, parent = Some c
            ∧ (c_userid c = to_sql (userid b)
               ∨ c_userid c = None ∨ c_userid c = Some EmptyString))
  ∧ (∀ r, deriveRecipient b d = Some r →
       ∃ c, parent = Some c ∧ c_userid c = Some r.1 ∧ r.2 = TReply)
  ∧ (∀ d0 c, insert_comment b d0 = (Some c, d) →
       (deriveRecipient b d = None →
        notifications (createComment no_outage b d0).2 = notifications d0)
       ∧ (∀ r k, deriveRecipient b d = Some r → to_sql (postid b) = Some k →
            notifications (createComment no_outage b d0).2
            = notifications d0
              ++ [Notification (notifications_seq d0) r.1 r.2 k (c_id c)])).
Proof.
  intros Hp parent.
  cut ((deriveRecipient b d = None ↔
          parent = None
          ∨ ∃ c, parent = Some c
                 ∧ (c_userid c = to_sql (userid b)
                    ∨ c_userid c = None ∨ c_userid c = Some EmptyString))
       ∧ (∀ r, deriveRecipient b d = Some r →
            ∃ c, parent = Some c ∧ c_userid c = Some r.1 ∧ r.2 = TReply)).
  { intros [H1 H2]. split; [exact H1|]. split; [exact H2|].
    intros d0 c Hins. by apply createComment_notifications. }
  rewrite (deriveRecipient_reply b d p Hp). fold parent.
  destruct parent as [c|]; [|split; [tauto|done]].
  destruct (c_userid c) as [a|] eqn:Ha.
  - case_decide as Hdec; split.
    + split; [done|]. intros [?|(c' & [= <-] & Hc)]; [done|].
      rewrite Ha in Hc. exfalso. intuition congruence.
    + intros r [= <-]. eauto.
    + split; [|done]. intros _. right. exists c. split; [done|].
      rewrite Ha. destruct (decide (a = EmptyString)) as [->|]; [tauto|].
      destruct (decide (Some a = to_sql (userid b))); tauto.
    + done.
  - split; [|done]. split; [|done]. intros _. right. exists c.
    rewrite Ha. tauto.
Qed.

Lemma reply_recipient_witness :
  or_null (parent_id reply_to_quiet) = Some 1
  ∧ (deriveRecipient reply_to_quiet demo_db = None ↔
       head (filter (λ c, c_id c = 1) (comments demo_db)) = None
       ∨ ∃ c, head (filter (λ c, c_id c = 1) (comments demo_db)) = Some c
              ∧ (c_userid c = to_sql (userid reply_to_quiet)
                 ∨ c_userid c = None ∨ c_userid c = Some EmptyString)).
Proof.
  split; [reflexivity|].
  exact (proj1 (reply_recipient reply_to_quiet demo_db 1 eq_refl)).
Defined.

(** C1 as stated fails: the parent exists and was written by somebody
    else, yet no recipient is derived and no notification is stored. *)
Lemma reply_recipient_counterexample :
  let d1 := (insert_comment reply_to_quiet quiet_db).2 in
  let parent := head (filter (λ c, c_id c = 1) (comments d1)) in
  notifications (createComment no_outage reply_to_quiet quiet_db).2 = []
  ∧ ¬ (deriveRecipient reply_to_quiet d1 = None ↔
         parent = None
         ∨ ∃ c, parent = Some c ∧ c_userid c = to_sql (userid reply_to_quiet)).
Proof.
  split; [reflexivity|]. intros [Hnone _].
  destruct (Hnone eq_refl) as [Hp|(c & Hc & Hu)]; [discriminate Hp|].
  vm_compute in Hc. injection Hc as <-. discriminate Hu.
Qed.

(** C2, as the code has it: for a comment created without a parent, no
    recipient is derived if and only if no post has the comment's post id,
    or the post's author is the commenter, or the post's author is NULL or
    the empty string; a derived recipient is the post's author, with type
    "comment". The handler stores no notification when none is derived, and
    one row for the recipient when one is derived. *)
Theorem top_level_recipient (b : comment_body) (d : db) :
  or_null (parent_id b) = None →
  let owner := to_sql (postid b) ≫= λ k, head (filter (λ q, p_id q = k) (posts d)) in
  (deriveRecipient b d = None ↔
     owner = None
     ∨ ∃ q, owner = Some q
            ∧ (p_user_id q = to_sql (userid b)
               ∨ p_user_id q = None ∨ p_user_id q = Some EmptyString))
  ∧ (∀ r, deriveRecipient b d = Some r →
       ∃ q, owner = Some q ∧ p_user_id q = Some r.1 ∧ r.2 = TComment)
  ∧ (∀ d0 c, insert_comment b d0 = (Some c, d) →
       (deriveRecipient b d = None →
        notifications (createComment no_outage b d0).2 = notifications d0)
       ∧ (∀ r k, deriveRecipient b d = Some r → to_sql (postid b) = Some k →
            notifications (createComment no_outage b d0).2
            = notifications d0
              ++ [Notification (notifications_seq d0) r.1 r.2 k (c_id c)])).
Proof.
  intros Hp owner.
  cut ((deriveRecipient b d = None ↔
          owner = None
          ∨ ∃ q, owner = Some q
                 ∧ (p_user_id q = to_sql (userid b)
                    ∨ p_user_id q = None ∨ p_user_id q = Some EmptyString))
       ∧ (∀ r, deriveRecipient b d = Some r →
            ∃ q, owner = Some q ∧ p_user_id q = Some r.1 ∧ r.2 = TComment)).
  { intros [H1 H2]. split; [exact H1|]. split; [exact H2|].
    intros d0 c Hins. by apply createComment_notifications. }
  rewrite (deriveRecipient_top b d Hp). fold owner.
  destruct owner as [q|]; [|split; [tauto|done]].
  destruct (p_user_id q) as [a|] eqn:Ha.
  - case_decide as Hdec; split.
    + split; [done|]. intros [?|(q' & [= <-] & Hq)]; [done|].
      rewrite Ha in Hq. exfalso. intuition congruence.
    + intros r [= <-]. eauto.
    + split; [|done]. intros _. right. exists q. split; [done|].
      rewrite Ha. destruct (decide (a = EmptyString)) as [->|]; [tauto|].
      destruct (decide (Some a = to_sql (userid b))); tauto.
    + done.
  - split; [|done]. split; [|done]. intros _. right. exists q.
    rewrite Ha. tauto.
Qed.

Lemma top_level_recipient_witness :
  or_null (parent_id comment_on_quiet) = None
  ∧ ∀ r, deriveRecipient comment_on_quiet demo_db = Some r →
      ∃ q, head (filter (λ q, p_id q = 1) (posts demo_db)) = Some q
           ∧ p_user_id q = Some r.1 ∧ r.2 = TComment.
Proof.
  split; [reflexivity|].
  exact (proj1 (proj2 (top_level_recipient comment_on_quiet demo_db eq_refl))).
Defined.

(** C2 as stated fails: the post exists and was written by somebody else,
    yet no recipient is derived and no notification is stored. *)
Lemma top_level_recipient_counterexample :
  let d1 := (insert_comment comment_on_quiet quiet_db).2 in
  let owner := head (filter (λ q, p_id q = 1) (posts d1)) in
  notifications (createComment no_outage comment_on_quiet quiet_db).2 = []
  ∧ ¬ (deriveRecipient comment_on_quiet d1 = None ↔
         owner = None
         ∨ ∃ q, owner = Some q ∧ p_user_id q = to_sql (userid comment_on_quiet)).
Proof.
  split; [reflexivity|]. intros [Hnone _].
  destruct (Hnone eq_refl) as [Hp|(q & Hq & Hu)]; [discriminate Hp|].
  vm_compute in Hq. injection Hq as <-. discriminate Hu.
Qed.

(** ** Comment creation, proofs *)

(** C8, as the code has it: once the comment row is inserted it stays in
    the store whatever the notification step does; the created comment is
    returned if and only if no statement of the notification step fails,
    and when one fails the handler throws instead of answering. *)
Theorem createComment_outcome (out : outage) (b : comment_body) (d d1 : db) (c : comment) :
  out 0%nat = false →
  insert_comment b d = (Some c, d1) →
  let r := createComment out b d in
  comments r.2 = comments d ++ [c]
  ∧ (r.1 = Json c ↔ ¬ notification_fails out b d1)
  ∧ (r.1 = Threw ↔ notification_fails out b d1).
Proof.
  intros H0 Hins. unfold createComment, notification_fails. rewrite H0, Hins.
  apply insert_comment_Some in Hins as (-> & _).
  destruct (out 1%nat); simpl.
  { split; [done|]. split; [|tauto]. split; [done|]. intros Hno. destruct Hno. by left. }
  destruct (deriveRecipient b _) as [[u t]|]; simpl.
  2:{ split; [done|]. split; [|split; [done|]].
      - split; [|done]. intros _ [?|(r & ? & _)]; done.
      - intros [?|(r & ? & _)]; done. }
  destruct (out 2%nat); simpl.
  { split; [done|]. split; [split; [done|]|split; [|done]].
    - intros Hno. destruct Hno. right. eauto.
    - intros _. right. eauto. }
  unfold insert_notification. destruct (to_sql (postid b)); simpl.
  - split; [done|]. split; [split; [|done]|split; [done|]].
    + intros _ [?|(r & _ & [?|?])]; done.
    + intros [?|(r & _ & [?|?])]; done.
  - split; [done|]. split; [split; [done|]|split; [|done]].
    + intros Hno. destruct Hno. right. eauto.
    + intros _. right. eauto.
Qed.

Lemma createComment_outcome_witness :
  no_outage 0%nat = false
  ∧ (∃ c d1, insert_comment reply_to_quiet demo_db = (Some c, d1)
       ∧ (createComment no_outage reply_to_quiet demo_db).1 = Json c
       ∧ ¬ notification_fails no_outage reply_to_quiet d1).
Proof.
  split; [reflexivity|].
  eexists _, _. split; [reflexivity|]. split; [reflexivity|].
  exact (proj1 (proj1 (proj2
    (createComment_outcome no_outage reply_to_quiet demo_db _ _ eq_refl eq_refl)))
    eq_refl).
Defined.

(** C8 as stated fails: the comment row is inserted, the notification
    insert violates NOT NULL, and the handler throws instead of returning
    the comment. *)
Lemma createComment_counterexample :
  ∃ c d1, insert_comment reply_without_post demo_db = (Some c, d1)
    ∧ c ∈ comments (createComment no_outage reply_without_post demo_db).2
    ∧ (createComment no_outage reply_without_post demo_db).1 = Threw
    ∧ (createComment no_outage reply_without_post demo_db).1 ≠ Json c.
Proof.
  eexists _, _. split; [reflexivity|]. split; [|split; [reflexivity|discriminate]].
  vm_compute. do 2 right. left.
Qed.

(** ** Pagination parameters, proofs *)

Lemma skip_space_app ws s :
  spaces ws → skip_space (string_of_list_ascii ws +:+ s) = skip_space s.
Proof. induction 1 as [|c ws Hc _ IH]; simpl; [done|]. by rewrite Hc. Qed.

Lemma leading_digits_app dc rest :
  digits dc →
  leading_digits (string_of_list_ascii dc +:+ rest)
  = omap digit_of dc ++ leading_digits rest.
Proof.
  induction 1 as [|c dc [v Hv] _ IH]; simpl; [done|].
  rewrite Hv. simpl. by rewrite IH.
Qed.

Lemma digit_not_space c : is_Some (digit_of c) → is_space c = false.
Proof.
  intros [v Hv]. destruct c as [[] [] [] [] [] [] [] []];
    vm_compute in Hv |- *; congruence.
Qed.

Lemma digit_not_sign c :
  is_Some (digit_of c) → Ascii.eqb c "-" = false ∧ Ascii.eqb c "+" = false.
Proof.
  intros [v Hv]. split; apply Ascii.eqb_neq; intros ->; discriminate Hv.
Qed.

(** [parseInt] on optional white space, an optional sign, at least one
    digit, and a rest that does not go on with a digit. *)
Lemma parseInt_number ws neg dc rest :
  spaces ws → digits dc → dc ≠ [] → leading_digits rest = [] →
  parseInt (string_of_list_ascii ws +:+ sign_text neg
            +:+ string_of_list_ascii dc +:+ rest)
  = Some (js_number (if default false neg then - decimal (omap digit_of dc)
                     else decimal (omap digit_of dc))).
Proof.
  intros Hws Hdc Hne Hrest. unfold parseInt. rewrite skip_space_app by done.
  assert (∃ v vs, omap digit_of dc = v :: vs) as (v & vs & Hvs).
  { destruct Hdc as [|c dc [v Hv] _]; [done|]. simpl. rewrite Hv. simpl. eauto. }
  assert (leading_digits (string_of_list_ascii dc +:+ rest) = v :: vs) as Hld
    by (by rewrite leading_digits_app, Hrest, app_nil_r).
  assert (∀ s, EmptyString +:+ s = s) as Hempty by done.
  destruct neg as [[]|]; simpl; rewrite Hempty.
  - by rewrite Hld, <-Hvs.
  - by rewrite Hld, <-Hvs.
  - destruct Hdc as [|c dc Hc Hdc]; [done|].
    change (string_of_list_ascii (c :: dc) +:+ rest)
      with (String c (string_of_list_ascii dc +:+ rest)) in *.
    cbn [skip_space]. rewrite (digit_not_space c Hc). unfold split_sign.
    destruct (digit_not_sign c Hc) as [-> ->].
    by rewrite Hld, <-Hvs.
Qed.

(** A text that starts with something other than white space, a sign or a
    digit is not a number. *)
Lemma parseInt_not_a_number c r :
  is_space c = false → digit_of c = None →
  Ascii.eqb c "-" = false → Ascii.eqb c "+" = false →
  parseInt (String c r) = None.
Proof.
  intros Hs Hd Hm Hp. unfold parseInt. simpl. rewrite Hs. simpl.
  rewrite Hm, Hp. simpl. by rewrite Hd.
Qed.

(** Up to [2 ^ 53] in size an integer is a number as it is. *)
Lemma js_number_exact n : - 2 ^ 53 ≤ n ≤ 2 ^ 53 → js_number n = n.
Proof.
  intros Hn. unfold js_number.
  destruct (Z.ltb_spec (Z.abs n) (2 ^ 53)) as [|Habs]; [done|].
  assert (n = 2 ^ 53 ∨ n = - 2 ^ 53) as [-> | ->] by lia; reflexivity.
Qed.

Lemma js_number_zero n : js_number n = 0 ↔ n = 0.
Proof.
  split; [|by intros ->]. unfold js_number.
  destruct (Z.ltb_spec (Z.abs n) (2 ^ 53)) as [|Habs]; [done|].
  set (e := Z.log2 (Z.abs n) - 52).
  assert (53 ≤ Z.log2 (Z.abs n)) as Hlog by (apply Z.log2_le_pow2; lia).
  assert (0 < 2 ^ e) as Hpow by (apply Z.pow_pos_nonneg; lia).
  assert (0 < Z.abs n / 2 ^ e) as Hq.
  { apply Z.div_str_pos. split; [done|].
    destruct (Z.log2_spec (Z.abs n)) as [Hle _]; [lia|].
    etrans; [|exact Hle]. apply Z.pow_le_mono_r; lia. }
  intros Hz. exfalso.
  assert (0 < Z.min ((if (2 ^ (e - 1) <? Z.abs n mod 2 ^ e)
                          || (Z.abs n mod 2 ^ e =? 2 ^ (e - 1))
                             && Z.odd (Z.abs n / 2 ^ e)
                      then Z.abs n / 2 ^ e + 1 else Z.abs n / 2 ^ e) * 2 ^ e)
                (2 ^ 1024)) as Hm.
  { apply Z.min_glb_lt; [|done]. apply Z.mul_pos_pos; [|done].
    destruct (_ || _); lia. }
  destruct (Z.sgn_spec n) as [[? Hs]|[[? Hs]|[? Hs]]]; rewrite Hs in Hz; lia.
Qed.

(** C7, as the code has it: [limit] and [offset] are 20 and 0 when the
    parameter is missing or is not a number ([parseInt] gives NaN, as it
    does on every text that starts with something other than white space,
    a sign or a digit); a text that starts with a decimal integer of at
    most 20 digits gives the number nearest to that integer with its sign,
    negative values included, except that a limit of 0 gives 20. Up to
    [2 ^ 53] in size that number is the integer itself, and it is 0 for
    the integer 0 only. *)
Theorem page_parameters :
  (limit_of None = 20 ∧ offset_of None = 0)
  ∧ (∀ s, parseInt s = None → limit_of (Some s) = 20 ∧ offset_of (Some s) = 0)
  ∧ (∀ c r, is_space c = false → digit_of c = None →
            Ascii.eqb c "-" = false → Ascii.eqb c "+" = false →
            limit_of (Some (String c r)) = 20 ∧ offset_of (Some (String c r)) = 0)
  ∧ (∀ ws neg dc rest,
       spaces ws → digits dc → dc ≠ [] → (length dc ≤ 20)%nat →
       leading_digits rest = [] →
       let s := string_of_list_ascii ws +:+ sign_text neg
                +:+ string_of_list_ascii dc +:+ rest in
       let n := js_number (if default false neg then - decimal (omap digit_of dc)
                           else decimal (omap digit_of dc)) in
       limit_of (Some s) = (if n =? 0 then 20 else n) ∧ offset_of (Some s) = n)
  ∧ (∀ n, (- 2 ^ 53 ≤ n ≤ 2 ^ 53 → js_number n = n) ∧ (js_number n = 0 ↔ n = 0)).
Proof.
  split_and!; try reflexivity.
  - intros s Hs. unfold limit_of, offset_of, query_int. simpl. by rewrite Hs.
  - intros c r Hs Hd Hm Hp. unfold limit_of, offset_of, query_int. simpl.
    by rewrite (parseInt_not_a_number c r).
  - intros ws neg dc rest Hws Hdc Hne _ Hrest s n.
    unfold limit_of, offset_of, query_int. simpl. subst s.
    rewrite (parseInt_number ws neg dc rest) by done. fold n.
    split; [done|]. destruct (Z.eqb_spec n 0); congruence.
  - intros n. split; [apply js_number_exact|apply js_number_zero].
Qed.

Lemma page_parameters_witness :
  spaces [" "%char] ∧ digits ["5"%char] ∧ leading_digits "px" = []
  ∧ (limit_of (Some " -5px"%string) = -5 ∧ offset_of (Some " -5px"%string) = -5)
  ∧ limit_of (Some "9007199254740993"%string) = 9007199254740992.
Proof.
  assert (spaces [" "%char]) as Hws by (repeat constructor).
  assert (digits ["5"%char]) as Hdc by (repeat constructor; by eexists).
  split; [exact Hws|]. split; [exact Hdc|]. split; [reflexivity|].
  split; [|reflexivity].
  exact (proj1 (proj2 (proj2 (proj2 page_parameters)))
           [" "%char] (Some true) ["5"%char] "px"%string Hws Hdc
           ltac:(discriminate) ltac:(simpl; lia) eq_refl).
Defined.

(** C7 as stated fails: a negative limit or offset is passed on as it is. *)
Lemma page_parameters_counterexample :
  ¬ (0 ≤ limit_of (Some "-5"%string) ∧ 0 ≤ offset_of (Some "-5"%string)).
Proof. intros [H _]. vm_compute in H. by apply H. Qed.

(** ** Tree builders, proofs *)

Lemma objects_snoc base rows r :
  objects base (rows ++ [r]) = objects base rows ++ [((base + length rows)%nat, r)].
Proof. unfold objects. rewrite imap_app. simpl. by rewrite Nat.add_0_r. Qed.

Lemma objects_cons base r rows :
  objects base (r :: rows) = (base, r) :: objects (S base) rows.
Proof.
  unfold objects. simpl. rewrite Nat.add_0_r. f_equal.
  apply imap_ext. intros i x _. simpl. f_equal. lia.
Qed.

Lemma objects_snd base rows : (objects base rows).*2 = rows.
Proof.
  revert base. induction rows as [|r rows IH]; intros base; [done|].
  rewrite objects_cons, fmap_cons, IH. done.
Qed.

Lemma objects_fst base rows : (objects base rows).*1 = seq base (length rows).
Proof.
  revert base. induction rows as [|r rows IH]; intros base; [done|].
  rewrite objects_cons, fmap_cons, IH. done.
Qed.

Lemma elem_of_objects base rows a r :
  (a, r) ∈ objects base rows ↔ (base ≤ a)%nat ∧ rows !! (a - base)%nat = Some r.
Proof.
  unfold objects. rewrite elem_of_lookup_imap. split.
  - intros (i & y & [= -> ->] & Hi). split; [lia|].
    by replace (base + i - base)%nat with i by lia.
  - intros [Hle Hr]. exists (a - base)%nat, r. split; [|done]. f_equal. lia.
Qed.

(** The heap and the id map after the indexing loop. *)
Lemma index_heap base rows a :
  (foldl index_step (∅, ∅) (objects base rows)).1 !! a
  = if decide (base ≤ a < base + length rows)%nat then Some [] else None.
Proof.
  induction rows as [|r rows IH] using rev_ind.
  - simpl. rewrite lookup_empty. case_decide; [lia|done].
  - rewrite objects_snoc, foldl_app, length_app. simpl.
    destruct (decide (a = base + length rows)%nat) as [->|Hne].
    + rewrite lookup_insert_eq. rewrite decide_True; [done|lia].
    + rewrite lookup_insert_ne by done. rewrite IH.
      repeat case_decide; try done; lia.
Qed.

Lemma index_map base rows k a :
  NoDup (r_id <$> rows) →
  (foldl index_step (∅, ∅) (objects base rows)).2 !! k = Some a
  ↔ (base ≤ a)%nat ∧ ∃ r, rows !! (a - base)%nat = Some r ∧ r_id r = k.
Proof.
  induction rows as [|r rows IH] using rev_ind; intros Hnd.
  - simpl. rewrite lookup_empty. split; [done|]. by intros (_ & r & ? & _).
  - rewrite fmap_app in Hnd. apply NoDup_app in Hnd as (Hnd & Hfresh & _).
    rewrite objects_snoc, foldl_app. simpl.
    destruct (decide (k = r_id r)) as [->|Hne].
    + rewrite lookup_insert_eq. split.
      * intros [= <-]. split; [lia|]. exists r. split; [|done].
        replace (base + length rows - base)%nat with (length rows) by lia.
        by rewrite lookup_app_r, Nat.sub_diag.
      * intros (Hle & r' & Hr' & Hid). f_equal.
        destruct (decide (a - base < length rows)%nat) as [Hlt|Hge].
        -- rewrite lookup_app_l in Hr' by done. exfalso.
           apply (Hfresh (r_id r')).
           ++ apply list_elem_of_fmap. exists r'. split; [done|].
              by eapply list_elem_of_lookup_2.
           ++ rewrite Hid. simpl. left.
        -- apply lookup_lt_Some in Hr'. rewrite length_app in Hr'. simpl in Hr'. lia.
    + rewrite lookup_insert_ne by done. rewrite IH by done. split.
      * intros (Hle & r' & Hr' & Hid). split; [done|]. exists r'. split; [|done].
        rewrite lookup_app_l; [done|]. by eapply lookup_lt_Some.
      * intros (Hle & r' & Hr' & Hid). split; [done|]. exists r'. split; [|done].
        destruct (decide (a - base < length rows)%nat) as [Hlt|Hge].
        -- by rewrite lookup_app_l in Hr'.
        -- rewrite lookup_app_r in Hr' by lia.
           destruct (a - base - length rows)%nat; simpl in Hr'; [|done].
           congruence.
Qed.

Lemma foldl_bind_None {A B} (f : A → B → option A) (l : list B) :
  foldl (λ st o, st ≫= λ s, f s o) None l = None.
Proof. induction l as [|x l IH]; [done|apply IH]. Qed.

Section push_loop.
Variable target : nat * row → option nat.

Lemma push_loop_spec (objs : list (nat * row)) (h0 : heap) :
  (∀ o t, o ∈ objs → target o = Some t → is_Some (h0 !! t)) →
  ∃ h, foldl (λ st o, st ≫= λ h, push_step target h o) (Some h0) objs = Some h
       ∧ ∀ t, h !! t
              = (λ kids, kids ++ (filter (λ o, target o = Some t) objs).*1)
                  <$> h0 !! t.
Proof.
  revert h0. induction objs as [|o objs IH]; intros h0 Hdom.
  - exists h0. split; [done|]. intros t. simpl.
    destruct (h0 !! t); simpl; [|done]. by rewrite app_nil_r.
  - simpl. unfold push_step at 2. destruct (target o) as [t0|] eqn:Ht0.
    + destruct (Hdom o t0) as [kids0 Hk0]; [left|done|].
      unfold push. rewrite Hk0. simpl.
      destruct (IH (<[t0:=kids0 ++ [o.1]]> h0)) as (h & Hh & Hspec).
      { intros o' t Ho' Ht. rewrite lookup_insert_is_Some'. right.
        apply (Hdom o'); [by right|done]. }
      exists h. split; [done|]. intros t. rewrite Hspec, filter_cons.
      destruct (decide (t = t0)) as [->|Hne].
      * rewrite lookup_insert_eq, Hk0, decide_True by done. simpl.
        by rewrite <-app_assoc.
      * rewrite lookup_insert_ne by done.
        rewrite decide_False by congruence. done.
    + destruct (IH h0) as (h & Hh & Hspec).
      { intros o' t Ho' Ht. apply (Hdom o'); [by right|done]. }
      exists h. split; [done|]. intros t. rewrite Hspec, filter_cons.
      rewrite decide_False by congruence. done.
Qed.
End push_loop.

Lemma attach_loop m objs tree0 h0 :
  foldl (λ st o, st ≫= λ s, attach_step m s o) (Some (tree0, h0)) objs
  = pair (tree0 ++ (filter (λ o, has_parent o.2 = false) objs).*1)
      <$> foldl (λ st o, st ≫= λ h, push_step (forest_target m) h o) (Some h0) objs.
Proof.
  revert tree0 h0. induction objs as [|o objs IH]; intros tree0 h0.
  - simpl. by rewrite app_nil_r.
  - simpl. unfold attach_step at 2, push_step at 2, forest_target at 2.
    rewrite filter_cons. destruct (has_parent o.2) eqn:Hp; simpl.
    + destruct (r_parent_id o.2 ≫= (m !!.)) as [t|]; simpl; [|apply IH].
      destruct (push h0 t o.1) as [h1|]; simpl; [apply IH|].
      by rewrite !foldl_bind_None.
    + rewrite IH. simpl. by rewrite <-app_assoc.
Qed.

Lemma rows_at_objects (rows : list row) (objs : list (nat * row)) :
  (∀ o, o ∈ objs → rows !! o.1 = Some o.2) →
  rows_at rows objs.*1 = objs.*2.
Proof.
  unfold rows_at. induction objs as [|o objs IH]; intros Hin; [done|].
  simpl. rewrite (Hin o) by left. simpl. f_equal.
  apply IH. intros o' Ho'. apply Hin. by right.
Qed.

Lemma filter_objects_snd (P : row → Prop) (Q : nat * row → Prop)
    `{!∀ r, Decision (P r), !∀ o, Decision (Q o)} base rows :
  (∀ o, Q o ↔ P o.2) →
  (filter Q (objects base rows)).*2 = filter P rows.
Proof.
  intros HQ. revert base. induction rows as [|r rows IH]; intros base; [done|].
  rewrite objects_cons, !filter_cons.
  destruct (decide (P r)) as [HP|HP].
  - rewrite decide_True by (by apply HQ). by rewrite fmap_cons, IH.
  - rewrite decide_False by (by rewrite HQ). apply IH.
Qed.

(** The rows behind the objects a filter keeps are the filtered rows. *)
Lemma rows_at_filter (P : row → Prop) `{!∀ r, Decision (P r)} pre rows :
  rows_at (pre ++ rows) (filter (λ o, P o.2) (objects (length pre) rows)).*1
  = filter P rows.
Proof.
  rewrite rows_at_objects.
  { by apply filter_objects_snd. }
  intros [a r] [_ Ho]%list_elem_of_filter. simpl.
  apply elem_of_objects in Ho as [Hle Hr].
  rewrite lookup_app_r by done. done.
Qed.

Lemma has_parent_true r :
  has_parent r = true ↔ ∃ k, r_parent_id r = Some k ∧ k ≠ 0.
Proof.
  unfold has_parent. destruct (r_parent_id r) as [k|]; simpl.
  - destruct (Z.eqb_spec k 0); simpl; split.
    + done.
    + intros (k' & [= <-] & ?). done.
    + eauto.
    + done.
  - split; [done|]. by intros (k & ? & _).
Qed.

Lemma buildUnlimited_heap (all : list row) :
  NoDup (r_id <$> all) →
  ∃ tree h,
    buildUnlimited all = Some (tree, h)
    ∧ rows_at all tree = filter (λ r, has_parent r = false) all
    ∧ (∀ a, is_Some (h !! a) → (a < length all)%nat)
    ∧ (∀ a p, all !! a = Some p →
         ∃ kids, h !! a = Some kids
           ∧ rows_at all kids
             = filter (λ r, has_parent r = true ∧ r_parent_id r = Some (r_id p)) all).
Proof.
  intros Hnd. unfold buildUnlimited.
  pose proof (index_heap 0 all) as Hheap.
  pose proof (λ k a, index_map 0 all k a Hnd) as Hmap.
  destruct (foldl index_step (∅, ∅) (objects 0 all)) as [h0 m]. simpl in *.
  rewrite attach_loop.
  destruct (push_loop_spec (forest_target m) (objects 0 all) h0) as (h & -> & Hspec).
  { intros [b r] t _. unfold forest_target. simpl.
    destruct (has_parent r); [|done].
    destruct (r_parent_id r) as [k|]; simpl; [|done].
    intros (_ & p & Hp & _)%Hmap. rewrite Hheap, decide_True; [done|].
    apply lookup_lt_Some in Hp. lia. }
  simpl. eexists _, h. split; [done|]. split_and!.
  - exact (rows_at_filter (λ r, has_parent r = false) [] all).
  - intros a [kids Hk]. rewrite Hspec, Hheap in Hk.
    case_decide; [lia|done].
  - intros a p Hp. rewrite Hspec, Hheap.
    rewrite decide_True by (apply lookup_lt_Some in Hp; lia). simpl.
    eexists. split; [done|].
    rewrite <-(rows_at_filter
      (λ r, has_parent r = true ∧ r_parent_id r = Some (r_id p)) [] all).
    change ([] ++ all) with all. change (length (@nil row)) with 0%nat.
    do 2 f_equal. apply list_filter_iff. intros [b r].
    unfold forest_target. simpl. split.
    + destruct (has_parent r); [|done]. split; [done|].
      revert H. destruct (r_parent_id r) as [k|]; simpl; [|done].
      intros (_ & p' & Hp' & Hid)%Hmap.
      rewrite Nat.sub_0_r in Hp'. congruence.
    + intros [-> ->]. simpl. apply Hmap. split; [lia|].
      exists p. by rewrite Nat.sub_0_r.
Qed.

Lemma filter_iff_on {A} (P1 P2 : A → Prop)
    `{!∀ x, Decision (P1 x), !∀ x, Decision (P2 x)} (l : list A) :
  (∀ x, x ∈ l → P1 x ↔ P2 x) → filter P1 l = filter P2 l.
Proof.
  induction l as [|x l IH]; intros Hiff; [done|].
  rewrite !filter_cons, IH by (intros y Hy; apply Hiff; by right).
  apply decide_ext, Hiff. left.
Qed.

(** C5: over the rows of a post (ids unique, as the primary key makes them,
    and never 0, as the sequence makes them) the unlimited builder succeeds;
    its roots are the comments without a parent, in input order; the
    [replies] of every comment are the comments that name it as parent, in
    input order; a comment whose parent is not among the rows is neither a
    root nor in any [replies]. *)
Theorem buildUnlimited_forest (all : list row) :
  NoDup (r_id <$> all) →
  (∀ r, r ∈ all → r_parent_id r ≠ Some 0) →
  ∃ tree h,
    buildUnlimited all = Some (tree, h)
    ∧ rows_at all tree = filter (λ r, r_parent_id r = None) all
    ∧ (∀ a p, all !! a = Some p →
         ∃ kids, h !! a = Some kids
           ∧ rows_at all kids = filter (λ r, r_parent_id r = Some (r_id p)) all)
    ∧ (∀ r k, r ∈ all → r_parent_id r = Some k → k ∉ (r_id <$> all) →
         (r ∉ rows_at all tree)
         ∧ ∀ a kids, h !! a = Some kids → r ∉ rows_at all kids).
Proof.
  intros Hnd Hnz.
  destruct (buildUnlimited_heap all Hnd) as (tree & h & Hbuild & Htree & Hdom & Hkids).
  assert (∀ r, r ∈ all → has_parent r = false ↔ r_parent_id r = None) as Hroot.
  { intros r Hr. specialize (Hnz r Hr). unfold has_parent.
    destruct (r_parent_id r) as [k|]; simpl; [|done].
    destruct (Z.eqb_spec k 0); simpl; [congruence|done]. }
  assert (rows_at all tree = filter (λ r, r_parent_id r = None) all) as Htree'.
  { rewrite Htree. by apply filter_iff_on. }
  assert (∀ a p, all !! a = Some p →
    ∃ kids, h !! a = Some kids
      ∧ rows_at all kids = filter (λ r, r_parent_id r = Some (r_id p)) all) as Hkids'.
  { intros a p Hp. destruct (Hkids a p Hp) as (kids & Hk & Hrows).
    exists kids. split; [done|]. rewrite Hrows. apply filter_iff_on.
    intros r Hr. split; [tauto|]. intros Hpar. split; [|done].
    apply has_parent_true. exists (r_id p). split; [done|].
    intros Hz. apply (Hnz r Hr). congruence. }
  exists tree, h. split_and!; [done..|].
  intros r k Hr Hpar Hk. split.
  - rewrite Htree'. intros [? _]%list_elem_of_filter. congruence.
  - intros a kids Ha Hin.
    destruct (lookup_lt_is_Some_2 all a) as [p Hp]; [apply Hdom; eauto|].
    destruct (Hkids' a p Hp) as (kids' & Ha' & Hrows).
    assert (kids' = kids) as -> by congruence.
    rewrite Hrows in Hin. apply list_elem_of_filter in Hin as [Hpar' _].
    apply Hk. apply list_elem_of_fmap. exists p. split; [congruence|].
    by eapply list_elem_of_lookup_2.
Qed.

Lemma thread_rows_ok :
  NoDup (r_id <$> thread) ∧ ∀ r, r ∈ thread → r_parent_id r ≠ Some 0.
Proof.
  split.
  - apply (bool_decide_unpack _). vm_compute. exact I.
  - apply Forall_forall. apply (bool_decide_unpack _). vm_compute. exact I.
Defined.

Lemma buildUnlimited_forest_witness :
  (NoDup (r_id <$> thread) ∧ ∀ r, r ∈ thread → r_parent_id r ≠ Some 0)
  ∧ ∃ tree h,
      buildUnlimited thread = Some (tree, h)
      ∧ tree = [0; 3]%nat
      ∧ h !! 0%nat = Some [1%nat] ∧ h !! 1%nat = Some [2%nat]
      ∧ rows_at thread tree = filter (λ r, r_parent_id r = None) thread.
Proof.
  split; [exact thread_rows_ok|].
  destruct (buildUnlimited_forest thread (proj1 thread_rows_ok) (proj2 thread_rows_ok))
    as (tree & h & Hbuild & Htree & _).
  exists tree, h. split; [exact Hbuild|].
  vm_compute in Hbuild. injection Hbuild as <- <-.
  split; [reflexivity|]. split; [reflexivity|]. split; [reflexivity|]. exact Htree.
Defined.

Lemma buildOneLevel_heap (topLevel replies : list row) :
  NoDup (r_id <$> topLevel) →
  ∃ h,
    buildOneLevel topLevel replies = Some (seq 0 (length topLevel), h)
    ∧ (∀ a, (length topLevel ≤ a)%nat → h !! a = None)
    ∧ (∀ a t, topLevel !! a = Some t →
         h !! a = Some (filter (λ o, r_parent_id o.2 = Some (r_id t))
                          (objects (length topLevel) replies)).*1).
Proof.
  intros Hnd. unfold buildOneLevel.
  pose proof (index_heap 0 topLevel) as Hheap.
  pose proof (λ k a, index_map 0 topLevel k a Hnd) as Hmap.
  destruct (foldl index_step (∅, ∅) (objects 0 topLevel)) as [h0 m]. simpl in *.
  destruct (push_loop_spec (λ o, r_parent_id o.2 ≫= (m !!.))
              (objects (length topLevel) replies) h0) as (h & Hh & Hspec).
  { intros [b r] t _. simpl.
    destruct (r_parent_id r) as [k|]; simpl; [|done].
    intros (_ & p & Hp & _)%Hmap. rewrite Hheap, decide_True; [done|].
    apply lookup_lt_Some in Hp. lia. }
  unfold push_step in Hh. unfold reply_step. rewrite Hh. simpl.
  exists h. rewrite objects_fst. split; [done|]. split.
  - intros a Ha. rewrite Hspec, Hheap. rewrite decide_False by lia. done.
  - intros a t Ht. rewrite Hspec, Hheap.
    rewrite decide_True by (apply lookup_lt_Some in Ht; lia). simpl.
    do 2 f_equal. apply list_filter_iff. intros [b r]. simpl. split.
    + destruct (r_parent_id r) as [k|]; simpl; [|done].
      intros (_ & t' & Ht' & Hid)%Hmap.
      rewrite Nat.sub_0_r in Ht'. congruence.
    + intros ->. simpl. apply Hmap. split; [lia|].
      exists t. by rewrite Nat.sub_0_r.
Qed.

Lemma mapM_objects {B} (g : nat → option B) (f : row → B) (objs : list (nat * row)) :
  (∀ o, o ∈ objs → g o.1 = Some (f o.2)) →
  mapM g objs.*1 = Some (f <$> objs.*2).
Proof.
  induction objs as [|o objs IH]; intros Hg; [done|].
  rewrite !fmap_cons. cbn [mapM]. rewrite (Hg o) by left.
  rewrite IH by (intros o' Ho'; apply Hg; by right). done.
Qed.

Lemma depth_leaves (l : list row) :
  (foldr Nat.max O ((λ k, S (depth k)) <$> (leaf <$> l)) ≤ 1)%nat.
Proof.
  induction l as [|r l IH]; [simpl; lia|].
  rewrite !fmap_cons. simpl. apply Nat.max_lub; [done|exact IH].
Qed.

Lemma depth_one_level replies t : (depth (one_level replies t) ≤ 1)%nat.
Proof. apply depth_leaves. Qed.

Lemma render_one_level (topLevel replies : list row) (h : heap) fuel a t :
  (∀ a, (length topLevel ≤ a)%nat → h !! a = None) →
  topLevel !! a = Some t →
  h !! a = Some (filter (λ o, r_parent_id o.2 = Some (r_id t))
                   (objects (length topLevel) replies)).*1 →
  render (S (S fuel)) (topLevel ++ replies) h a = Some (one_level replies t).
Proof.
  intros Hnone Ht Hkids. cbn [render].
  rewrite (lookup_app_l_Some _ _ _ _ Ht). simpl. rewrite Hkids.
  rewrite (mapM_objects _ leaf).
  - assert ((filter (λ o : nat * row, r_parent_id o.2 = Some (r_id t))
               (objects (length topLevel) replies)).*2
            = filter (λ r, r_parent_id r = Some (r_id t)) replies) as ->
      by (by apply filter_objects_snd).
    done.
  - intros [b r] [_ Ho]%list_elem_of_filter. simpl.
    apply elem_of_objects in Ho as [Hle Hr].
    rewrite lookup_app_r, Hr by done. simpl. by rewrite Hnone.
Qed.

(** C6: over top-level rows with unique ids the one-level builder succeeds
    and what is written back is, for every top-level comment in input order,
    that comment with the replies that name it as parent, in the input order
    of the replies, each without a [replies] of its own: nesting is at most
    one level deep, and a reply whose parent id is not a top-level id is in
    no [replies]. *)
Theorem buildOneLevel_thread (topLevel replies : list row) (fuel : nat) :
  NoDup (r_id <$> topLevel) →
  (2 ≤ fuel)%nat →
  ∃ out h nodes,
    buildOneLevel topLevel replies = Some (out, h)
    ∧ mapM (render fuel (topLevel ++ replies) h) out = Some nodes
    ∧ node_row <$> nodes = topLevel
    ∧ (∀ i t n, topLevel !! i = Some t → nodes !! i = Some n →
         n = Node t (Some ((λ r, Node r None)
                <$> filter (λ r, r_parent_id r = Some (r_id t)) replies)))
    ∧ Forall (λ n, (depth n ≤ 1)%nat) nodes
    ∧ (∀ r n, r ∈ replies → r_parent_id r ∉ (Some ∘ r_id <$> topLevel) →
         n ∈ nodes → r ∉ (node_row <$> node_replies n)).
Proof.
  intros Hnd Hfuel.
  destruct (buildOneLevel_heap topLevel replies Hnd) as (h & Hbuild & Hnone & Hkids).
  destruct fuel as [|[|fuel]]; [lia..|].
  exists (seq 0 (length topLevel)), h, (one_level replies <$> topLevel).
  split; [done|]. split_and!.
  - rewrite <-(objects_fst 0 topLevel).
    replace (one_level replies <$> topLevel)
      with (one_level replies <$> (objects 0 topLevel).*2)
      by (by rewrite objects_snd).
    apply mapM_objects. intros [a t] [_ Ht]%elem_of_objects. simpl.
    rewrite Nat.sub_0_r in Ht.
    apply render_one_level; [done..|]. by apply Hkids.
  - rewrite <-list_fmap_compose. by rewrite <-(list_fmap_id topLevel) at 2.
  - intros i t n Ht Hn. rewrite list_lookup_fmap, Ht in Hn. by injection Hn as <-.
  - apply Forall_fmap, Forall_forall. intros t _. apply depth_one_level.
  - intros r n Hr Hpar [t [-> Ht]]%list_elem_of_fmap.
    unfold one_level. simpl. rewrite <-list_fmap_compose.
    intros [r' [-> [Hr' _]%list_elem_of_filter]]%list_elem_of_fmap.
    apply Hpar. apply list_elem_of_fmap. exists t. by split.
Qed.

Lemma buildOneLevel_thread_witness :
  NoDup (r_id <$> page) ∧ (2 ≤ 2)%nat
  ∧ ∃ out h nodes,
      buildOneLevel page page_replies = Some (out, h)
      ∧ mapM (render 2 (page ++ page_replies) h) out = Some nodes
      ∧ node_row <$> nodes = page
      ∧ ((λ n, r_id <$> (node_row <$> node_replies n)) <$> nodes) = [[2; 6]; []].
Proof.
  assert (NoDup (r_id <$> page)) as Hnd
    by (apply (bool_decide_unpack _); vm_compute; exact I).
  split; [exact Hnd|]. split; [apply le_n|].
  destruct (buildOneLevel_thread page page_replies 2 Hnd (le_n 2))
    as (out & h & nodes & Hbuild & Hrender & Hrows & _).
  exists out, h, nodes. split; [exact Hbuild|]. split; [exact Hrender|].
  split; [exact Hrows|].
  vm_compute in Hbuild. injection Hbuild as <- <-.
  vm_compute in Hrender. injection Hrender as <-. reflexivity.
Defined.

(** ** Recursive delete, proofs *)

Lemma elem_of_cte_step cs work x :
  x ∈ cte_step cs work
  ↔ ∃ c p, c ∈ cs ∧ c_parent_id c = Some p ∧ p ∈ work ∧ c_id c = x.
Proof.
  unfold cte_step. rewrite list_elem_of_bind. split.
  - intros (c & Hx & Hc). apply list_elem_of_bind in Hx as (p & Hx & Hp).
    case_decide; [|by apply elem_of_nil in Hx].
    apply list_elem_of_singleton in Hx. eauto 10.
  - intros (c & p & Hc & Hpar & Hp & <-). exists c. split; [|done].
    apply list_elem_of_bind. exists p. split; [|done].
    rewrite decide_True by done. left.
Qed.

Lemma cte_rounds_nil fuel cs : cte_rounds fuel cs [] = Some [].
Proof. by destruct fuel. Qed.

Lemma cte_rounds_cons fuel cs x work :
  cte_rounds (S fuel) cs (x :: work)
  = ((x :: work) ++.) <$> cte_rounds fuel cs (cte_step cs (x :: work)).
Proof. done. Qed.

(** More fuel does not change a finished query. *)
Lemma cte_rounds_mono fuel fuel' cs work ids :
  (fuel ≤ fuel')%nat →
  cte_rounds fuel cs work = Some ids → cte_rounds fuel' cs work = Some ids.
Proof.
  revert fuel' work ids. induction fuel as [|fuel IH]; intros fuel' work ids Hle.
  - destruct work; [|done]. intros [= <-]. apply cte_rounds_nil.
  - destruct work as [|x work]; [intros [= <-]; apply cte_rounds_nil|].
    destruct fuel' as [|fuel']; [lia|]. rewrite !cte_rounds_cons.
    destruct (cte_rounds fuel cs _) as [ids'|] eqn:Hids; [|done].
    intros [= <-]. rewrite (IH fuel' _ ids') by (done || lia). done.
Qed.

(** Every id the query collects is in the subtree. *)
Lemma cte_rounds_sound fuel cs root work ids :
  (∀ x, x ∈ work → in_subtree cs root x) →
  cte_rounds fuel cs work = Some ids →
  ∀ x, x ∈ ids → in_subtree cs root x.
Proof.
  revert work ids. induction fuel as [|fuel IH]; intros work ids Hwork.
  - destruct work; [|done]. intros [= <-] x Hx. by apply elem_of_nil in Hx.
  - destruct work as [|y work].
    { intros [= <-] x Hx. by apply elem_of_nil in Hx. }
    rewrite cte_rounds_cons.
    destruct (cte_rounds fuel cs _) as [ids'|] eqn:Hids; [|done].
    intros [= <-] x. rewrite (app_comm_cons work ids' y).
    intros [Hx|Hx]%elem_of_app; [by apply Hwork|].
    eapply IH; [|done..]. intros z (c & p & Hc & Hpar & Hp & <-)%elem_of_cte_step.
    eapply subtree_child; eauto.
Qed.

(** The collected ids hold the working table and are closed under
    children. *)
Lemma cte_rounds_closed fuel cs work ids :
  cte_rounds fuel cs work = Some ids →
  (∀ x, x ∈ work → x ∈ ids)
  ∧ (∀ c p, c ∈ cs → c_parent_id c = Some p → p ∈ ids → c_id c ∈ ids).
Proof.
  revert work ids. induction fuel as [|fuel IH]; intros work ids.
  - destruct work; [|done]. intros [= <-]. split; [done|].
    intros c p _ _ Hp. by apply elem_of_nil in Hp.
  - destruct work as [|y work].
    { intros [= <-]. split; [done|]. intros c p _ _ Hp. by apply elem_of_nil in Hp. }
    rewrite cte_rounds_cons.
    destruct (cte_rounds fuel cs _) as [ids'|] eqn:Hids; [|done].
    intros [= <-]. destruct (IH _ _ Hids) as [Hsub Hclosed].
    rewrite (app_comm_cons work ids' y). split.
    + intros x Hx. apply elem_of_app. by left.
    + intros c p Hc Hpar Hp. apply elem_of_app. right.
      apply elem_of_app in Hp as [Hp|Hp]; [|by eapply Hclosed].
      apply Hsub, elem_of_cte_step. eauto 10.
Qed.

Lemma to_delete_subtree fuel cs id ids :
  to_delete fuel cs id = Some ids →
  ∀ x, x ∈ ids ↔ in_subtree cs id x.
Proof.
  unfold to_delete. intros Hids x. split.
  - revert x. eapply cte_rounds_sound; [|done].
    intros x (c & -> & [Hid Hc]%list_elem_of_filter)%list_elem_of_fmap.
    rewrite Hid. by eapply subtree_root.
  - destruct (cte_rounds_closed _ _ _ _ Hids) as [Hsub Hclosed].
    induction 1 as [c Hc Hid|c p Hc Hpar _ IH].
    + apply Hsub. apply list_elem_of_fmap. exists c. split; [done|].
      by apply list_elem_of_filter.
    + by eapply Hclosed.
Qed.

(** With ranks below [bound], the query is over after [bound] rounds. *)
Lemma cte_rounds_finishes (rank : Z → nat) cs (bound : nat) :
  ranked rank cs →
  (∀ c, c ∈ cs → (rank (c_id c) < bound)%nat) →
  ∀ n lb work,
    (bound ≤ lb + n)%nat →
    (∀ x, x ∈ work → (lb ≤ rank x)%nat) →
    is_Some (cte_rounds (S n) cs work).
Proof.
  intros Hrank Hbound.
  assert (∀ lb work, (∀ x, x ∈ work → (lb ≤ rank x)%nat) →
    ∀ x, x ∈ cte_step cs work → (S lb ≤ rank x < bound)%nat) as Hstep.
  { intros lb work Hwork x (c & p & Hc & Hpar & Hp & <-)%elem_of_cte_step.
    specialize (Hrank c p Hc Hpar). specialize (Hwork p Hp).
    specialize (Hbound c Hc). lia. }
  induction n as [|n IH]; intros lb work Hle Hwork.
  - destruct work as [|y work]; [by eexists|]. rewrite cte_rounds_cons.
    destruct (cte_step cs (y :: work)) as [|z zs] eqn:Hz; [by eexists|].
    specialize (Hstep lb (y :: work) Hwork z). rewrite Hz in Hstep.
    specialize (Hstep ltac:(left)). lia.
  - destruct work as [|y work]; [by eexists|]. rewrite cte_rounds_cons.
    destruct (IH (S lb) (cte_step cs (y :: work))) as [ids Hids]; [lia| |].
    + intros x Hx. by apply (Hstep lb (y :: work) Hwork x).
    + rewrite Hids. by eexists.
Qed.

Lemma filter_all {A} (P : A → Prop) `{!∀ x, Decision (P x)} (l : list A) :
  (∀ x, x ∈ l → P x) → filter P l = l.
Proof.
  induction l as [|x l IH]; intros HP; [done|].
  rewrite filter_cons, decide_True by (apply HP; left).
  rewrite IH; [done|]. intros y Hy. apply HP. by right.
Qed.

Lemma filter_none {A} (P : A → Prop) `{!∀ x, Decision (P x)} (l : list A) :
  (∀ x, x ∈ l → ¬ P x) → filter P l = [].
Proof.
  induction l as [|x l IH]; intros HP; [done|].
  rewrite filter_cons, decide_False by (apply HP; left).
  apply IH. intros y Hy. apply HP. by right.
Qed.

Lemma cascade_nothing fuel gone cs :
  (∀ c, c ∈ cs → ¬ child_of_any gone c) → cascade fuel gone cs = cs.
Proof.
  intros Hno. destruct fuel as [|fuel]; [done|]. simpl.
  by rewrite (filter_none (child_of_any gone) cs Hno).
Qed.

(** Deleting a set of ids that is closed under children removes the rows
    with these ids and cascades to no other comment. *)
Lemma delete_comments_closed ids d :
  (∀ c p, c ∈ comments d → c_parent_id c = Some p → p ∈ ids → c_id c ∈ ids) →
  comments (delete_comments ids d) = filter (λ c, c_id c ∉ ids) (comments d).
Proof.
  intros Hclosed. unfold delete_comments. simpl. apply cascade_nothing.
  intros c [Hc Hin]%list_elem_of_filter. unfold child_of_any.
  destruct (c_parent_id c) as [p|] eqn:Hpar; simpl; [|tauto].
  intros (c' & -> & [Hp _]%list_elem_of_filter)%list_elem_of_fmap.
  apply Hc. by eapply Hclosed.
Qed.

Lemma delete_comments_nil d : delete_comments [] d = d.
Proof.
  unfold delete_comments.
  rewrite (filter_none (λ c, c_id c ∈ []) (comments d))
    by (intros c _ Hc; by apply elem_of_nil in Hc).
  rewrite (filter_all (λ c, c_id c ∉ []) (comments d))
    by (intros c _ Hc; by apply elem_of_nil in Hc).
  rewrite cascade_nothing.
  2:{ intros c _. unfold child_of_any. destruct (c_parent_id c); simpl; [|tauto].
      intros Hp. by apply elem_of_nil in Hp. }
  rewrite filter_all.
  2:{ intros l _. destruct (decide (Exists (λ c, c_id c = l_comment_id l) (comments d)));
        tauto. }
  by destruct d.
Qed.

Lemma delete_comment_missing fuel id d :
  ¬ Exists (λ c, c_id c = id) (comments d) →
  delete_comment fuel id d = Some (Status 204, d).
Proof.
  intros Hno. unfold delete_comment, to_delete.
  rewrite (filter_none (λ c, c_id c = id) (comments d)).
  - simpl. rewrite cte_rounds_nil. simpl. by rewrite delete_comments_nil.
  - intros c Hc Hid. apply Hno, Exists_exists. eauto.
Qed.

Lemma cte_rounds_cycle fuel cs work c :
  c ∈ cs → c_parent_id c = Some (c_id c) → c_id c ∈ work →
  cte_rounds fuel cs work = None.
Proof.
  intros Hc Hpar. revert work. induction fuel as [|fuel IH]; intros work Hin.
  - destruct work; [by apply elem_of_nil in Hin|done].
  - destruct work as [|y work]; [by apply elem_of_nil in Hin|].
    rewrite cte_rounds_cons, IH; [done|].
    apply elem_of_cte_step. eauto 10.
Qed.

(** * Further properties of the routes *)

(** ** Likes: counts and errors *)

Section toggle_count.
Context {A : Type} `{EqDecision A}.
Implicit Types (likes : list A) (u : A).

Lemma toggle_NoDup likes u : NoDup likes → NoDup (toggle likes u).
Proof.
  intros Hnd. unfold toggle. case_decide as Hin.
  - by apply NoDup_filter.
  - apply NoDup_app. split; [done|]. split; [|apply NoDup_singleton].
    intros x Hx ->%list_elem_of_singleton. done.
Qed.

Lemma length_filter_out likes u :
  NoDup likes → u ∈ likes →
  S (length (filter (λ uid, uid ≠ u) likes)) = length likes.
Proof.
  induction 1 as [|x l Hx Hnd IH]; intros Hin; [by apply elem_of_nil in Hin|].
  rewrite filter_cons. destruct (decide (x = u)) as [->|Hne].
  - rewrite decide_False by tauto. simpl. f_equal.
    rewrite filter_all; [done|]. intros y Hy ->. done.
  - rewrite decide_True by done. simpl. f_equal. apply IH.
    apply elem_of_cons in Hin as [->|Hin]; [done|exact Hin].
Qed.

Lemma toggle_length likes u :
  NoDup likes →
  length (toggle likes u)
  = if decide (u ∈ likes) then pred (length likes) else S (length likes).
Proof.
  intros Hnd. unfold toggle. case_decide as Hin.
  - by rewrite <-(length_filter_out likes u Hnd Hin).
  - rewrite length_app. simpl. lia.
Qed.
End toggle_count.

(** X1. A like array without duplicates stays without duplicates under
    [PUT /api/posts/:id/like], and on an existing post its length moves by
    exactly one: down when the user was in it, up when not. *)
Theorem post_like_count (d : db) (id : Z) (u : string) :
  NoDup (post_likes d id) →
  NoDup (post_likes (put_post_like id u d).2 id)
  ∧ (Exists (λ p, p_id p = id) (posts d) →
     length (post_likes (put_post_like id u d).2 id)
     = if decide (u ∈ post_likes d id)
       then pred (length (post_likes d id)) else S (length (post_likes d id))).
Proof.
  intros Hnd. split.
  - destruct (decide (Exists (λ p, p_id p = id) (posts d))) as [Hex|Hex].
    + rewrite post_likes_put_same by done. by apply toggle_NoDup.
    + by rewrite put_post_like_missing.
  - intros Hex. rewrite post_likes_put_same by done. by apply toggle_length.
Qed.

Lemma post_like_count_witness :
  NoDup (post_likes demo_db 1)
  ∧ length (post_likes (put_post_like 1 "u2" demo_db).2 1) = 1%nat
  ∧ length (post_likes (put_post_like 1 "u9" demo_db).2 1) = 3%nat.
Proof.
  assert (NoDup (post_likes demo_db 1)) as Hnd
    by (apply (bool_decide_unpack _); vm_compute; exact I).
  assert (Exists (λ p, p_id p = 1) (posts demo_db)) as Hex
    by (apply (bool_decide_unpack _); vm_compute; exact I).
  split; [exact Hnd|]. split.
  - exact (proj2 (post_like_count demo_db 1 "u2" Hnd) Hex).
  - exact (proj2 (post_like_count demo_db 1 "u9" Hnd) Hex).
Defined.

(** X2. [PUT /api/comments/:id/like] on a store whose likes refer to stored
    comments: for a stored comment the answer is that comment with its
    likes after the toggle; for an id no comment carries the insert is
    rejected by the foreign key, the handler throws (no 404) and no like
    row is written. *)
Theorem comment_like_answer (d : db) (id : Z) (u : string) :
  likes_fk d →
  (∀ c, head (filter (λ c, c_id c = id) (comments d)) = Some c →
     (put_comment_like id u d).1
     = Json (Some (c, likes_of (put_comment_like id u d).2 id)))
  ∧ (¬ Exists (λ c, c_id c = id) (comments d) →
     (put_comment_like id u d).1 = Threw
     ∧ comment_likes (put_comment_like id u d).2 = comment_likes d).
Proof.
  intros Hfk. split.
  - intros c Hc.
    assert (Exists (λ c, c_id c = id) (comments d)) as Hex.
    { destruct (filter (λ c, c_id c = id) (comments d)) as [|c' cs] eqn:Hf;
        [done|]. apply filter_cons_inv in Hf as [? ?].
      apply Exists_exists. eauto. }
    unfold put_comment_like, insert_like.
    destruct (filter (same_pair id u) (comment_likes d)) as [|l ls]; simpl.
    + rewrite decide_True by done. case_decide; simpl; by rewrite Hc.
    + by rewrite Hc.
  - intros Hno.
    assert (filter (same_pair id u) (comment_likes d) = []) as Hnone.
    { apply filter_none. intros l Hl [Hid _].
      destruct (Hfk l Hl) as (c & Hc & Hcid). apply Hno, Exists_exists.
      exists c. split; [done|congruence]. }
    unfold put_comment_like, insert_like. rewrite Hnone.
    by rewrite decide_False.
Qed.

Lemma comment_like_answer_witness :
  likes_fk demo_db
  ∧ (put_comment_like 7 "u2" demo_db).1 = Threw
  ∧ (put_comment_like 2 "u9" demo_db).1 = Json (Some (demo_reply, ["u9"%string])).
Proof.
  split; [exact demo_db_likes_fk|]. split.
  - refine (proj1 (proj2 (comment_like_answer demo_db 7 "u2" demo_db_likes_fk) _)).
    apply (bool_decide_unpack _); vm_compute; exact I.
  - exact (proj1 (comment_like_answer demo_db 2 "u9" demo_db_likes_fk)
             demo_reply eq_refl).
Defined.

(** ** Notifications of a request *)

(** Who a derived recipient is. *)
Lemma deriveRecipient_Some b d u t :
  deriveRecipient b d = Some (u, t) →
  u ≠ EmptyString ∧ Value u ≠ userid b
  ∧ (if truthy_int (parent_id b)
     then t = TReply
          ∧ ∃ c, c ∈ comments d ∧ Some (c_id c) = to_sql (parent_id b)
                 ∧ c_userid c = Some u
     else t = TComment
          ∧ ∃ p, p ∈ posts d ∧ Some (p_id p) = to_sql (postid b)
                 ∧ p_user_id p = Some u).
Proof.
  unfold deriveRecipient, notify_target.
  assert (∀ (author : option string) (t' : ntype),
    (let '(n, t'') := if strict_ne (of_sql author) (userid b)
                      then (of_sql author, t') else (Null, TComment) in
     match n with
     | Value u' => if truthy_str (Value u') then Some (u', t'') else None
     | _ => None
     end) = Some (u, t) →
    u ≠ EmptyString ∧ Value u ≠ userid b ∧ t = t' ∧ author = Some u) as Hauthor.
  { intros author t'. destruct author as [a|]; unfold of_sql;
      [|destruct (strict_ne Null (userid b)); simpl; discriminate].
    destruct (strict_ne (Value a) (userid b)) eqn:Hne; [|simpl; discriminate].
    pose proof (truthy_str_Value a) as Ha. simpl in Ha. simpl.
    destruct (negb (a =? EmptyString)%string); [|discriminate].
    intros [= <- <-]. split; [by apply Ha|]. split; [|done].
    intros Heq. rewrite <-Heq in Hne. simpl in Hne.
    by rewrite bool_decide_false in Hne by tauto. }
  destruct (truthy_int (parent_id b)).
  - destruct (filter _ (comments d)) as [|c cs] eqn:Hf; [done|].
    intros (Hu & Hne & -> & Hc)%Hauthor. split; [done|]. split; [done|].
    split; [done|]. apply filter_cons_inv in Hf as [? ?]. eauto.
  - destruct (filter _ (posts d)) as [|p ps] eqn:Hf; [done|].
    intros (Hu & Hne & -> & Hp)%Hauthor. split; [done|]. split; [done|].
    split; [done|]. apply filter_cons_inv in Hf as [? ?]. eauto.
Qed.

(** What a request can do to [notifications], whatever fails on the way. *)
Lemma createComment_appends out b d :
  notifications (createComment out b d).2 = notifications d
  ∨ ∃ c d1 u t k,
      insert_comment b d = (Some c, d1) ∧ deriveRecipient b d1 = Some (u, t)
      ∧ to_sql (postid b) = Some k
      ∧ notifications (createComment out b d).2
        = notifications d ++ [Notification (notifications_seq d) u t k (c_id c)].
Proof.
  unfold createComment. destruct (out 0%nat); [by left|].
  destruct (insert_comment b d) as [[c|] d1] eqn:Hins.
  2:{ left. unfold insert_comment in Hins.
      destruct (to_sql (content b)); [case_decide|]; by simplify_eq. }
  pose proof (insert_comment_Some _ _ _ _ Hins) as (-> & _).
  destruct (out 1%nat); [by left|].
  destruct (deriveRecipient b _) as [[u t]|] eqn:Hrec; [|by left].
  destruct (out 2%nat); [by left|].
  unfold insert_notification. destruct (to_sql (postid b)) as [k|] eqn:Hk; [|by left].
  right. by eexists c, _, u, t, k.
Qed.

(** X3. A request to [POST /api/comments] leaves the stored notifications in
    place and adds at most one, whatever fails on the way. The one it adds
    goes to a user who is not the commenter and has a non-empty id: the
    author of the parent comment (type "reply") when the body has a truthy
    [parent_id], the author of the post (type "comment") otherwise; it
    carries the post id of the body and the id of the new comment. *)
Theorem createComment_notifies (out : outage) (b : comment_body) (d : db) :
  let d' := (createComment out b d).2 in
  notifications d' = notifications d
  ∨ ∃ n, notifications d' = notifications d ++ [n]
      ∧ n_user_id n ≠ EmptyString
      ∧ Value (n_user_id n) ≠ userid b
      ∧ to_sql (postid b) = Some (n_post_id n)
      ∧ n_comment_id n = comments_seq d
      ∧ (if truthy_int (parent_id b)
         then n_type n = TReply
              ∧ ∃ c, c ∈ comments d' ∧ Some (c_id c) = to_sql (parent_id b)
                     ∧ c_userid c = Some (n_user_id n)
         else n_type n = TComment
              ∧ ∃ p, p ∈ posts d' ∧ Some (p_id p) = to_sql (postid b)
                     ∧ p_user_id p = Some (n_user_id n)).
Proof.
  intros d'. subst d'.
  destruct (createComment_appends out b d)
    as [Hsame|(c & d1 & u & t & k & Hins & Hrec & Hk & Hnew)]; [by left|].
  right. eexists. split; [exact Hnew|]. simpl.
  apply deriveRecipient_Some in Hrec as (Hu & Hne & Hwho).
  pose proof (insert_comment_Some _ _ _ _ Hins) as (Hd1 & Hid & _).
  split; [done|]. split; [done|]. split; [done|]. split; [done|].
  assert (comments (createComment out b d).2 = comments d1
          ∧ posts (createComment out b d).2 = posts d1) as [-> ->].
  { revert Hnew. unfold createComment. rewrite Hins.
    destruct (out 0%nat); [intros Hnew; exfalso|].
    { apply (f_equal length) in Hnew. rewrite length_app in Hnew. simpl in Hnew. lia. }
    destruct (out 1%nat); [by subst d1|].
    destruct (deriveRecipient b d1) as [[u' t']|]; [|by subst d1].
    destruct (out 2%nat); [by subst d1|].
    destruct (insert_notification _ _ _ _ _) as [d2|] eqn:Hn; [|by subst d1].
    unfold insert_notification in Hn. destruct (to_sql (postid b)); [|done].
    by injection Hn as <-. }
  done.
Qed.

(** X4. After a request to [POST /api/comments], the notification list of the
    commenter is what it was; the list of any other user is what it was,
    or has one new entry in front of it, for the new comment. *)
Theorem createComment_then_notifications (out : outage) (b : comment_body)
    (d : db) (v : string) :
  let d' := (createComment out b d).2 in
  (userid b = Value v → get_notifications v d' = get_notifications v d)
  ∧ (get_notifications v d' = get_notifications v d
     ∨ ∃ n, get_notifications v d' = n :: get_notifications v d
            ∧ n_user_id n = v ∧ n_comment_id n = comments_seq d).
Proof.
  intros d'. subst d'.
  destruct (createComment_appends out b d)
    as [Hsame|(c & d1 & u & t & k & Hins & Hrec & Hk & Hnew)].
  - unfold get_notifications. rewrite Hsame. split; [done|by left].
  - apply deriveRecipient_Some in Hrec as (_ & Hne & _).
    pose proof (insert_comment_Some _ _ _ _ Hins) as (_ & Hid & _).
    unfold get_notifications. rewrite Hnew.
    rewrite filter_app, reverse_app, filter_cons, filter_nil. simpl.
    destruct (decide (u = v)) as [Hv|Hv]; simpl.
    + split; [intros Hb; congruence|]. right. eauto.
    + split; [done|by left].
Qed.

(** ** Paginated thread *)

Lemma r_id_with_likes d (cs : list comment) : r_id <$> (with_likes d <$> cs) = c_id <$> cs.
Proof. by rewrite <-list_fmap_compose. Qed.

Lemma filter_with_likes (P : comment → Prop) (Q : row → Prop)
    `{!∀ c, Decision (P c), !∀ r, Decision (Q r)} d (cs : list comment) :
  (∀ c, Q (with_likes d c) ↔ P c) →
  filter Q (with_likes d <$> cs) = with_likes d <$> filter P cs.
Proof.
  intros HQ. induction cs as [|c cs IH]; [done|].
  rewrite fmap_cons, !filter_cons, IH.
  destruct (decide (P c)) as [HP|HP].
  - by rewrite decide_True by (by apply HQ).
  - by rewrite decide_False by (by rewrite HQ).
Qed.

Lemma NoDup_sublist_ids d (rows : list row) :
  NoDup (c_id <$> comments d) → rows `sublist_of` all_rows d →
  NoDup (r_id <$> rows).
Proof.
  intros Hnd Hsub. apply (sublist_NoDup _ (r_id <$> all_rows d)).
  - unfold all_rows. by rewrite r_id_with_likes.
  - by apply fmap_sublist.
Qed.

Lemma top_level_sublist postId d : top_level postId d `sublist_of` all_rows d.
Proof. apply fmap_sublist, sublist_filter. Qed.

(** The replies the second query brings for a comment of the page. *)
Lemma reply_query_children d (top : list row) t :
  t ∈ top →
  filter (λ r, r_parent_id r = Some (r_id t)) (reply_query (r_id <$> top) d)
  = filter (λ r, r_parent_id r = Some (r_id t)) (all_rows d).
Proof.
  intros Ht. unfold reply_query, all_rows.
  rewrite !(filter_with_likes (λ c, c_parent_id c = Some (r_id t))
              (λ r, r_parent_id r = Some (r_id t))) by done.
  f_equal. rewrite list_filter_filter. apply list_filter_iff. intros c.
  split; [tauto|]. intros Hc. split; [done|].
  unfold child_of_any. rewrite Hc. simpl.
  apply list_elem_of_fmap. by exists t.
Qed.

(** What the handler answers for a page that the first query returns. *)
Lemma get_thread_page postId limit offset d top :
  NoDup (c_id <$> comments d) →
  top_level_query postId (limit_number limit) (offset_number offset) d = Some top →
  get_thread postId limit offset d = Json (one_level (all_rows d) <$> top).
Proof.
  intros Hnd Htop. unfold get_thread. rewrite Htop.
  assert (top `sublist_of` all_rows d) as Hsub.
  { unfold top_level_query in Htop.
    destruct (row_count (limit_number limit)) as [n|]; [|done].
    destruct (row_count (offset_number offset)) as [k|]; [|done].
    injection Htop as <-.
    etrans; [apply sublist_take|]. etrans; [apply sublist_drop|].
    apply top_level_sublist. }
  cbv beta iota zeta.
  destruct (decide (top = [])) as [->|Hne]; [done|].
  remember (reply_query (r_id <$> top) d) as replies eqn:Hrep.
  assert (match top with [] => [] | _ :: _ => replies end = replies) as ->
    by (by destruct top).
  destruct (buildOneLevel_heap top replies) as (h & Hbuild & Hnone & Hkids).
  { by eapply NoDup_sublist_ids. }
  rewrite Hbuild. unfold res_json.
  change (Some (seq 0 (length top), h) ≫= _)
    with (mapM (render (S (length (top ++ replies))) (top ++ replies) h)
            (seq 0 (length top))).
  rewrite <-(objects_fst 0 top).
  rewrite (mapM_objects _ (one_level replies)).
  - rewrite objects_snd. f_equal.
    apply list_fmap_ext. intros i t Ht. unfold one_level. do 3 f_equal.
    rewrite Hrep. apply reply_query_children. by eapply list_elem_of_lookup_2.
  - intros [a t] [_ Ht]%elem_of_objects. simpl. rewrite Nat.sub_0_r in Ht.
    assert (∃ f, length (top ++ replies) = S f) as [f ->].
    { destruct top; [done|]. simpl. eexists. reflexivity. }
    apply render_one_level; [done..|]. by apply Hkids.
Qed.

Lemma row_count_Some n : 0 ≤ n < 2 ^ 63 → row_count n = Some (Z.to_nat n).
Proof. intros Hn. unfold row_count. by rewrite decide_True. Qed.

Lemma row_count_None n : n < 0 ∨ 2 ^ 63 ≤ n → row_count n = None.
Proof. intros Hn. unfold row_count. rewrite decide_False; [done|lia]. Qed.

Lemma node_row_fmap (below : row → option (list node)) (rows : list row) :
  node_row <$> ((λ t, Node t (below t)) <$> rows) = rows.
Proof. induction rows as [|r rows IH]; [done|]. by rewrite !fmap_cons, IH. Qed.

(** Parameters that [LIMIT] or [OFFSET] rejects make the handler throw. *)
Lemma get_thread_rejects postId limit offset d :
  limit_number limit < 0 ∨ 2 ^ 63 ≤ limit_number limit
  ∨ offset_number offset < 0 ∨ 2 ^ 63 ≤ offset_number offset →
  get_thread postId limit offset d = Threw.
Proof.
  intros Hbad. unfold get_thread, top_level_query.
  destruct (row_count (limit_number limit)) as [n|] eqn:Hn; [|done].
  rewrite row_count_None; [done|].
  destruct Hbad as [?|[?|Hbad]]; [|..|exact Hbad];
    rewrite row_count_None in Hn by auto; done.
Qed.

(** The page for parameters that the query accepts. *)
Lemma get_thread_accepts postId limit offset d :
  NoDup (c_id <$> comments d) →
  0 ≤ limit_number limit < 2 ^ 63 → 0 ≤ offset_number offset < 2 ^ 63 →
  get_thread postId limit offset d
  = Json (one_level (all_rows d)
          <$> take (Z.to_nat (limit_number limit))
                (drop (Z.to_nat (offset_number offset)) (top_level postId d))).
Proof.
  intros Hnd Hl Ho. apply get_thread_page; [done|].
  unfold top_level_query. by rewrite !row_count_Some.
Qed.

(** An answered request had parameters that the query accepts. *)
Lemma get_thread_answered postId limit offset d page :
  get_thread postId limit offset d = Json page →
  0 ≤ limit_number limit < 2 ^ 63 ∧ 0 ≤ offset_number offset < 2 ^ 63.
Proof.
  intros Hpage.
  destruct (decide (0 ≤ limit_number limit < 2 ^ 63
                    ∧ 0 ≤ offset_number offset < 2 ^ 63)) as [|Hno]; [done|].
  rewrite get_thread_rejects in Hpage by lia. done.
Qed.

(** X5. [GET /api/comments/:postId] on a table with unique comment ids. A
    post id outside the range of INTEGER, or a limit or offset that is
    negative or beyond the range of a bigint, makes the query fail and the
    handler throw. Otherwise the answer lists, in insertion order, the
    top-level comments of the post from [offset] on, at most [limit] of
    them, each with every comment of the table that names it as parent
    (in insertion order, whatever post it is on) and these without
    [replies] of their own. Without parameters the page is the first 20
    top-level comments. *)
Theorem get_thread_answer (postId : Z) (limit offset : option string) (d : db) :
  NoDup (c_id <$> comments d) →
  (¬ int4 postId
   ∨ limit_number limit < 0 ∨ 2 ^ 63 ≤ limit_number limit
   ∨ offset_number offset < 0 ∨ 2 ^ 63 ≤ offset_number offset →
   route_thread postId limit offset d = Threw)
  ∧ (int4 postId →
     0 ≤ limit_number limit < 2 ^ 63 → 0 ≤ offset_number offset < 2 ^ 63 →
     route_thread postId limit offset d
     = Json ((λ t, Node t (Some ((λ r, Node r None)
                <$> filter (λ r, r_parent_id r = Some (r_id t)) (all_rows d))))
             <$> take (Z.to_nat (limit_number limit))
                   (drop (Z.to_nat (offset_number offset)) (top_level postId d))))
  ∧ (int4 postId →
     route_thread postId None None d
     = Json ((λ t, Node t (Some ((λ r, Node r None)
                <$> filter (λ r, r_parent_id r = Some (r_id t)) (all_rows d))))
             <$> take 20 (top_level postId d))).
Proof.
  intros Hnd. unfold route_thread. split_and!.
  - intros [Hid|Hbad]; [by rewrite decide_False|].
    case_decide; [by apply get_thread_rejects|done].
  - intros Hid Hl Ho. rewrite decide_True by done. by rewrite get_thread_accepts.
  - intros Hid. rewrite decide_True by done.
    rewrite get_thread_accepts; [done|done|..]; vm_compute; split; congruence.
Qed.

Lemma get_thread_answer_witness :
  NoDup (c_id <$> comments family_db)
  ∧ route_thread 1 (Some "-1"%string) None family_db = Threw
  ∧ route_thread 2147483648 None None family_db = Threw
  ∧ (λ n, (r_id (node_row n), r_id <$> (node_row <$> node_replies n)))
      <$> match route_thread 1 (Some "5"%string) None family_db with
          | Json nodes => nodes
          | _ => []
          end
    = [(1, [2]); (4, [5])].
Proof.
  assert (NoDup (c_id <$> comments family_db)) as Hnd
    by (apply (bool_decide_unpack _); vm_compute; exact I).
  assert (int4 1) as Hid by (unfold int4; lia).
  split; [exact Hnd|]. split_and!.
  - apply (proj1 (get_thread_answer 1 (Some "-1"%string) None family_db Hnd)).
    right. left. vm_compute. reflexivity.
  - apply (proj1 (get_thread_answer 2147483648 None None family_db Hnd)).
    left. unfold int4. lia.
  - rewrite (proj1 (proj2 (get_thread_answer 1 (Some "5"%string) None family_db Hnd))
               Hid).
    + reflexivity.
    + vm_compute. split; [discriminate|reflexivity].
    + vm_compute. split; [discriminate|reflexivity].
Defined.

(** X6. Two requests to [GET /api/comments/:postId] that are answered, the
    second at the offset where the first page ends: the top-level comments
    of the two pages, one after the other, are the top-level comments of
    the post from the first offset on, up to twice the limit of them, and
    no comment is on both pages. *)
Theorem get_thread_pages (postId : Z) (limit offset offset' : option string)
    (d : db) (page1 page2 : list node) :
  NoDup (c_id <$> comments d) →
  offset_number offset' = offset_number offset + limit_number limit →
  get_thread postId limit offset d = Json page1 →
  get_thread postId limit offset' d = Json page2 →
  node_row <$> (page1 ++ page2)
  = take (2 * Z.to_nat (limit_number limit))
      (drop (Z.to_nat (offset_number offset)) (top_level postId d))
  ∧ ∀ n1 n2, n1 ∈ page1 → n2 ∈ page2 →
      r_id (node_row n1) ≠ r_id (node_row n2).
Proof.
  intros Hnd Hnext H1 H2.
  destruct (get_thread_answered _ _ _ _ _ H1) as [Hl Ho].
  destruct (get_thread_answered _ _ _ _ _ H2) as [_ Ho'].
  rewrite get_thread_accepts in H1 by done. rewrite get_thread_accepts in H2 by done.
  injection H1 as <-. injection H2 as <-. unfold one_level.
  set (n := Z.to_nat (limit_number limit)). set (k := Z.to_nat (offset_number offset)).
  replace (Z.to_nat (offset_number offset')) with (k + n)%nat by (unfold k, n; lia).
  set (T := top_level postId d).
  assert (take n (drop k T) ++ take n (drop (k + n) T)
          = take (2 * n) (drop k T)) as Htile.
  { rewrite <-(drop_drop T n k), take_take_drop. f_equal. lia. }
  split.
  - rewrite fmap_app.
    by rewrite !node_row_fmap.
  - assert (NoDup (r_id <$> (take n (drop k T) ++ take n (drop (k + n) T)))) as Hids.
    { rewrite Htile. apply (NoDup_sublist_ids d); [done|].
      etrans; [apply sublist_take|]. etrans; [apply sublist_drop|].
      apply top_level_sublist. }
    rewrite fmap_app in Hids. apply NoDup_app in Hids as (_ & Hdisj & _).
    intros n1 n2 [t1 [-> Ht1]]%list_elem_of_fmap [t2 [-> Ht2]]%list_elem_of_fmap.
    simpl. intros Heq. apply (Hdisj (r_id t1)).
    + apply list_elem_of_fmap. eauto.
    + rewrite Heq. apply list_elem_of_fmap. eauto.
Qed.

Lemma get_thread_pages_witness :
  let nodes r := match r with Json nodes => nodes | _ => [] end in
  let page1 := nodes (get_thread 1 (Some "1"%string) None family_db) in
  let page2 := nodes (get_thread 1 (Some "1"%string) (Some "1"%string) family_db) in
  NoDup (c_id <$> comments family_db)
  ∧ get_thread 1 (Some "1"%string) None family_db = Json page1
  ∧ get_thread 1 (Some "1"%string) (Some "1"%string) family_db = Json page2
  ∧ node_row <$> (page1 ++ page2) = take 2 (top_level 1 family_db).
Proof.
  intros nodes page1 page2.
  assert (NoDup (c_id <$> comments family_db)) as Hnd
    by (apply (bool_decide_unpack _); vm_compute; exact I).
  split; [exact Hnd|]. split; [reflexivity|]. split; [reflexivity|].
  exact (proj1 (get_thread_pages 1 (Some "1"%string) None (Some "1"%string)
                  family_db page1 page2 Hnd eq_refl eq_refl eq_refl)).
Defined.

(** ** Unlimited thread *)

Section forest.
Variable all : list row.
Hypothesis ids_unique : NoDup (r_id <$> all).

Lemma same_id_same_address a b ra rb :
  all !! a = Some ra → all !! b = Some rb → r_id ra = r_id rb → a = b.
Proof.
  intros Ha Hb Hid. apply (NoDup_lookup (r_id <$> all) a b (r_id ra)); [done|..].
  - by rewrite list_lookup_fmap, Ha.
  - by rewrite list_lookup_fmap, Hb, Hid.
Qed.

Lemma child_at_unique p q a : child_at all p a → child_at all q a → p = q.
Proof.
  intros (rp & ra & Hp & Ha & _ & Hpar) (rq & ra' & Hq & Ha' & _ & Hpar').
  assert (ra' = ra) as -> by congruence.
  eapply same_id_same_address; [done..|congruence].
Qed.

Lemma root_not_child p a : root_at all a → child_at all p a → False.
Proof.
  intros (r & Hr & Hroot) (rp & ra & _ & Ha & Hchild & _). congruence.
Qed.

Lemma chain_elem a path x :
  chain all a path → x ∈ a :: path → root_at all x ∨ ∃ q, q ∈ path ∧ child_at all q x.
Proof.
  revert a. induction path as [|p rest IH]; intros a Hchain Hx.
  - apply list_elem_of_singleton in Hx as ->. by left.
  - destruct Hchain as [Hchild Hchain].
    apply elem_of_cons in Hx as [->|Hx].
    + right. exists p. split; [left|done].
    + destruct (IH p Hchain Hx) as [?|(q & Hq & Hqx)]; [by left|].
      right. exists q. split; [by right|done].
Qed.

Lemma chain_NoDup a path : chain all a path → NoDup (a :: path).
Proof.
  revert a. induction path as [|p rest IH]; intros a Hchain.
  - apply NoDup_singleton.
  - destruct Hchain as [Hchild Hchain]. specialize (IH p Hchain).
    apply NoDup_cons. split; [|done]. intros Hin.
    destruct (chain_elem p rest a Hchain Hin) as [Hroot|(q & Hq & Hqa)].
    + by eapply root_not_child.
    + assert (q = p) as -> by (by eapply child_at_unique).
      by apply NoDup_cons in IH as [? _].
Qed.

Lemma chain_bound a path : chain all a path → (S (length path) ≤ length all)%nat.
Proof.
  intros Hchain.
  assert (∀ x, x ∈ a :: path → x ∈ seq 0 (length all)) as Hrange.
  { intros x Hx. apply elem_of_seq. split; [lia|]. simpl.
    destruct (chain_elem a path x Hchain Hx)
      as [(r & Hr & _)|(q & _ & (rq & rx & _ & Hr & _))];
      by apply lookup_lt_Some in Hr. }
  pose proof (submseteq_length _ _
    (NoDup_submseteq _ _ (chain_NoDup a path Hchain) Hrange)) as Hlen.
  by rewrite length_seq in Hlen.
Qed.

Lemma buildUnlimited_objects :
  ∃ h, buildUnlimited all
       = Some ((filter (λ o, has_parent o.2 = false) (objects 0 all)).*1, h)
     ∧ ∀ a p, all !! a = Some p →
         h !! a
         = Some (filter (λ o, has_parent o.2 = true
                              ∧ r_parent_id o.2 = Some (r_id p))
                   (objects 0 all)).*1.
Proof.
  unfold buildUnlimited.
  pose proof (index_heap 0 all) as Hheap.
  pose proof (λ k a, index_map 0 all k a ids_unique) as Hmap.
  destruct (foldl index_step (∅, ∅) (objects 0 all)) as [h0 m]. simpl in *.
  rewrite attach_loop.
  destruct (push_loop_spec (forest_target m) (objects 0 all) h0) as (h & -> & Hspec).
  { intros [b r] t _. unfold forest_target. simpl.
    destruct (has_parent r); [|done].
    destruct (r_parent_id r) as [k|]; simpl; [|done].
    intros (_ & p & Hp & _)%Hmap. rewrite Hheap, decide_True; [done|].
    apply lookup_lt_Some in Hp. lia. }
  exists h. split; [done|]. intros a p Hp. rewrite Hspec, Hheap.
  rewrite decide_True by (apply lookup_lt_Some in Hp; lia). simpl.
  do 2 f_equal. apply list_filter_iff. intros [b r].
  unfold forest_target. simpl. split.
  - destruct (has_parent r); [|done]. intros Ht. split; [done|]. revert Ht.
    destruct (r_parent_id r) as [k|]; simpl; [|done].
    intros (_ & p' & Hp' & Hid)%Hmap. rewrite Nat.sub_0_r in Hp'. congruence.
  - intros [-> ->]. simpl. apply Hmap. split; [lia|].
    exists p. by rewrite Nat.sub_0_r.
Qed.

Lemma mapM_objects_threaded (g : nat → option node) (objs : list (nat * row)) :
  (∀ o, o ∈ objs →
     ∃ n, g o.1 = Some n ∧ node_row n = o.2 ∧ threaded all n) →
  ∃ ns, mapM g objs.*1 = Some ns ∧ node_row <$> ns = objs.*2
        ∧ Forall (threaded all) ns.
Proof.
  induction objs as [|o objs IH]; intros Hg.
  - exists []. by split_and!.
  - destruct (Hg o) as (n & Hn & Hrow & Hthr); [left|].
    destruct IH as (ns & Hns & Hrows & Hall).
    { intros o' Ho'. apply Hg. by right. }
    exists (n :: ns). rewrite !fmap_cons. cbn [mapM]. rewrite Hn, Hns.
    split; [done|]. split; [by rewrite Hrow, Hrows|by constructor].
Qed.

(** Rendering from an object whose chain of parents ends at a root comes
    to an end: the chain leaves fuel for what is below. *)
Lemma render_chain (h : heap) :
  (∀ a p, all !! a = Some p →
     h !! a = Some (filter (λ o, has_parent o.2 = true
                                 ∧ r_parent_id o.2 = Some (r_id p))
                      (objects 0 all)).*1) →
  ∀ fuel a path r,
    all !! a = Some r → chain all a path →
    (length all ≤ fuel + length path)%nat →
    ∃ n, render fuel all h a = Some n ∧ node_row n = r ∧ threaded all n.
Proof.
  intros Hheap. induction fuel as [|fuel IH]; intros a path r Ha Hchain Hlen.
  - apply chain_bound in Hchain. lia.
  - cbn [render]. rewrite Ha. simpl. rewrite (Hheap a r Ha).
    destruct (mapM_objects_threaded (render fuel all h)
      (filter (λ o, has_parent o.2 = true ∧ r_parent_id o.2 = Some (r_id r))
         (objects 0 all))) as (ns & -> & Hrows & Hall).
    { intros [b rb] [[Hpar Hid] Hb]%list_elem_of_filter. simpl in *.
      apply elem_of_objects in Hb as [_ Hb]. rewrite Nat.sub_0_r in Hb.
      apply (IH b (a :: path)); [done| |simpl; lia].
      split; [|done]. by exists r, rb. }
    eexists. split; [done|]. split; [done|]. constructor; [|done].
    rewrite Hrows. by apply filter_objects_snd.
Qed.

(** The unlimited builder and [res.json] on rows with unique ids: no
    error, the roots in input order, every node with its replies. *)
Lemma forest_rendered :
  ∃ built nodes,
    buildUnlimited all = Some built ∧ res_json all built = Some nodes
    ∧ node_row <$> nodes = filter (λ r, has_parent r = false) all
    ∧ Forall (threaded all) nodes.
Proof.
  destruct buildUnlimited_objects as (h & Hbuild & Hheap).
  destruct (mapM_objects_threaded (render (S (length all)) all h)
    (filter (λ o, has_parent o.2 = false) (objects 0 all)))
    as (ns & Hns & Hrows & Hall).
  { intros [a r] [Hroot Ha]%list_elem_of_filter. simpl in *.
    apply elem_of_objects in Ha as [_ Ha]. rewrite Nat.sub_0_r in Ha.
    apply (render_chain h Hheap (S (length all)) a []); [done| |simpl; lia].
    by exists r. }
  eexists _, ns. split; [exact Hbuild|]. split; [exact Hns|].
  split; [|done]. rewrite Hrows. by apply filter_objects_snd.
Qed.
End forest.

(** Induction on nodes, with the hypothesis for every reply. *)
Lemma node_induction (P : node → Prop) :
  (∀ r, P (Node r None)) →
  (∀ r kids, Forall P kids → P (Node r (Some kids))) →
  ∀ n, P n.
Proof.
  intros Hleaf Hnode. fix IH 1. intros [r [kids|]]; [|apply Hleaf].
  apply Hnode. induction kids as [|k kids IHk]; constructor; [apply IH|exact IHk].
Qed.

Lemma elem_of_subnodes_self n : n ∈ subnodes n.
Proof. destruct n as [r [kids|]]; simpl; left. Qed.

Lemma elem_of_subnodes_kid r kids k m :
  k ∈ kids → m ∈ subnodes k → m ∈ subnodes (Node r (Some kids)).
Proof.
  intros Hk Hm. simpl. right. apply list_elem_of_bind. eauto.
Qed.

Lemma subnodes_trans n m k : m ∈ subnodes n → k ∈ subnodes m → k ∈ subnodes n.
Proof.
  revert m k. induction n as [r|r kids IH] using node_induction; intros m k.
  - simpl. by intros ->%list_elem_of_singleton.
  - simpl. intros [->|Hm]%elem_of_cons; [done|]. intros Hk. right.
    apply list_elem_of_bind in Hm as (kid & Hm & Hkid).
    apply list_elem_of_bind. exists kid. split; [|done].
    rewrite Forall_forall in IH. by eapply IH.
Qed.

Section visible.
Variable all : list row.
Hypothesis ids_unique : NoDup (r_id <$> all).

(** Below a node of the view whose row is shown, every node is a node of
    the view and its row is shown. *)
Lemma threaded_subnodes n :
  threaded all n → shown all (node_row n) →
  ∀ m, m ∈ subnodes n → threaded all m ∧ shown all (node_row m).
Proof.
  induction n as [r|r kids IH] using node_induction; intros Hthr Hshown m.
  - simpl. by intros ->%list_elem_of_singleton.
  - simpl. intros [->|Hm]%elem_of_cons; [done|].
    apply list_elem_of_bind in Hm as (kid & Hm & Hkid).
    inversion Hthr as [r' kids' Hrows Hkids]; subst.
    rewrite Forall_forall in IH, Hkids. apply (IH kid); [done|by apply Hkids| |done].
    assert (node_row kid ∈ node_row <$> kids) as Hin
      by (apply list_elem_of_fmap; eauto).
    rewrite Hrows in Hin. apply list_elem_of_filter in Hin as [[Hpar Hid] Hall].
    by eapply shown_reply.
Qed.

(** A row that is its own parent is not shown. *)
Lemma shown_not_self r :
  shown all r → has_parent r = true → r_parent_id r ≠ Some (r_id r).
Proof.
  induction 1 as [r Hr Hroot|r q Hr Hpar Hid Hq IH]; intros Hp Hself.
  - congruence.
  - assert (q ∈ all) as Hqin by (by destruct Hq).
    assert (q = r) as ->.
    { apply list_elem_of_lookup in Hqin as [i Hi].
      apply list_elem_of_lookup in Hr as [j Hj].
      assert (i = j) as ->; [|congruence].
      apply (NoDup_lookup (r_id <$> all) i j (r_id q)); [done|..].
      - by rewrite list_lookup_fmap, Hi.
      - rewrite list_lookup_fmap, Hj. simpl. congruence. }
    by apply IH.
Qed.

(** The rows of the nodes of a rendered forest are the shown rows. *)
Lemma forest_shows nodes :
  node_row <$> nodes = filter (λ r, has_parent r = false) all →
  Forall (threaded all) nodes →
  ∀ r, r ∈ node_row <$> (nodes ≫= subnodes) ↔ shown all r.
Proof.
  intros Hroots Hthr r. rewrite Forall_forall in Hthr. split.
  - intros (m & -> & (n & Hm & Hn)%list_elem_of_bind)%list_elem_of_fmap.
    apply (threaded_subnodes n); [by apply Hthr| |done].
    assert (node_row n ∈ node_row <$> nodes) as Hin
      by (apply list_elem_of_fmap; eauto).
    rewrite Hroots in Hin. apply list_elem_of_filter in Hin as [? ?].
    by apply shown_root.
  - induction 1 as [r Hr Hroot|r q Hr Hpar Hid Hq IH].
    + assert (r ∈ node_row <$> nodes) as (n & -> & Hn)%list_elem_of_fmap.
      { rewrite Hroots. by apply list_elem_of_filter. }
      apply list_elem_of_fmap. exists n. split; [done|].
      apply list_elem_of_bind. exists n. split; [apply elem_of_subnodes_self|done].
    + apply list_elem_of_fmap in IH as (m & -> & (n & Hm & Hn)%list_elem_of_bind).
      assert (threaded all m) as Hm'.
      { apply (threaded_subnodes n); [by apply Hthr| |done].
        assert (node_row n ∈ node_row <$> nodes) as Hin
          by (apply list_elem_of_fmap; eauto).
        rewrite Hroots in Hin. apply list_elem_of_filter in Hin as [? ?].
        by apply shown_root. }
      inversion Hm' as [r' kids Hrows Hkids Heq]. subst m. simpl in *.
      assert (r ∈ node_row <$> kids) as (kid & -> & Hkid)%list_elem_of_fmap.
      { rewrite Hrows. by apply list_elem_of_filter. }
      apply list_elem_of_fmap. exists kid. split; [done|].
      apply list_elem_of_bind. exists n. split; [|done].
      eapply subnodes_trans; [exact Hm|].
      eapply elem_of_subnodes_kid; [done|apply elem_of_subnodes_self].
Qed.
End visible.

Lemma thread_rows_sublist postId d : thread_rows postId d `sublist_of` all_rows d.
Proof. apply fmap_sublist, sublist_filter. Qed.

Lemma NoDup_thread_rows postId d :
  NoDup (c_id <$> comments d) → NoDup (r_id <$> thread_rows postId d).
Proof.
  intros Hnd. apply (sublist_NoDup _ (r_id <$> all_rows d)).
  - unfold all_rows. by rewrite <-list_fmap_compose.
  - apply fmap_sublist, thread_rows_sublist.
Qed.

(** X7. [GET /api/comments/unlimited/:postId] on a table with unique comment
    ids. A post id outside the range of INTEGER makes the query fail and
    the handler throw. For every other post id the handler answers, also
    when comments are their own parent: what [res.json] reaches holds no
    cycle. The roots are, in insertion order, the comments of the post
    whose [parent_id] is NULL (or 0); every node, at every depth, has
    [replies] set to the nodes of the comments of the post that name its
    comment as parent, in insertion order. *)
Theorem get_full_thread_answer (postId : Z) (d : db) :
  NoDup (c_id <$> comments d) →
  (¬ int4 postId → route_full_thread postId d = Threw)
  ∧ (int4 postId →
     ∃ nodes,
       route_full_thread postId d = Json nodes
       ∧ node_row <$> nodes
         = filter (λ r, has_parent r = false) (thread_rows postId d)
       ∧ ∀ n r kids, n ∈ nodes → Node r kids ∈ subnodes n →
           ∃ below, kids = Some below
             ∧ node_row <$> below
               = filter (λ c, has_parent c = true ∧ r_parent_id c = Some (r_id r))
                   (thread_rows postId d)).
Proof.
  intros Hnd. unfold route_full_thread.
  split; [intros Hid; by rewrite decide_False|].
  intros Hid. rewrite decide_True by done.
  pose proof (NoDup_thread_rows postId d Hnd) as Hrows.
  destruct (forest_rendered _ Hrows) as (built & nodes & Hbuild & Hjson & Hroots & Hthr).
  exists nodes. split; [|split; [done|]].
  - unfold get_full_thread. rewrite Hbuild. simpl. by rewrite Hjson.
  - intros n r kids Hn Hsub.
    assert (threaded (thread_rows postId d) (Node r kids)) as Hnode.
    { rewrite Forall_forall in Hthr.
      apply (threaded_subnodes _ n); [by apply Hthr| |done].
      assert (node_row n ∈ node_row <$> nodes) as Hin
        by (apply list_elem_of_fmap; eauto).
      rewrite Hroots in Hin. apply list_elem_of_filter in Hin as [? ?].
      by apply shown_root. }
    inversion Hnode; subst. eauto.
Qed.

Lemma get_full_thread_answer_witness :
  NoDup (c_id <$> comments mixed_db)
  ∧ route_full_thread (-2147483649) mixed_db = Threw
  ∧ ∃ nodes, route_full_thread 1 mixed_db = Json nodes
      ∧ r_id <$> (node_row <$> nodes) = [1]
      ∧ r_id <$> (node_row <$> (nodes ≫= subnodes)) = [1; 4].
Proof.
  assert (NoDup (c_id <$> comments mixed_db)) as Hnd
    by (apply (bool_decide_unpack _); vm_compute; exact I).
  split; [exact Hnd|]. split.
  { apply (proj1 (get_full_thread_answer (-2147483649) mixed_db Hnd)).
    unfold int4. lia. }
  destruct (proj2 (get_full_thread_answer 1 mixed_db Hnd)) as (nodes & Hget & _).
  { unfold int4. lia. }
  exists nodes. split; [exact Hget|].
  vm_compute in Hget. injection Hget as <-. split; reflexivity.
Defined.

(** X8. Which comments [GET /api/comments/unlimited/:postId] shows, on a table
    with unique comment ids: the comments of the post without a parent,
    and the comments of the post whose parent is a comment of the post
    that is shown. So a reply to a comment of another post, and a comment
    that is its own parent, are stored and shown nowhere in the view. *)
Theorem get_full_thread_shows (postId : Z) (d : db) (nodes : list node) :
  NoDup (c_id <$> comments d) →
  get_full_thread postId d = Json nodes →
  (∀ r, r ∈ node_row <$> (nodes ≫= subnodes) ↔ shown (thread_rows postId d) r)
  ∧ (∀ c, c ∈ comments d → has_parent (with_likes d c) = true →
       c_parent_id c = Some (c_id c)
       ∨ ¬ (∃ q, q ∈ comments d ∧ c_postid q = Some postId
                 ∧ c_parent_id c = Some (c_id q)) →
       with_likes d c ∉ node_row <$> (nodes ≫= subnodes)).
Proof.
  intros Hnd Hget.
  pose proof (NoDup_thread_rows postId d Hnd) as Hrows.
  destruct (forest_rendered _ Hrows) as (built & nodes' & Hbuild & Hjson & Hroots & Hthr).
  assert (nodes' = nodes) as ->.
  { unfold get_full_thread in Hget. rewrite Hbuild in Hget. simpl in Hget.
    rewrite Hjson in Hget. by injection Hget. }
  pose proof (forest_shows _ nodes Hroots Hthr) as Hshows.
  split; [exact Hshows|].
  intros c Hc Hpar Hbad Hin. apply Hshows in Hin.
  destruct Hbad as [Hself|Hnone].
  - by apply (shown_not_self _ Hrows _ Hin Hpar).
  - inversion Hin as [r Hr Hroot|r q Hr _ Hid Hq]; subst; [congruence|].
    assert (q ∈ thread_rows postId d) as Hqin by (by destruct Hq).
    apply list_elem_of_fmap in Hqin as (cq & -> & [Hpost Hcq]%list_elem_of_filter).
    apply Hnone. by exists cq.
Qed.

Lemma get_full_thread_shows_witness :
  NoDup (c_id <$> comments mixed_db)
  ∧ ∃ nodes, get_full_thread 2 mixed_db = Json nodes
      ∧ ∀ r, r ∈ node_row <$> (nodes ≫= subnodes)
             ↔ shown (thread_rows 2 mixed_db) r.
Proof.
  assert (NoDup (c_id <$> comments mixed_db)) as Hnd
    by (apply (bool_decide_unpack _); vm_compute; exact I).
  split; [exact Hnd|]. eexists. split; [reflexivity|].
  exact (proj1 (get_full_thread_shows 2 mixed_db _ Hnd eq_refl)).
Defined.

(** ** Cascading deletes *)

Lemma doomed_nil cs c : ¬ doomed cs [] c.
Proof.
  induction 1 as [c p _ _ Hp|c q _ _ _ IH]; [|exact IH].
  by apply elem_of_nil in Hp.
Qed.

Lemma child_of_any_iff gone c :
  child_of_any gone c ↔ ∃ p, c_parent_id c = Some p ∧ p ∈ gone.
Proof.
  unfold child_of_any. destruct (c_parent_id c) as [p|]; simpl.
  - split; [eauto|]. by intros (p' & [= <-] & ?).
  - split; [done|]. by intros (p' & ? & _).
Qed.

(** One round of the cascade splits what is reached into the replies to
    the deleted rows and what the next round reaches. *)
Lemma doomed_round cs gone c :
  doomed cs gone c
  ↔ c ∈ cs
    ∧ (child_of_any gone c
       ∨ doomed (filter (λ c, ¬ child_of_any gone c) cs)
           (c_id <$> filter (child_of_any gone) cs) c).
Proof.
  set (rest := filter (λ c, ¬ child_of_any gone c) cs).
  set (dead := filter (child_of_any gone) cs). split.
  - induction 1 as [c p Hc Hpar Hp|c q Hc Hpar Hq IH].
    + split; [done|]. left. apply child_of_any_iff. eauto.
    + split; [done|].
      destruct (decide (child_of_any gone c)) as [?|Hnot]; [by left|]. right.
      assert (c ∈ rest) as Hrest by (by apply list_elem_of_filter).
      destruct IH as [Hqin [Hq'|Hq']].
      * eapply doomed_child; [done..|]. apply list_elem_of_fmap. exists q.
        split; [done|]. by apply list_elem_of_filter.
      * by eapply doomed_below.
  - intros [Hc [Hchild|Hnext]].
    + apply child_of_any_iff in Hchild as (p & Hpar & Hp). by eapply doomed_child.
    + clear Hc. induction Hnext as [c p Hc Hpar Hp|c q Hc Hpar Hq IH].
      * apply list_elem_of_filter in Hc as [_ Hc].
        apply list_elem_of_fmap in Hp as (q & -> & [Hq Hqin]%list_elem_of_filter).
        eapply doomed_below; [done..|].
        apply child_of_any_iff in Hq as (p & Hqpar & Hp). by eapply doomed_child.
      * apply list_elem_of_filter in Hc as [_ Hc]. by eapply doomed_below.
Qed.

Lemma length_filter_rest {A} (P : A → Prop) `{!∀ x, Decision (P x)} (l : list A) :
  (length (filter P l) + length (filter (λ x, ¬ P x) l) = length l)%nat.
Proof.
  induction l as [|x l IH]; [done|]. rewrite !filter_cons.
  destruct (decide (P x)).
  - rewrite decide_False by tauto. simpl. lia.
  - rewrite decide_True by done. simpl. lia.
Qed.

Lemma cascade_sublist fuel gone cs : cascade fuel gone cs `sublist_of` cs.
Proof.
  revert gone cs. induction fuel as [|fuel IH]; intros gone cs; [reflexivity|].
  simpl. destruct (filter (child_of_any gone) cs); [reflexivity|].
  etrans; [apply IH|apply sublist_filter].
Qed.

(** With fuel for every row, the cascade keeps the rows it does not
    reach. *)
Lemma cascade_spec fuel gone cs c :
  (length cs ≤ fuel)%nat →
  c ∈ cascade fuel gone cs ↔ c ∈ cs ∧ ¬ doomed cs gone c.
Proof.
  revert gone cs. induction fuel as [|fuel IH]; intros gone cs Hlen.
  - destruct cs; [|simpl in Hlen; lia]. simpl. split; [|tauto].
    intros Hc. by apply elem_of_nil in Hc.
  - simpl. rewrite (doomed_round cs gone c).
    pose proof (length_filter_rest (child_of_any gone) cs) as Hsplit.
    destruct (filter (child_of_any gone) cs) as [|c0 dead] eqn:Hdead.
    + assert (∀ x, x ∈ cs → ¬ child_of_any gone x) as Hnone.
      { intros x Hx Hchild.
        assert (x ∈ filter (child_of_any gone) cs) as Hin
          by (by apply list_elem_of_filter).
        rewrite Hdead in Hin. by apply elem_of_nil in Hin. }
      split; [|tauto]. intros Hc. split; [done|]. intros [_ [?|Hnext]].
      * by eapply Hnone.
      * by apply doomed_nil in Hnext.
    + rewrite IH by (simpl in Hsplit; lia).
      rewrite list_elem_of_filter. tauto.
Qed.

(** What the cascade reaches from the comments of a post is what the
    delete of the post removes beyond them. *)
Lemma swept_iff cs id c :
  swept cs id c
  ↔ c ∈ cs
    ∧ (c_postid c = Some id
       ∨ doomed (filter (λ c, c_postid c ≠ Some id) cs)
           (c_id <$> filter (λ c, c_postid c = Some id) cs) c).
Proof.
  split.
  - induction 1 as [c Hc Hpost|c q Hc Hpar Hq IH]; [by split; [|left]|].
    split; [done|].
    destruct (decide (c_postid c = Some id)) as [?|Hnot]; [by left|]. right.
    assert (c ∈ filter (λ c, c_postid c ≠ Some id) cs) as Hrest
      by (by apply list_elem_of_filter).
    destruct IH as [Hqin [Hq'|Hq']].
    + eapply doomed_child; [done..|]. apply list_elem_of_fmap. exists q.
      split; [done|]. by apply list_elem_of_filter.
    + by eapply doomed_below.
  - intros [Hc [Hpost|Hnext]]; [by apply swept_post|]. clear Hc.
    induction Hnext as [c p Hc Hpar Hp|c q Hc Hpar Hq IH].
    + apply list_elem_of_filter in Hc as [_ Hc].
      apply list_elem_of_fmap in Hp as (q & -> & [Hq Hqin]%list_elem_of_filter).
      eapply swept_reply; [done..|]. by apply swept_post.
    + apply list_elem_of_filter in Hc as [_ Hc]. by eapply swept_reply.
Qed.

Lemma delete_post_comments id s c :
  Exists (λ p, p_id p = id) (posts (tables s)) →
  c ∈ comments (tables (delete_post id s).2)
  ↔ c ∈ comments (tables s) ∧ ¬ swept (comments (tables s)) id c.
Proof.
  intros Hex. unfold delete_post. rewrite decide_True by done. simpl.
  rewrite cascade_spec by done. rewrite swept_iff, list_elem_of_filter. tauto.
Qed.

Lemma delete_post_missing id s :
  ¬ Exists (λ p, p_id p = id) (posts (tables s)) → delete_post id s = (Status 204, s).
Proof. intros Hno. unfold delete_post. by rewrite decide_False. Qed.

(** X9. [DELETE /api/post/:id]. An id outside the range of INTEGER makes the
    statement fail: the handler throws and the store is left as it is.
    Every other id is answered 204. For an id no post carries the store
    is left as it is. Otherwise the post is removed with its bookmarks,
    its comments and every comment below one of them (whatever post that
    one is on), and the likes of a removed comment; the other posts,
    comments and bookmarks and all notifications stay, those about the
    removed post and comments included. A second delete of the id changes
    nothing. *)
Theorem delete_post_answer (id : Z) (s : store) :
  (¬ int4 id → route_delete_post id s = (Threw, s))
  ∧ (int4 id →
     let s' := (route_delete_post id s).2 in
     (route_delete_post id s).1 = Status 204
     ∧ (¬ Exists (λ p, p_id p = id) (posts (tables s)) → s' = s)
     ∧ (∀ p, p ∈ posts (tables s') ↔ p ∈ posts (tables s) ∧ p_id p ≠ id)
     ∧ (Exists (λ p, p_id p = id) (posts (tables s)) →
        (∀ c, c ∈ comments (tables s')
              ↔ c ∈ comments (tables s) ∧ ¬ swept (comments (tables s)) id c)
        ∧ (likes_fk (tables s) →
           ∀ l, l ∈ comment_likes (tables s')
                ↔ l ∈ comment_likes (tables s)
                  ∧ ∃ c, c ∈ comments (tables s') ∧ c_id c = l_comment_id l)
        ∧ (∀ b, b ∈ bookmarks s' ↔ b ∈ bookmarks s ∧ b_postid b ≠ id))
     ∧ notifications (tables s') = notifications (tables s)
     ∧ route_delete_post id s' = (Status 204, s')).
Proof.
  unfold route_delete_post. split; [intros Hid; by rewrite decide_False|].
  intros Hint. cbv zeta. rewrite !decide_True by done.
  destruct (decide (Exists (λ p, p_id p = id) (posts (tables s)))) as [Hex|Hno].
  2:{ rewrite delete_post_missing by done. simpl. split_and!; try done.
      - intros p. split; [|tauto]. intros Hp. split; [done|]. intros Hid.
        apply Hno, Exists_exists. eauto.
      - by apply delete_post_missing. }
  split; [unfold delete_post; by rewrite decide_True|].
  split; [done|].
  assert (∀ p, p ∈ posts (tables (delete_post id s).2)
               ↔ p ∈ posts (tables s) ∧ p_id p ≠ id) as Hposts.
  { intros p. unfold delete_post. rewrite decide_True by done. simpl.
    rewrite list_elem_of_filter. tauto. }
  split; [exact Hposts|]. split_and!.
  - intros _. split_and!.
    + intros c. by apply delete_post_comments.
    + intros Hfk l. unfold delete_post. rewrite decide_True by done. simpl.
      rewrite list_elem_of_filter, !Exists_exists. split.
      * intros [[(c & Hc & Hid)|Hnone] Hl]; [eauto|].
        destruct Hnone. destruct (Hfk l Hl) as (c & Hc & Hid). eauto.
      * intros [Hl (c & Hc & Hid)]. split; [|done]. left. eauto.
    + intros b. unfold delete_post. rewrite decide_True by done. simpl.
      rewrite list_elem_of_filter. tauto.
  - unfold delete_post. by rewrite decide_True.
  - apply delete_post_missing. rewrite Exists_exists.
    intros (p & [_ Hne]%Hposts & Hid). done.
Qed.

Lemma delete_post_answer_witness :
  route_delete_post 2147483648 busy_store = (Threw, busy_store)
  ∧ (route_delete_post 1 busy_store).1 = Status 204
  ∧ p_id <$> posts (tables (route_delete_post 1 busy_store).2) = [2]
  ∧ c_id <$> comments (tables (route_delete_post 1 busy_store).2) = [].
Proof.
  split.
  { apply (proj1 (delete_post_answer 2147483648 busy_store)). unfold int4. lia. }
  split; [|split; reflexivity].
  apply (proj2 (delete_post_answer 1 busy_store)). unfold int4. lia.
Defined.

(** ** Consistency of the store *)

Lemma StronglySorted_sublist {A} (R : relation A) (l1 l2 : list A) :
  l1 `sublist_of` l2 → StronglySorted R l2 → StronglySorted R l1.
Proof.
  induction 1 as [|x l1 l2 Hsub IH|x l1 l2 Hsub IH]; intros Hs; [done| |].
  - apply StronglySorted_inv in Hs as [Hs Hall]. constructor; [by apply IH|].
    rewrite Forall_forall in Hall |- *. intros y Hy. apply Hall.
    by eapply elem_of_sublist.
  - apply StronglySorted_inv in Hs as [Hs _]. by apply IH.
Qed.

Lemma ascend_snoc (ids : list Z) (k : Z) :
  StronglySorted Z.lt ids → (∀ x, x ∈ ids → x < k) →
  StronglySorted Z.lt (ids ++ [k]).
Proof.
  intros Hs Hlt. apply StronglySorted_app_2; [|done|repeat constructor].
  intros x y Hx ->%list_elem_of_singleton. by apply Hlt.
Qed.

Lemma ascend_NoDup (ids : list Z) : StronglySorted Z.lt ids → NoDup ids.
Proof.
  induction 1 as [|x l Hs IH Hall]; constructor; [|done].
  rewrite Forall_forall in Hall. intros Hx. specialize (Hall x Hx). lia.
Qed.

Lemma references_mono {R} (key : R → Z) (l1 l2 : list R) ref :
  (∀ r, r ∈ l1 → ∃ r', r' ∈ l2 ∧ key r' = key r) →
  references key l1 ref → references key l2 ref.
Proof.
  intros Hsub. destruct ref as [k|]; simpl; [|done].
  rewrite !Exists_exists. intros (r & Hr & Hk).
  destruct (Hsub r Hr) as (r' & Hr' & Hk'). exists r'. split; [done|congruence].
Qed.

Lemma consistent_init : consistent init_store.
Proof.
  split; simpl; try (intros ? H; by apply elem_of_nil in H);
    try (intros ? ? H; by apply elem_of_nil in H); try constructor; done.
Qed.

Lemma p_id_update_likes likes id ps : p_id <$> update_likes likes id ps = p_id <$> ps.
Proof.
  unfold update_likes. rewrite <-list_fmap_compose. apply list_fmap_ext.
  intros i p _. simpl. by case_decide.
Qed.

Lemma consistent_add_post b s : consistent s → consistent (add_post b s).2.
Proof.
  intros Hs. unfold add_post. case_decide; [|done].
  destruct Hs as [[Hps Hcs] Hasc Hrange Hlikes Hcasc Hcrange Hpost Hparent Hfk Hpairs Hbm].
  destruct (to_sql (post_body.title b)) as [t|];
    [destruct (to_sql (post_body.content b)) as [c|]|].
  2-3: split; simpl; try done; try lia; intros p Hp; specialize (Hrange p Hp); lia.
  split; simpl; try done.
  - lia.
  - rewrite fmap_app. apply ascend_snoc; [done|].
    intros x (p & -> & Hp)%list_elem_of_fmap. specialize (Hrange p Hp). simpl. lia.
  - intros p [Hp| ->%list_elem_of_singleton]%elem_of_app; simpl; [|lia].
    specialize (Hrange p Hp). lia.
  - intros p [Hp| ->%list_elem_of_singleton]%elem_of_app; simpl; [by apply Hlikes|].
    constructor.
  - intros c0 Hc. eapply references_mono; [|by apply Hpost].
    intros r Hr. exists r. split; [|done]. apply elem_of_app. by left.
  - intros bm Hb. rewrite Exists_app. left. by apply Hbm.
Qed.

Lemma consistent_like_post id u s :
  consistent s → consistent (with_tables (put_post_like id u (tables s)).2 s).
Proof.
  intros [[Hps Hcs] Hasc Hrange Hlikes Hcasc Hcrange Hpost Hparent Hfk Hpairs Hbm].
  unfold put_post_like.
  destruct (filter (λ p, p_id p = id) (posts (tables s))) as [|row rows] eqn:Hrows.
  { by destruct s. }
  apply filter_cons_inv in Hrows as [Hid Hrow].
  split; simpl; try done.
  - by rewrite p_id_update_likes.
  - intros p (p0 & -> & Hp0)%list_elem_of_fmap. specialize (Hrange p0 Hp0).
    by case_decide.
  - intros p (p0 & -> & Hp0)%list_elem_of_fmap. case_decide; simpl.
    + apply toggle_NoDup. by apply Hlikes.
    + by apply Hlikes.
  - intros c Hc. eapply references_mono; [|by apply Hpost].
    intros r Hr. eexists. split; [apply list_elem_of_fmap; eauto|].
    simpl. by case_decide.
  - intros bm Hb. apply Exists_update_likes. by apply Hbm.
Qed.

(** What [POST /api/comments] does to the tables other than
    [notifications]. *)
Lemma createComment_tables out b d :
  let d' := (createComment out b d).2 in
  posts d' = posts d ∧ comment_likes d' = comment_likes d
  ∧ ((comments d' = comments d
      ∧ (comments_seq d' = comments_seq d ∨ comments_seq d' = comments_seq d + 1))
     ∨ ∃ c, comments d' = comments d ++ [c]
            ∧ comments_seq d' = comments_seq d + 1
            ∧ c_id c = comments_seq d
            ∧ references p_id (posts d) (c_postid c)
            ∧ references c_id (comments d ++ [c]) (c_parent_id c)).
Proof.
  unfold createComment. destruct (out 0%nat); [simpl; tauto|].
  unfold insert_comment.
  destruct (to_sql (content b)) as [text|]; [|simpl; tauto].
  case_decide as Hrefs; [|simpl; tauto].
  set (c := Comment _ _ _ _ _) in *.
  set (d1 := with_comments _ _ _).
  assert (∀ d2, posts d2 = posts d1 → comment_likes d2 = comment_likes d1 →
                comments d2 = comments d1 → comments_seq d2 = comments_seq d1 →
    posts d2 = posts d ∧ comment_likes d2 = comment_likes d
    ∧ ((comments d2 = comments d
        ∧ (comments_seq d2 = comments_seq d ∨ comments_seq d2 = comments_seq d + 1))
       ∨ ∃ c, comments d2 = comments d ++ [c]
              ∧ comments_seq d2 = comments_seq d + 1
              ∧ c_id c = comments_seq d
              ∧ references p_id (posts d) (c_postid c)
              ∧ references c_id (comments d ++ [c]) (c_parent_id c))) as Hd1.
  { intros d2 -> -> Hc Hs. do 2 (split; [done|]). right. exists c.
    rewrite Hc, Hs. destruct Hrefs. done. }
  destruct (out 1%nat); [by apply Hd1|].
  destruct (deriveRecipient b d1) as [[u t]|]; [|by apply Hd1].
  destruct (out 2%nat); [by apply Hd1|].
  unfold insert_notification. destruct (to_sql (postid b)); by apply Hd1.
Qed.

Lemma consistent_create_comment out b s :
  consistent s → consistent (with_tables (createComment out b (tables s)).2 s).
Proof.
  intros [[Hps Hcs] Hasc Hrange Hlikes Hcasc Hcrange Hpost Hparent Hfk Hpairs Hbm].
  destruct (createComment_tables out b (tables s)) as (Hp & Hl & Hc).
  set (d' := (createComment out b (tables s)).2) in *.
  destruct Hc as [[Hc Hseq]|(c & Hc & Hseq & Hid & Hrefp & Hrefc)].
  - split; simpl; rewrite ?Hp, ?Hl, ?Hc; try done.
    + split; [done|]. lia.
    + intros c Hin. specialize (Hcrange c Hin). lia.
    + unfold likes_fk. rewrite Hl, Hc. apply Hfk.
  - split; simpl; rewrite ?Hp, ?Hl, ?Hc; try done.
    + split; [done|]. lia.
    + rewrite fmap_app. apply ascend_snoc; [done|].
      intros x (c0 & -> & Hin)%list_elem_of_fmap. specialize (Hcrange c0 Hin).
      simpl. lia.
    + intros c0 [Hin| ->%list_elem_of_singleton]%elem_of_app; [|lia].
      specialize (Hcrange c0 Hin). lia.
    + intros c0 [Hin| ->%list_elem_of_singleton]%elem_of_app; [by apply Hpost|done].
    + intros c0 p [Hin| ->%list_elem_of_singleton]%elem_of_app Hpar.
      * destruct (Hparent c0 p Hin Hpar) as [Hle Hex]. split; [done|].
        rewrite Exists_app. by left.
      * rewrite Hpar in Hrefc. simpl in Hrefc. split; [|done].
        apply Exists_exists in Hrefc as (q & Hq & <-).
        apply elem_of_app in Hq as [Hq| ->%list_elem_of_singleton]; [|lia].
        specialize (Hcrange q Hq). lia.
    + unfold likes_fk. rewrite Hl, Hc. intros l Hin.
      destruct (Hfk l Hin) as (c0 & Hc0 & Hid0). exists c0. split; [|done].
      apply elem_of_app. by left.
Qed.

Lemma put_comment_like_posts id u d :
  posts (put_comment_like id u d).2 = posts d
  ∧ comments_seq (put_comment_like id u d).2 = comments_seq d.
Proof.
  unfold put_comment_like, insert_like.
  destruct (filter (same_pair id u) (comment_likes d)); [|done].
  repeat case_decide; done.
Qed.

Lemma consistent_like_comment id u s :
  consistent s → consistent (with_tables (put_comment_like id u (tables s)).2 s).
Proof.
  intros [[Hps Hcs] Hasc Hrange Hlikes Hcasc Hcrange Hpost Hparent Hfk Hpairs Hbm].
  destruct (put_comment_like_posts id u (tables s)) as [Hp Hseq].
  pose proof (put_comment_like_comments id u (tables s)) as Hc.
  pose proof (put_comment_like_rows id u (tables s)) as Hl.
  pose proof (likes_fk_put id u (tables s) Hfk) as Hfk'.
  split; simpl; rewrite ?Hp, ?Hc, ?Hseq; try done.
  rewrite Hl. repeat case_decide.
  - eapply sublist_NoDup; [done|]. apply fmap_sublist, sublist_filter.
  - rewrite fmap_app. apply NoDup_app. split; [done|]. split; [|apply NoDup_singleton].
    intros [k v] (l & Heq & Hin)%list_elem_of_fmap Heq'%list_elem_of_singleton.
    simpl in Heq'. rewrite Heq' in Heq. injection Heq as Hk Hv.
    match goal with H : ¬ Exists (same_pair id u) _ |- _ => apply H end.
    apply Exists_exists. exists l. split; [done|]. by split.
  - done.
Qed.

(** The cascade leaves no reply behind whose parent is gone. *)
Lemma cascade_parent (P : comment → Prop) `{!∀ c, Decision (P c)} cs c p :
  let rest := filter (λ c, ¬ P c) cs in
  let kept := cascade (length rest) (c_id <$> filter P cs) rest in
  c ∈ kept → c_parent_id c = Some p →
  Exists (λ q, c_id q = p) cs → Exists (λ q, c_id q = p) kept.
Proof.
  intros rest kept Hc Hpar Hex.
  destruct (decide (Exists (λ q, c_id q = p) kept)) as [|Hno]; [done|]. exfalso.
  apply cascade_spec in Hc as [Hc Hnot]; [|done].
  apply Exists_exists in Hex as (q & Hq & Hid).
  destruct (decide (P q)) as [HP|HP].
  - apply Hnot. eapply doomed_child; [done..|].
    apply list_elem_of_fmap. exists q. split; [done|]. by apply list_elem_of_filter.
  - assert (q ∈ rest) as Hrest by (by apply list_elem_of_filter).
    apply Hno, Exists_exists. exists q. split; [|done].
    apply cascade_spec; [done|]. split; [done|]. intros Hq'.
    apply Hnot. eapply doomed_below; [done| |done]. by rewrite Hid.
Qed.

(** Removing rows keeps the store consistent when no kept row refers to a
    removed one and the likes of the removed comments go with them. *)
Lemma consistent_shrink s ps cs bs :
  consistent s →
  ps `sublist_of` posts (tables s) →
  cs `sublist_of` comments (tables s) →
  bs `sublist_of` bookmarks s →
  (∀ c, c ∈ cs → references p_id ps (c_postid c)) →
  (∀ c p, c ∈ cs → c_parent_id c = Some p → Exists (λ q, c_id q = p) cs) →
  (∀ b, b ∈ bs → Exists (λ p, p_id p = b_postid b) ps) →
  consistent
    {| tables :=
         {| posts := ps;
            comments := cs;
            comment_likes :=
              filter (λ l, Exists (λ c, c_id c = l_comment_id l) cs
                           ∨ ¬ Exists (λ c, c_id c = l_comment_id l)
                                 (comments (tables s)))
                     (comment_likes (tables s));
            notifications := notifications (tables s);
            comments_seq := comments_seq (tables s);
            comment_likes_seq := comment_likes_seq (tables s);
            notifications_seq := notifications_seq (tables s) |};
       bookmarks := bs;
       posts_seq := posts_seq s |}.
Proof.
  intros [[Hps Hcs] Hasc Hrange Hlikes Hcasc Hcrange Hpost Hparent Hfk Hpairs Hbm]
    Hsubp Hsubc Hsubb Hpost' Hparent' Hbm'.
  split; simpl; try done.
  - apply (StronglySorted_sublist _ _ (p_id <$> posts (tables s)));
      [by apply fmap_sublist|done].
  - intros p Hp. apply Hrange. by eapply elem_of_sublist.
  - intros p Hp. apply Hlikes. by eapply elem_of_sublist.
  - apply (StronglySorted_sublist _ _ (c_id <$> comments (tables s)));
      [by apply fmap_sublist|done].
  - intros c Hc. apply Hcrange. by eapply elem_of_sublist.
  - intros c p Hc Hpar. split; [|by eapply Hparent'].
    eapply Hparent; [|done]. by eapply elem_of_sublist.
  - intros l [[Hex|Hno] Hin]%list_elem_of_filter; simpl.
    + by apply Exists_exists in Hex.
    + destruct Hno. destruct (Hfk l Hin) as (c & ? & ?). apply Exists_exists. eauto.
  - eapply sublist_NoDup; [done|]. apply fmap_sublist, sublist_filter.
Qed.

Lemma consistent_delete_comments ids s :
  consistent s → consistent (with_tables (delete_comments ids (tables s)) s).
Proof.
  intros Hs.
  apply (consistent_shrink s (posts (tables s))
           (comments (delete_comments ids (tables s))) (bookmarks s) Hs).
  - reflexivity.
  - unfold delete_comments. simpl. etrans; [apply cascade_sublist|apply sublist_filter].
  - reflexivity.
  - intros c Hc. apply (comment_post_fk s Hs).
    eapply elem_of_sublist; [exact Hc|]. unfold delete_comments. simpl.
    etrans; [apply cascade_sublist|apply sublist_filter].
  - intros c p Hc Hpar. unfold delete_comments in *. simpl in *.
    apply (cascade_parent (λ c, c_id c ∈ ids) (comments (tables s)) c p Hc Hpar).
    apply (comment_parent_fk s Hs c p); [|done].
    eapply elem_of_sublist; [exact Hc|].
    etrans; [apply cascade_sublist|apply sublist_filter].
  - apply (bookmark_post_fk s Hs).
Qed.

Lemma consistent_delete_post id s : consistent s → consistent (delete_post id s).2.
Proof.
  intros Hs. unfold delete_post. case_decide as Hex; [|done]. simpl.
  set (rest := filter (λ c, c_postid c ≠ Some id) (comments (tables s))).
  set (kept := cascade (length rest) _ rest).
  assert (kept `sublist_of` rest) as Hkept by apply cascade_sublist.
  assert (rest `sublist_of` comments (tables s)) as Hrest by apply sublist_filter.
  apply (consistent_shrink s _ kept _ Hs).
  - apply sublist_filter.
  - by etrans.
  - apply sublist_filter.
  - intros c Hc.
    assert (c ∈ rest) as [Hpost Hin]%list_elem_of_filter by (by eapply elem_of_sublist).
    pose proof (comment_post_fk s Hs c Hin) as Href.
    destruct (c_postid c) as [k|]; simpl in *; [|done].
    apply Exists_exists in Href as (p & Hp & Hid). apply Exists_exists.
    exists p. split; [|done]. apply list_elem_of_filter. split; [congruence|done].
  - intros c p Hc Hpar.
    apply (cascade_parent (λ c, c_postid c = Some id) (comments (tables s)) c p Hc Hpar).
    apply (comment_parent_fk s Hs c p); [|done].
    eapply elem_of_sublist; [done|]. by etrans.
  - intros b [Hb Hin]%list_elem_of_filter.
    pose proof (bookmark_post_fk s Hs b Hin) as Href.
    apply Exists_exists in Href as (p & Hp & Hid). apply Exists_exists.
    exists p. split; [|done]. apply list_elem_of_filter. split; [congruence|done].
Qed.

Lemma reachable_consistent s : reachable s → consistent s.
Proof.
  induction 1 as [|s r s' _ IH Hstep]; [apply consistent_init|].
  destruct r as [b|id u|out b|id u|id|id]; simpl in Hstep.
  - subst s'. by apply consistent_add_post.
  - subst s'. by apply consistent_like_post.
  - subst s'. by apply consistent_create_comment.
  - subst s'. by apply consistent_like_comment.
  - subst s'. by apply consistent_delete_post.
  - destruct Hstep as (fuel & r & Hdel & ->). unfold delete_comment in Hdel.
    destruct (to_delete fuel (comments (tables s)) id) as [ids|]; [|done].
    simpl in Hdel. injection Hdel as _ <-. by apply consistent_delete_comments.
Qed.

(** ** The store the requests build *)

Lemma busy_store_reachable : reachable busy_store.
Proof.
  change busy_store with busy_history. unfold busy_history. cbv zeta.
  eapply (reachable_step _ (LikeComment _ _)); [|exact eq_refl].
  do 4 (eapply (reachable_step _ (CreateComment no_outage _)); [|exact eq_refl]).
  do 2 (eapply (reachable_step _ (AddPost _)); [|exact eq_refl]).
  apply reachable_init.
Qed.

(** X10. The requests that write ([POST /api/post], [PUT /api/posts/:id/like],
    [POST /api/comments], [PUT /api/comments/:id/like],
    [DELETE /api/post/:id], [DELETE /api/comments/:id]) keep what the
    schema promises, whether they succeed or throw: ids ascend in
    insertion order and lie below their sequence, like arrays and like
    rows hold no user twice, and every post, parent and comment a row
    refers to is stored. A parent is never younger than its reply. *)
Theorem requests_keep_consistency (r : request) (s s' : store) :
  consistent s → serves r s s' → consistent s'.
Proof.
  intros Hs. destruct r as [b|id u|out b|id u|id|id]; simpl.
  - intros ->. by apply consistent_add_post.
  - intros ->. by apply consistent_like_post.
  - intros ->. by apply consistent_create_comment.
  - intros ->. by apply consistent_like_comment.
  - intros ->. by apply consistent_delete_post.
  - intros (fuel & r & Hdel & ->). unfold delete_comment in Hdel.
    destruct (to_delete fuel (comments (tables s)) id) as [ids|]; [|done].
    simpl in Hdel. injection Hdel as _ <-. by apply consistent_delete_comments.
Qed.

Lemma requests_keep_consistency_witness :
  consistent busy_store
  ∧ consistent (delete_post 1 busy_store).2.
Proof.
  assert (consistent busy_store) as Hs
    by apply reachable_consistent, busy_store_reachable.
  split; [exact Hs|].
  apply (requests_keep_consistency (DeletePost 1) busy_store _ Hs). reflexivity.
Defined.

Lemma reachable_bookmarks s : reachable s → bookmarks s = [].
Proof.
  induction 1 as [|s r s' _ IH Hstep]; [done|].
  destruct r as [b|id u|out b|id u|id|id]; simpl in Hstep.
  - subst s'. unfold add_post. repeat case_match; done.
  - by subst s'.
  - by subst s'.
  - by subst s'.
  - subst s'. unfold delete_post. case_decide; [|done]. simpl. by rewrite IH.
  - destruct Hstep as (fuel & r & _ & ->). done.
Qed.

(** X11. On a store built from a fresh database by the routes of the server
    alone, the schema's promises hold, and since no route writes a
    bookmark, [GET /api/bookmarks/:user_id] answers the empty list for
    every user. *)
Theorem routes_write_no_bookmark (s : store) (user_id : string) :
  reachable s → consistent s ∧ get_bookmarks user_id s = [].
Proof.
  intros Hs. split; [by apply reachable_consistent|].
  unfold get_bookmarks. by rewrite (reachable_bookmarks s Hs).
Qed.

Lemma routes_write_no_bookmark_witness :
  consistent busy_store ∧ get_bookmarks "u1" busy_store = [].
Proof. exact (routes_write_no_bookmark busy_store "u1" busy_store_reachable). Defined.

(** ** Deleting a comment of a consistent store *)

Lemma NoDup_same_key {R K} (key : R → K) (l : list R) (x y : R) :
  NoDup (key <$> l) → x ∈ l → y ∈ l → key x = key y → x = y.
Proof.
  intros Hnd Hx Hy Heq.
  apply list_elem_of_lookup in Hx as [i Hi]. apply list_elem_of_lookup in Hy as [j Hj].
  assert (i = j) as ->; [|congruence].
  eapply NoDup_lookup; [done| |]; rewrite list_lookup_fmap.
  - by rewrite Hi.
  - rewrite Hj. simpl. by rewrite Heq.
Qed.

(** A round of the recursive query that starts from no comment that is
    its own parent does not see such comments. *)
Lemma cte_step_skip cs work :
  (∀ c, c ∈ cs → c_parent_id c = Some (c_id c) → c_id c ∉ work) →
  cte_step cs work
  = cte_step (filter (λ c, c_parent_id c ≠ Some (c_id c)) cs) work.
Proof.
  unfold cte_step. induction cs as [|c cs IH]; intros Hself; [done|].
  rewrite filter_cons, bind_cons.
  rewrite IH by (intros c' Hc'; apply Hself; by right).
  case_decide as Hc; [by rewrite bind_cons|].
  assert (c_parent_id c = Some (c_id c)) as Hpar
    by (destruct (decide (c_parent_id c = Some (c_id c))); tauto).
  assert (c_id c ∉ work) as Hout by (apply Hself; [left|done]).
  assert (∀ td, td ∈ work → c_parent_id c ≠ Some td) as Hno.
  { intros td Htd Heq. rewrite Hpar in Heq. injection Heq as <-. done. }
  rewrite (elem_of_nil_inv (work ≫= _)); [done|].
  intros x (td & Hx & Htd)%list_elem_of_bind.
  rewrite decide_False in Hx by by apply Hno. by apply elem_of_nil in Hx.
Qed.

Lemma cte_rounds_skip fuel cs work :
  NoDup (c_id <$> cs) →
  (∀ c, c ∈ cs → c_parent_id c = Some (c_id c) → c_id c ∉ work) →
  cte_rounds fuel cs work
  = cte_rounds fuel (filter (λ c, c_parent_id c ≠ Some (c_id c)) cs) work.
Proof.
  intros Hnd. revert work. induction fuel as [|fuel IH]; intros work Hself.
  - by destruct work.
  - destruct work as [|x work]; [done|]. rewrite !cte_rounds_cons.
    rewrite <-cte_step_skip by done. rewrite IH; [done|].
    intros c Hc Hpar (c' & p & Hc' & Hpar' & Hp & Hid)%elem_of_cte_step.
    assert (c' = c) as -> by (by eapply NoDup_same_key).
    apply (Hself c Hc Hpar). congruence.
Qed.

Lemma consistent_ranked s :
  consistent s →
  ranked Z.to_nat (filter (λ c, c_parent_id c ≠ Some (c_id c)) (comments (tables s))).
Proof.
  intros Hs c p [Hself Hc]%list_elem_of_filter Hpar.
  destruct (comment_parent_fk s Hs c p Hc Hpar) as [Hle _].
  pose proof (comment_ids_drawn s Hs c Hc) as Hid.
  assert (p ≠ c_id c) by congruence. lia.
Qed.

(** In a consistent store the recursive query of a delete finishes for
    every comment that is not its own parent. *)
Lemma consistent_to_delete s id :
  consistent s → ¬ self_parent (comments (tables s)) id →
  ∃ n, ∀ fuel, (n ≤ fuel)%nat → is_Some (to_delete fuel (comments (tables s)) id).
Proof.
  intros Hs Hself. set (cs := comments (tables s)).
  set (cs' := filter (λ c, c_parent_id c ≠ Some (c_id c)) cs).
  set (bound := S (max_list (Z.to_nat ∘ c_id <$> cs'))).
  exists (S bound). intros fuel Hfuel. unfold to_delete.
  rewrite cte_rounds_skip.
  - destruct (cte_rounds_finishes Z.to_nat cs' bound (consistent_ranked s Hs))
      with (n := bound) (lb := O) (work := c_id <$> filter (λ c, c_id c = id) cs)
      as [ids Hids].
    + intros c Hc. unfold bound. apply Nat.lt_succ_r, max_list_elem_of_le.
      apply list_elem_of_fmap. by exists c.
    + lia.
    + intros; lia.
    + exists ids. by eapply cte_rounds_mono.
  - apply ascend_NoDup, (comment_ids_ascend s Hs).
  - intros c Hc Hpar (c' & Hid & [Hid' _]%list_elem_of_filter)%list_elem_of_fmap.
    apply Hself, Exists_exists. exists c. split; [done|]. split; congruence.
Qed.

(** X12. [DELETE /api/comments/:id] on a consistent store. An id outside the
    range of INTEGER makes the statement fail: the handler throws and the
    store is left as it is. For a comment that is its own parent the
    recursive query never ends: no answer, nothing deleted. For every
    other id in the range it ends and the answer is 204: the comments that
    remain are those outside the subtree of the id, the like rows that
    remain are those of the remaining comments, posts and notifications
    are as before, the store is consistent again, and a second delete of
    the id answers 204 and changes nothing. *)
Theorem delete_comment_finishes (s : store) (id : Z) :
  consistent s →
  let cs := comments (tables s) in
  (¬ int4 id → ∀ fuel, route_delete_comment fuel id (tables s) = Some (Threw, tables s))
  ∧ (int4 id → self_parent cs id →
     ∀ fuel, route_delete_comment fuel id (tables s) = None)
  ∧ (int4 id → ¬ self_parent cs id →
     ∃ n, ∀ fuel, (n ≤ fuel)%nat →
       ∃ d', route_delete_comment fuel id (tables s) = Some (Status 204, d')
         ∧ (∀ c, c ∈ comments d' ↔ c ∈ cs ∧ ¬ in_subtree cs id (c_id c))
         ∧ (∀ l, l ∈ comment_likes d'
                 ↔ l ∈ comment_likes (tables s)
                   ∧ ¬ in_subtree cs id (l_comment_id l))
         ∧ posts d' = posts (tables s)
         ∧ notifications d' = notifications (tables s)
         ∧ consistent (with_tables d' s)
         ∧ ∀ fuel', route_delete_comment fuel' id d' = Some (Status 204, d')).
Proof.
  intros Hs cs. unfold route_delete_comment. split_and!.
  - intros Hint fuel. by rewrite decide_False.
  - intros Hint (c & Hc & Hcid & Hpar)%Exists_exists fuel.
    rewrite decide_True by done. unfold delete_comment, to_delete.
    rewrite (cte_rounds_cycle fuel _ _ c); [done|done|congruence|].
    apply list_elem_of_fmap. exists c. split; [done|]. by apply list_elem_of_filter.
  - intros Hint Hself. destruct (consistent_to_delete s id Hs Hself) as [n Hn].
    exists n. intros fuel Hfuel. destruct (Hn fuel Hfuel) as [ids Hids].
    rewrite decide_True by done.
    pose proof (to_delete_subtree _ _ _ _ Hids) as Hsub.
    assert (comments (delete_comments ids (tables s))
            = filter (λ c, c_id c ∉ ids) cs) as Hleft.
    { apply delete_comments_closed.
      intros c p Hc Hpar Hp. apply Hsub. eapply subtree_child; [done..|].
      by apply Hsub. }
    exists (delete_comments ids (tables s)). unfold delete_comment at 1.
    rewrite Hids. split; [reflexivity|]. split_and!; [| |done..| |].
    + intros c. rewrite Hleft, list_elem_of_filter, Hsub. tauto.
    + intros l.
      assert (comment_likes (delete_comments ids (tables s))
              = filter (λ l, Exists (λ c, c_id c = l_comment_id l)
                               (filter (λ c, c_id c ∉ ids) cs)
                             ∨ ¬ Exists (λ c, c_id c = l_comment_id l) cs)
                  (comment_likes (tables s))) as ->.
      { unfold delete_comments in *. simpl in *. by rewrite Hleft. }
      fold cs in Hsub. rewrite list_elem_of_filter, <-Hsub. split.
      * intros [[Hex|Hno] Hl].
        -- split; [done|].
           apply Exists_exists in Hex as (c & [Hc _]%list_elem_of_filter & <-). done.
        -- destruct Hno. destruct (like_comment_fk s Hs l Hl) as (c & ? & ?).
           apply Exists_exists. eauto.
      * intros [Hl Hout]. split; [|done]. left.
        destruct (like_comment_fk s Hs l Hl) as (c & Hc & Hid).
        apply Exists_exists. exists c. split; [|done].
        apply list_elem_of_filter. split; [congruence|done].
    + by apply consistent_delete_comments.
    + intros fuel'. rewrite decide_True by done. apply delete_comment_missing.
      rewrite Exists_exists, Hleft.
      intros (c & [Hc Hin]%list_elem_of_filter & Hcid).
      apply Hc, Hsub. subst id. by eapply subtree_root.
Qed.

Lemma delete_comment_finishes_witness :
  consistent busy_store
  ∧ route_delete_comment 0 2147483648 (tables busy_store)
    = Some (Threw, tables busy_store)
  ∧ self_parent (comments (tables busy_store)) 3
  ∧ (∀ fuel, route_delete_comment fuel 3 (tables busy_store) = None)
  ∧ ¬ self_parent (comments (tables busy_store)) 1
  ∧ ∃ n d', route_delete_comment n 1 (tables busy_store) = Some (Status 204, d')
            ∧ posts d' = posts (tables busy_store)
            ∧ consistent (with_tables d' busy_store).
Proof.
  assert (consistent busy_store) as Hs
    by apply reachable_consistent, busy_store_reachable.
  assert (self_parent (comments (tables busy_store)) 3) as H3
    by (apply (bool_decide_unpack _); vm_compute; exact I).
  assert (¬ self_parent (comments (tables busy_store)) 1) as H1
    by (apply (bool_decide_unpack _); vm_compute; exact I).
  destruct (delete_comment_finishes busy_store 2147483648 Hs) as (Hout & _ & _).
  destruct (delete_comment_finishes busy_store 3 Hs) as (_ & Hloop & _).
  destruct (delete_comment_finishes busy_store 1 Hs) as (_ & _ & Hends).
  split; [exact Hs|]. split; [apply Hout; unfold int4; lia|].
  split; [exact H3|]. split; [apply Hloop; [unfold int4; lia|exact H3]|].
  split; [exact H1|].
  destruct Hends as [n Hn]; [unfold int4; lia|exact H1|].
  destruct (Hn n (le_n n)) as (d' & Hdel & _ & _ & Hposts & _ & Hcons & _).
  exists n, d'. auto.
Defined.

(** C4. The claim fails on a store that the routes build from a fresh
    database. [busy_store] holds comment 3, which [POST /api/comments]
    accepted with [parent_id] 3, the id the row was about to get (the
    foreign key is checked once the row is in). [DELETE /api/comments/3]
    then joins the comment to itself in every round of the recursive
    query, which has no cycle check and never ends: nothing is deleted and
    no 204 is sent, where the handler is commented "Delete a comment or
    reply (and all its children)". *)
Theorem delete_comment_self_parent_hangs :
  reachable busy_store
  ∧ Comment 3 (Some 1) (Some "u3"%string) "c" (Some 3)
      ∈ comments (tables busy_store)
  ∧ ∀ fuel, route_delete_comment fuel 3 (tables busy_store) = None.
Proof.
  split; [apply busy_store_reachable|].
  assert (Comment 3 (Some 1) (Some "u3"%string) "c" (Some 3)
            ∈ comments (tables busy_store)) as Hin
    by (vm_compute; do 2 right; left).
  split; [exact Hin|]. intros fuel.
  unfold route_delete_comment. rewrite decide_True by (unfold int4; lia).
  unfold delete_comment, to_delete.
  rewrite (cte_rounds_cycle fuel _ _ _ Hin); [done|reflexivity|].
  vm_compute. left.
Qed.

(** ** Listing posts *)

Lemma newer_strict (l : list post) :
  StronglySorted newer l → NoDup (p_id <$> l) →
  StronglySorted (λ p q, p_id q < p_id p) l.
Proof.
  induction 1 as [|p l Hs IH Hall]; intros Hnd; [constructor|].
  rewrite fmap_cons in Hnd. apply NoDup_cons in Hnd as [Hp Hnd].
  constructor; [by apply IH|].
  rewrite Forall_forall in Hall |- *. intros q Hq.
  specialize (Hall q Hq). unfold newer in Hall.
  assert (p_id q ≠ p_id p); [|lia].
  intros Heq. apply Hp. rewrite <-Heq. apply list_elem_of_fmap. by exists q.
Qed.

(** Of the lists that order the same rows with unique ids by descending
    id there is one. *)
Lemma newer_unique (l1 l2 : list post) :
  NoDup (p_id <$> l1) → l1 ≡ₚ l2 →
  StronglySorted newer l1 → StronglySorted newer l2 → l1 = l2.
Proof.
  intros Hnd Hperm Hs1 Hs2. apply (StronglySorted_unique_strong newer); [|done..].
  intros x y Hx Hy Hxy Hyx. rewrite <-Hperm in Hy. unfold newer in *.
  eapply (NoDup_same_key p_id); [done..|lia].
Qed.

Lemma get_posts_reverse s :
  consistent s → get_posts s = reverse (posts (tables s)).
Proof.
  intros Hs. pose proof (post_ids_ascend s Hs) as Hasc.
  unfold get_posts. apply newer_unique.
  - rewrite merge_sort_Permutation. by apply ascend_NoDup.
  - by rewrite merge_sort_Permutation, reverse_Permutation.
  - apply (StronglySorted_merge_sort newer).
  - revert Hasc. generalize (posts (tables s)). clear.
    induction l as [|p l IH]; intros Hasc; [constructor|].
    rewrite fmap_cons in Hasc. apply StronglySorted_inv in Hasc as [Hasc Hall].
    rewrite reverse_cons. apply StronglySorted_app_2; [|by apply IH|repeat constructor].
    intros x y Hx ->%list_elem_of_singleton. rewrite elem_of_reverse in Hx.
    rewrite Forall_forall in Hall. unfold newer.
    assert (p_id p < p_id x); [|lia]. apply Hall, list_elem_of_fmap. by exists x.
Qed.

(** The list of a user is the list of all posts, cut down. *)
Lemma get_myposts_filter (s : store) (user_id : string) :
  NoDup (p_id <$> posts (tables s)) →
  get_myposts user_id s
  = filter (λ p, p_user_id p = Some user_id) (get_posts s).
Proof.
  intros Hnd. unfold get_posts, get_myposts.
  pose proof (merge_sort_Permutation newer (posts (tables s))) as Hperm.
  pose proof (StronglySorted_merge_sort newer (posts (tables s))) as Hsort.
  apply newer_unique.
  - rewrite merge_sort_Permutation.
    eapply sublist_NoDup; [done|]. apply fmap_sublist, sublist_filter.
  - rewrite merge_sort_Permutation. by rewrite Hperm.
  - apply (StronglySorted_merge_sort newer).
  - eapply StronglySorted_sublist; [apply sublist_filter|done].
Qed.

(** X13. [GET /api/posts] and [GET /api/myposts/:user_id] on a table with
    unique post ids: every post is listed once, in strictly descending
    order of id, and the list of a user is the list of all posts cut down
    to the posts of that user; posts without a user are in no user's
    list. *)
Theorem get_posts_answer (s : store) (user_id : string) :
  NoDup (p_id <$> posts (tables s)) →
  get_posts s ≡ₚ posts (tables s)
  ∧ StronglySorted (λ p q, p_id q < p_id p) (get_posts s)
  ∧ get_myposts user_id s
    = filter (λ p, p_user_id p = Some user_id) (get_posts s).
Proof.
  intros Hnd. split; [apply merge_sort_Permutation|]. split.
  - apply newer_strict; [apply (StronglySorted_merge_sort newer)|].
    unfold get_posts. by rewrite merge_sort_Permutation.
  - by apply get_myposts_filter.
Qed.

Lemma get_posts_answer_witness :
  NoDup (p_id <$> posts (tables busy_store))
  ∧ get_myposts "u2" busy_store
    = filter (λ p, p_user_id p = Some "u2"%string) (get_posts busy_store).
Proof.
  assert (NoDup (p_id <$> posts (tables busy_store))) as Hnd
    by (apply (bool_decide_unpack _); vm_compute; exact I).
  split; [exact Hnd|].
  exact (proj2 (proj2 (get_posts_answer busy_store "u2" Hnd))).
Defined.

(** X14. [POST /api/post] on a consistent store. A title that has more than
    spaces after its first 255 characters, or a category after its first
    50, makes the insert fail before an id is drawn, a missing title or
    content after: the handler throws and the list of posts stays as it
    is. Otherwise the answer is the new post,
    with the next id of the sequence, the user of the body and no likes;
    [GET /api/posts] then lists it first, before the posts listed so far,
    and so does [GET /api/myposts/:user_id] for its user and for no
    other. *)
Theorem add_post_answer (b : post_body.t) (s : store) :
  consistent s →
  let s' := (add_post b s).2 in
  let accepted :=
    fits 255 (to_sql (post_body.title b)) ∧ fits 50 (to_sql (post_body.category b))
    ∧ is_Some (to_sql (post_body.title b)) ∧ is_Some (to_sql (post_body.content b)) in
  (¬ accepted →
   (add_post b s).1 = Threw ∧ tables s' = tables s ∧ get_posts s' = get_posts s)
  ∧ (accepted →
     ∃ p, (add_post b s).1 = Json p
       ∧ p = Post (posts_seq s) (to_sql (post_body.user_id b)) (Some [])
       ∧ get_posts s' = p :: get_posts s
       ∧ ∀ u, get_myposts u s'
              = if decide (p_user_id p = Some u)
                then p :: get_myposts u s else get_myposts u s).
Proof.
  intros Hs s' accepted.
  pose proof (consistent_add_post b s Hs) as Hs'. fold s' in Hs'.
  assert (NoDup (p_id <$> posts (tables s))) as Hnd
    by apply ascend_NoDup, (post_ids_ascend s Hs).
  assert (NoDup (p_id <$> posts (tables s'))) as Hnd'
    by apply ascend_NoDup, (post_ids_ascend s' Hs').
  subst s' accepted. unfold add_post in *.
  case_decide as Hfits.
  - destruct (to_sql (post_body.title b)) as [t|];
      [destruct (to_sql (post_body.content b)) as [c|]|].
    + split; [intros Hno; destruct Hno; destruct Hfits; eauto|]. intros _.
      cbn [fst snd] in *.
      set (p := Post (posts_seq s) (to_sql (post_body.user_id b)) (Some [])) in *.
      set (s' := Store _ _ _) in *.
      exists p. split; [done|]. split; [done|].
      assert (get_posts s' = p :: get_posts s) as Hall.
      { rewrite !get_posts_reverse by done. unfold s'. simpl.
        by rewrite reverse_snoc. }
      split; [done|]. intros u.
      rewrite (get_myposts_filter s' u Hnd'), Hall.
      rewrite (get_myposts_filter s u Hnd).
      rewrite filter_cons. by case_decide.
    + split; [done|]. intros (_ & _ & _ & [? [=]]).
    + split; [done|]. intros (_ & _ & [? [=]] & _).
  - split; [done|]. intros (? & ? & _). tauto.
Qed.

Lemma add_post_answer_witness :
  consistent busy_store
  ∧ ∃ p, (add_post (post_body.Make (Value "three"%string) (Value "text"%string)
                      (Value "u2"%string) Undefined Null) busy_store).1 = Json p
       ∧ p_id p = 3.
Proof.
  assert (consistent busy_store) as Hs
    by apply reachable_consistent, busy_store_reachable.
  split; [exact Hs|].
  destruct (proj2 (add_post_answer
                     (post_body.Make (Value "three"%string) (Value "text"%string)
                        (Value "u2"%string) Undefined Null) busy_store Hs))
    as (p & Hp & -> & _).
  - split_and!; [apply Forall_nil_2|exact I|by eexists|by eexists].
  - exists (Post (posts_seq busy_store) (Some "u2"%string) (Some [])).
    split; [exact Hp|reflexivity].
Defined.

(** ** Bookmarks *)

(** A key that is unique selects one row. *)
Lemma filter_key_singleton {R} (key : R → Z) (l : list R) (x : R) :
  NoDup (key <$> l) → x ∈ l → filter (λ y, key y = key x) l = [x].
Proof.
  induction l as [|y l IH]; intros Hnd Hx; [by apply elem_of_nil in Hx|].
  rewrite fmap_cons in Hnd. apply NoDup_cons in Hnd as [Hy Hnd].
  rewrite filter_cons. apply elem_of_cons in Hx as [->|Hx].
  - rewrite decide_True by done. f_equal. apply filter_none.
    intros z Hz Heq. apply Hy. rewrite <-Heq. apply list_elem_of_fmap. by exists z.
  - rewrite decide_False; [by apply IH|].
    intros Heq. apply Hy. rewrite Heq. apply list_elem_of_fmap. by exists x.
Qed.

(** X15. [GET /api/bookmarks/:user_id] on a store with unique post ids whose
    bookmarks refer to stored posts: the answer has one post for every
    bookmark of the user, the post the bookmark names, latest bookmark
    first; a post the user bookmarked twice is listed twice. *)
Theorem get_bookmarks_answer (user_id : string) (s : store) :
  NoDup (p_id <$> posts (tables s)) →
  (∀ b, b ∈ bookmarks s → Exists (λ p, p_id p = b_postid b) (posts (tables s))) →
  ∃ mine,
    mine ≡ₚ filter (λ b, b_user_id b = user_id) (bookmarks s)
    ∧ StronglySorted later mine
    ∧ p_id <$> get_bookmarks user_id s = b_postid <$> mine
    ∧ ∀ p, p ∈ get_bookmarks user_id s → p ∈ posts (tables s).
Proof.
  intros Hnd Hfk. unfold get_bookmarks.
  set (mine := merge_sort later _).
  assert (mine ≡ₚ filter (λ b, b_user_id b = user_id) (bookmarks s)) as Hperm
    by apply merge_sort_Permutation.
  exists mine. split; [done|]. split; [apply (StronglySorted_merge_sort later)|].
  assert (∀ b, b ∈ mine → Exists (λ p, p_id p = b_postid b) (posts (tables s)))
    as Hmine.
  { intros b Hb. rewrite Hperm in Hb. apply list_elem_of_filter in Hb as [_ Hb].
    by apply Hfk. }
  split.
  - clear Hperm. induction mine as [|b mine IH]; [done|].
    rewrite bind_cons, fmap_app, fmap_cons, IH
      by (intros b' Hb'; apply Hmine; by right).
    assert (Exists (λ p, p_id p = b_postid b) (posts (tables s))) as Hex
      by (apply Hmine; left).
    apply Exists_exists in Hex as (p & Hp & Hid).
    rewrite <-Hid, (filter_key_singleton p_id) by done. done.
  - intros p (b & [_ Hp]%list_elem_of_filter & _)%list_elem_of_bind. done.
Qed.

Lemma get_bookmarks_answer_witness :
  NoDup (p_id <$> posts (tables shelf))
  ∧ (∀ b, b ∈ bookmarks shelf → Exists (λ p, p_id p = b_postid b) (posts (tables shelf)))
  ∧ ∃ mine,
      mine ≡ₚ filter (λ b, b_user_id b = "u1"%string) (bookmarks shelf)
      ∧ StronglySorted later mine
      ∧ p_id <$> get_bookmarks "u1" shelf = b_postid <$> mine
      ∧ ∀ p, p ∈ get_bookmarks "u1" shelf → p ∈ posts (tables shelf).
Proof.
  assert (NoDup (p_id <$> posts (tables shelf))) as Hnd
    by (apply (bool_decide_unpack _); vm_compute; exact I).
  assert (∀ b, b ∈ bookmarks shelf
               → Exists (λ p, p_id p = b_postid b) (posts (tables shelf))) as Hfk.
  { apply Forall_forall. apply (bool_decide_unpack _). vm_compute. exact I. }
  split; [exact Hnd|]. split; [exact Hfk|].
  exact (get_bookmarks_answer "u1" shelf Hnd Hfk).
Defined.

(** ** Views after a delete *)

Lemma delete_post_no_comment id s c :
  consistent s → c ∈ comments (tables (delete_post id s).2) → c_postid c ≠ Some id.
Proof.
  intros Hs. unfold delete_post. case_decide as Hex; simpl.
  - intros Hc.
    assert (c ∈ filter (λ c, c_postid c ≠ Some id) (comments (tables s))) as Hrest
      by (eapply elem_of_sublist; [exact Hc|apply cascade_sublist]).
    by apply list_elem_of_filter in Hrest as [? _].
  - intros Hc Hpost. apply Hex.
    pose proof (comment_post_fk s Hs c Hc) as Href. by rewrite Hpost in Href.
Qed.

(** X16. After [DELETE /api/post/:id] on a consistent store, for an id in the
    range of INTEGER: the post is in no list of posts or bookmarks, both
    comment views of the post are empty, and the store is consistent. *)
Theorem delete_post_then_views (id : Z) (s : store) :
  consistent s → int4 id →
  let s' := (route_delete_post id s).2 in
  (∀ p, p ∈ get_posts s' → p_id p ≠ id)
  ∧ (∀ u p, p ∈ get_myposts u s' ∨ p ∈ get_bookmarks u s' → p_id p ≠ id)
  ∧ route_full_thread id (tables s') = Json []
  ∧ (∀ limit offset,
       0 ≤ limit_number limit < 2 ^ 63 → 0 ≤ offset_number offset < 2 ^ 63 →
       route_thread id limit offset (tables s') = Json [])
  ∧ consistent s'.
Proof.
  intros Hs Hint. cbv zeta. unfold route_delete_post, route_full_thread, route_thread.
  rewrite !decide_True by done. set (s' := (delete_post id s).2).
  assert (∀ p, p ∈ posts (tables s') → p_id p ≠ id) as Hposts.
  { subst s'. unfold delete_post. case_decide as Hex; simpl.
    - by intros p [? _]%list_elem_of_filter.
    - intros p Hp Hid. apply Hex, Exists_exists. eauto. }
  assert (filter (λ c, c_postid c = Some id) (comments (tables s')) = []) as Hnone.
  { apply filter_none. intros c Hc. by apply (delete_post_no_comment id s c). }
  split_and!.
  - intros p Hp. apply Hposts. unfold get_posts in Hp.
    by rewrite merge_sort_Permutation in Hp.
  - intros u p [Hp|Hp].
    + apply Hposts. unfold get_myposts in Hp.
      rewrite merge_sort_Permutation in Hp. by apply list_elem_of_filter in Hp as [_ ?].
    + apply Hposts. unfold get_bookmarks in Hp.
      apply list_elem_of_bind in Hp as (b & Hp & _).
      by apply list_elem_of_filter in Hp as [_ ?].
  - unfold get_full_thread, thread_rows. by rewrite Hnone.
  - intros limit offset Hl Ho. rewrite decide_True by done.
    unfold get_thread, top_level_query, top_level.
    rewrite (row_count_Some _ Hl), (row_count_Some _ Ho). simpl.
    rewrite (filter_none (λ c, c_postid c = Some id ∧ c_parent_id c = None)).
    + by rewrite fmap_nil, drop_nil, take_nil.
    + intros c Hc [Hpost _]. by apply (delete_post_no_comment id s c).
  - by apply consistent_delete_post.
Qed.

Lemma delete_post_then_views_witness :
  consistent busy_store ∧ int4 1
  ∧ route_full_thread 1 (tables (route_delete_post 1 busy_store).2) = Json []
  ∧ consistent (route_delete_post 1 busy_store).2.
Proof.
  assert (consistent busy_store) as Hs
    by apply reachable_consistent, busy_store_reachable.
  assert (int4 1) as Hint by (unfold int4; lia).
  split; [exact Hs|]. split; [exact Hint|].
  destruct (delete_post_then_views 1 busy_store Hs Hint) as (_ & _ & Hfull & _ & Hs').
  split; [exact Hfull|exact Hs'].
Defined.

(** ** A new comment in the views *)

(** What an answered [POST /api/comments] has stored. *)
Lemma createComment_Json out b d c :
  (createComment out b d).1 = Json c →
  comments (createComment out b d).2 = comments d ++ [c]
  ∧ comment_likes (createComment out b d).2 = comment_likes d
  ∧ c_id c = comments_seq d
  ∧ c_postid c = to_sql (postid b)
  ∧ c_parent_id c = or_null (parent_id b).
Proof.
  unfold createComment. destruct (out 0%nat); [done|].
  unfold insert_comment.
  destruct (to_sql (content b)) as [text|]; [|done].
  case_decide as Hrefs; [|done].
  destruct (out 1%nat); [done|].
  destruct (deriveRecipient b _) as [[u t]|].
  - destruct (out 2%nat); [done|]. unfold insert_notification.
    destruct (to_sql (postid b)); [|done]. simpl. by intros [= <-].
  - simpl. by intros [= <-].
Qed.

(** The unlimited view of a list of rows is determined by its rows. *)
Lemma threaded_unique all n :
  ∀ m, threaded all n → threaded all m → node_row n = node_row m → n = m.
Proof.
  induction n as [r|r kids IH] using node_induction; intros m Hn Hm Hrow.
  - inversion Hn.
  - inversion Hn as [r1 kids1 Hrows1 Hkids1]; subst.
    inversion Hm as [r2 kids2 Hrows2 Hkids2]; subst. simpl in Hrow. subst r2.
    f_equal. f_equal. rewrite <-Hrows1 in Hrows2. clear Hrows1 Hn Hm.
    revert kids2 Hkids2 Hrows2.
    induction kids as [|k kids IHk]; intros kids2 Hkids2 Hrows2.
    + destruct kids2; [done|discriminate Hrows2].
    + destruct kids2 as [|k2 kids2]; [discriminate Hrows2|].
      rewrite !fmap_cons in Hrows2. injection Hrows2 as Hk Hrest.
      apply Forall_cons in IH as [IHhead IHtail].
      apply Forall_cons in Hkids1 as [Hk1 Hkids1].
      apply Forall_cons in Hkids2 as [Hk2 Hkids2].
      f_equal; [by apply IHhead|by apply IHk].
Qed.

Lemma threaded_list_unique all ns ms :
  Forall (threaded all) ns → Forall (threaded all) ms →
  node_row <$> ns = node_row <$> ms → ns = ms.
Proof.
  revert ms. induction ns as [|n ns IH]; intros ms Hns Hms Hrows.
  - destruct ms; [done|discriminate Hrows].
  - destruct ms as [|m ms]; [discriminate Hrows|].
    rewrite !fmap_cons in Hrows. injection Hrows as Hrow Hrest.
    apply Forall_cons in Hns as [Hn Hns]. apply Forall_cons in Hms as [Hm Hms].
    f_equal; [by apply (threaded_unique all)|by apply IH].
Qed.

(** A row without a parent at the end changes no node of the view. *)
Lemma threaded_extend all r n :
  has_parent r = false → threaded all n → threaded (all ++ [r]) n.
Proof.
  intros Hroot. induction n as [r0|r0 kids IH] using node_induction; intros Hn.
  - inversion Hn.
  - inversion Hn as [r1 kids1 Hrows Hkids]; subst. constructor.
    + rewrite filter_app, Hrows, filter_cons, decide_False, filter_nil, app_nil_r;
        [done|]. intros [? _]. congruence.
    + rewrite Forall_forall in IH, Hkids |- *. intros k Hk. by apply IH, Hkids.
Qed.

Lemma likes_of_same d d' id :
  comment_likes d' = comment_likes d → likes_of d' id = likes_of d id.
Proof. unfold likes_of. by intros ->. Qed.

Lemma with_likes_same d d' (cs : list comment) :
  comment_likes d' = comment_likes d → with_likes d' <$> cs = with_likes d <$> cs.
Proof.
  intros Hl. apply list_fmap_ext. intros i c _. unfold with_likes.
  by rewrite (likes_of_same d d').
Qed.

(** X17. An answered top-level comment in [GET /api/comments/unlimited/:postId],
    on a consistent store: the view of its post is the view before the
    request with one more root at the end, the new comment with no
    replies and no likes; the views of the other posts are as before. *)
Theorem createComment_then_thread (out : outage) (b : comment_body) (s : store)
    (c : comment) (postId : Z) :
  consistent s →
  let d := tables s in
  let d' := (createComment out b d).2 in
  (createComment out b d).1 = Json c →
  truthy_int (parent_id b) = false →
  to_sql (postid b) = Some postId →
  (∃ nodes,
     get_full_thread postId d = Json nodes
     ∧ get_full_thread postId d' = Json (nodes ++ [Node (Row c []) (Some [])]))
  ∧ ∀ other, other ≠ postId → get_full_thread other d' = get_full_thread other d.
Proof.
  intros Hs d d' Hjson Hparent Hpost.
  destruct (createComment_Json out b d c Hjson) as (Hc & Hl & Hid & Hcp & Hcpar).
  fold d' in Hc, Hl.
  assert (c_parent_id c = None) as Hnopar.
  { rewrite Hcpar. unfold or_null. by rewrite Hparent. }
  assert (∀ k, thread_rows k d'
               = thread_rows k d
                 ++ (if decide (c_postid c = Some k) then [with_likes d' c] else []))
    as Hrows.
  { intros k. unfold thread_rows. rewrite Hc, filter_app, fmap_app.
    rewrite (with_likes_same d d') by done. f_equal.
    rewrite filter_cons, filter_nil. by case_decide. }
  assert (with_likes d' c = Row c []) as Hrow.
  { unfold with_likes, likes_of. f_equal. rewrite Hl.
    rewrite (filter_none (λ l, l_comment_id l = c_id c)); [done|].
    intros l Hin Heq. destruct (like_comment_fk s Hs l Hin) as (c0 & Hc0 & Hid0).
    pose proof (comment_ids_drawn s Hs c0 Hc0). unfold d in Hid. lia. }
  split.
  - assert (consistent (with_tables d' s)) as Hs'
      by apply consistent_create_comment, Hs.
    assert (NoDup (c_id <$> comments d)) as Hnd
      by apply ascend_NoDup, (comment_ids_ascend s Hs).
    assert (NoDup (c_id <$> comments d')) as Hnd'
      by apply ascend_NoDup, (comment_ids_ascend _ Hs').
    destruct (forest_rendered _ (NoDup_thread_rows postId d Hnd))
      as (built & nodes & Hbuild & Hres & Hroots & Hthr).
    destruct (forest_rendered _ (NoDup_thread_rows postId d' Hnd'))
      as (built' & nodes' & Hbuild' & Hres' & Hroots' & Hthr').
    exists nodes. split.
    { unfold get_full_thread. rewrite Hbuild. simpl. by rewrite Hres. }
    unfold get_full_thread. rewrite Hbuild'. simpl. rewrite Hres'. f_equal.
    rewrite (Hrows postId), decide_True, Hrow in Hroots', Hthr' by congruence.
    assert (has_parent (Row c []) = false) as Hroot
      by (unfold has_parent, r_parent_id; simpl; by rewrite Hnopar).
    apply (threaded_list_unique (thread_rows postId d ++ [Row c []])); [done| |].
    + apply Forall_app. split.
      * eapply Forall_impl; [exact Hthr|]. intros n. by apply threaded_extend.
      * repeat constructor. simpl.
        rewrite filter_app, filter_cons, decide_False, filter_nil, app_nil_r
          by (intros [? _]; congruence).
        symmetry. apply filter_none.
        intros r (c0 & -> & [_ Hc0]%list_elem_of_filter)%list_elem_of_fmap [_ Hpar].
        unfold r_parent_id, r_id in Hpar. simpl in Hpar.
        destruct (comment_parent_fk s Hs c0 _ Hc0 Hpar) as [Hle _].
        pose proof (comment_ids_drawn s Hs c0 Hc0). unfold d in Hid. lia.
    + rewrite Hroots', fmap_app, Hroots, filter_app, filter_cons, decide_True by done.
      done.
  - intros other Hother. unfold get_full_thread.
    rewrite (Hrows other), decide_False, app_nil_r by congruence. done.
Qed.

Lemma createComment_then_thread_witness :
  let b := CommentBody (Value 2) (Value "u3"%string) (Value "e"%string) Null in
  let c := Comment 5 (Some 2) (Some "u3"%string) "e" None in
  let d' := (createComment no_outage b (tables busy_store)).2 in
  consistent busy_store
  ∧ (createComment no_outage b (tables busy_store)).1 = Json c
  ∧ ∃ nodes, get_full_thread 2 (tables busy_store) = Json nodes
       ∧ get_full_thread 2 d' = Json (nodes ++ [Node (Row c []) (Some [])]).
Proof.
  intros b c d'.
  assert (consistent busy_store) as Hs
    by apply reachable_consistent, busy_store_reachable.
  split; [exact Hs|]. split; [reflexivity|].
  exact (proj1 (createComment_then_thread no_outage b busy_store c 2 Hs
                  eq_refl eq_refl eq_refl)).
Defined.

(** X18. An answered reply in [GET /api/comments/:postId], on a consistent
    store, for a post id in the range of INTEGER and a limit and offset
    that the query accepts: the page is the page before the request, with
    the reply added, without likes, at the end of the replies of the
    top-level comment it names as parent, whatever post the reply was
    sent for. A reply to a reply, or to itself, is on no page. *)
Theorem createComment_then_page (out : outage) (b : comment_body) (s : store)
    (c : comment) (p postId : Z) (limit offset : option string) :
  consistent s →
  let d := tables s in
  let d' := (createComment out b d).2 in
  (createComment out b d).1 = Json c →
  truthy_int (parent_id b) = true →
  to_sql (parent_id b) = Some p →
  int4 postId →
  0 ≤ limit_number limit < 2 ^ 63 → 0 ≤ offset_number offset < 2 ^ 63 →
  ∃ page,
    route_thread postId limit offset d = Json page
    ∧ route_thread postId limit offset d'
      = Json ((λ n, if decide (r_id (node_row n) = p)
                    then Node (node_row n)
                           (Some (node_replies n ++ [Node (Row c []) None]))
                    else n) <$> page).
Proof.
  intros Hs d d' Hjson Hparent Hp Hint Hl Ho.
  unfold route_thread. rewrite !decide_True by done.
  destruct (createComment_Json out b d c Hjson) as (Hc & Hlikes & Hid & Hcp & Hcpar).
  fold d' in Hc, Hlikes.
  assert (c_parent_id c = Some p) as Hpar.
  { rewrite Hcpar. unfold or_null. by rewrite Hparent. }
  assert (with_likes d' c = Row c []) as Hrow.
  { unfold with_likes, likes_of. f_equal. rewrite Hlikes.
    rewrite (filter_none (λ l, l_comment_id l = c_id c)); [done|].
    intros l Hin Heq. destruct (like_comment_fk s Hs l Hin) as (c0 & Hc0 & Hid0).
    pose proof (comment_ids_drawn s Hs c0 Hc0). unfold d in Hid. lia. }
  assert (top_level postId d' = top_level postId d) as Htop.
  { unfold top_level. rewrite Hc, filter_app, filter_cons, decide_False, filter_nil,
      app_nil_r by (intros [_ ?]; congruence).
    by apply with_likes_same. }
  assert (all_rows d' = all_rows d ++ [Row c []]) as Hall.
  { unfold all_rows. rewrite Hc, fmap_app, (with_likes_same d d') by done.
    simpl. by rewrite Hrow. }
  assert (consistent (with_tables d' s)) as Hs'
    by apply consistent_create_comment, Hs.
  assert (NoDup (c_id <$> comments d)) as Hnd
    by apply ascend_NoDup, (comment_ids_ascend s Hs).
  assert (NoDup (c_id <$> comments d')) as Hnd'
    by apply ascend_NoDup, (comment_ids_ascend _ Hs').
  set (top := take (Z.to_nat (limit_number limit))
                (drop (Z.to_nat (offset_number offset)) (top_level postId d))).
  exists (one_level (all_rows d) <$> top). split.
  - apply get_thread_page; [done|].
    unfold top_level_query. by rewrite !row_count_Some.
  - rewrite (get_thread_page postId limit offset d' top Hnd').
    2:{ unfold top_level_query. by rewrite !row_count_Some, Htop. }
    f_equal. rewrite <-list_fmap_compose. apply list_fmap_ext. intros i t _.
    unfold one_level. simpl. rewrite Hall, filter_app, fmap_app, filter_cons, filter_nil.
    change (r_parent_id (Row c [])) with (c_parent_id c). rewrite Hpar.
    case_decide as Ht; case_decide as Ht'; try done.
    + destruct Ht'. congruence.
    + destruct Ht. congruence.
    + by rewrite app_nil_r.
Qed.

Lemma createComment_then_page_witness :
  let b := CommentBody (Value 2) (Value "u3"%string) (Value "e"%string) (Value 1) in
  let c := Comment 5 (Some 2) (Some "u3"%string) "e" (Some 1) in
  let d' := (createComment no_outage b (tables busy_store)).2 in
  consistent busy_store
  ∧ (createComment no_outage b (tables busy_store)).1 = Json c
  ∧ ∃ page, route_thread 1 None None (tables busy_store) = Json page
       ∧ route_thread 1 None None d'
         = Json ((λ n, if decide (r_id (node_row n) = 1)
                       then Node (node_row n)
                              (Some (node_replies n ++ [Node (Row c []) None]))
                       else n) <$> page).
Proof.
  intros b c d'.
  assert (consistent busy_store) as Hs
    by apply reachable_consistent, busy_store_reachable.
  split; [exact Hs|]. split; [reflexivity|].
  refine (createComment_then_page no_outage b busy_store c 1 1 None None Hs
            eq_refl eq_refl eq_refl _ _ _); vm_compute; split; congruence.
Defined.

(** ** A like in the list of posts *)

(** Sorting by id commutes with an update that keeps the ids. *)
Lemma merge_sort_newer_fmap (f : post → post) (l : list post) :
  (∀ p, p_id (f p) = p_id p) → NoDup (p_id <$> l) →
  merge_sort newer (f <$> l) = f <$> merge_sort newer l.
Proof.
  intros Hf Hnd.
  assert (p_id <$> (f <$> l) = p_id <$> l) as Hids.
  { rewrite <-list_fmap_compose. apply list_fmap_ext. intros i p _. apply Hf. }
  apply newer_unique.
  - by rewrite merge_sort_Permutation, Hids.
  - by rewrite !merge_sort_Permutation.
  - apply (StronglySorted_merge_sort newer).
  - apply (StronglySorted_fmap f newer newer).
    + intros p q. unfold newer. by rewrite !Hf.
    + apply (StronglySorted_merge_sort newer).
Qed.

(** X19. [PUT /api/posts/:id/like] seen through [GET /api/posts], on a table
    with unique post ids: the list has the same posts in the same places,
    the post with the id has the toggled like array, and every other post
    is as it was. For an id no post carries the list is as it was. *)
Theorem put_post_like_then_posts (id : Z) (u : string) (s : store) :
  NoDup (p_id <$> posts (tables s)) →
  let s' := with_tables (put_post_like id u (tables s)).2 s in
  get_posts s'
  = (λ p, if decide (p_id p = id)
          then set_likes (toggle (post_likes (tables s) id) u) p else p)
    <$> get_posts s.
Proof.
  intros Hnd s'. subst s'. unfold get_posts, put_post_like, post_likes. simpl.
  destruct (filter (λ p, p_id p = id) (posts (tables s))) as [|row rows] eqn:Hrows.
  - simpl. rewrite <-(list_fmap_id (merge_sort newer (posts (tables s)))) at 1.
    apply list_fmap_ext. intros i p Hp. simpl.
    rewrite decide_False; [done|]. intros Hid.
    assert (p ∈ filter (λ p, p_id p = id) (posts (tables s))) as Hin.
    { apply list_elem_of_filter. split; [done|].
      rewrite <-(merge_sort_Permutation newer). by eapply list_elem_of_lookup_2. }
    rewrite Hrows in Hin. by apply elem_of_nil in Hin.
  - simpl. unfold update_likes. apply merge_sort_newer_fmap; [|done].
    intros p. by case_decide.
Qed.

Lemma put_post_like_then_posts_witness :
  NoDup (p_id <$> posts (tables busy_store))
  ∧ get_posts (with_tables (put_post_like 1 "u2" (tables busy_store)).2 busy_store)
    = [Post 2 (Some "u2"%string) (Some []); Post 1 (Some "u1"%string) (Some ["u2"%string])].
Proof.
  assert (NoDup (p_id <$> posts (tables busy_store))) as Hnd
    by (apply (bool_decide_unpack _); vm_compute; exact I).
  split; [exact Hnd|].
  rewrite (put_post_like_then_posts 1 "u2" busy_store Hnd). reflexivity.
Defined.

(** ** The two comment views side by side *)

(** In a consistent store a stored parent id is never 0. *)
Lemma consistent_has_parent s c :
  consistent s → c ∈ comments (tables s) →
  has_parent (with_likes (tables s) c) = false ↔ c_parent_id c = None.
Proof.
  intros Hs Hc. unfold has_parent, r_parent_id. simpl.
  destruct (c_parent_id c) as [p|] eqn:Hpar; simpl; [|done].
  split; [|done]. intros Hzero.
  destruct (comment_parent_fk s Hs c p Hc Hpar) as [_ Hex].
  apply Exists_exists in Hex as (q & Hq & Hid).
  pose proof (comment_ids_drawn s Hs q Hq).
  destruct (Z.eqb_spec p 0); [lia|done].
Qed.

(** X20. The two views of the comments of a post, on a consistent store. The
    top-level comments of a page of [GET /api/comments/:postId] are the
    roots of [GET /api/comments/unlimited/:postId] from the offset on, up
    to the limit; and under a comment that is on both, the unlimited view
    lists the replies of the page that belong to the post: the page also
    lists the replies sent for another post. *)
Theorem views_agree (postId : Z) (limit offset : option string) (s : store)
    (page nodes : list node) :
  consistent s →
  get_thread postId limit offset (tables s) = Json page →
  get_full_thread postId (tables s) = Json nodes →
  node_row <$> page
  = take (Z.to_nat (limit_number limit))
      (drop (Z.to_nat (offset_number offset)) (node_row <$> nodes))
  ∧ ∀ n m, n ∈ page → m ∈ nodes → node_row n = node_row m →
      node_row <$> node_replies m
      = filter (λ r, c_postid (r_comment r) = Some postId)
          (node_row <$> node_replies n).
Proof.
  intros Hs Hpage Hfull. set (d := tables s) in *.
  assert (NoDup (c_id <$> comments d)) as Hnd
    by apply ascend_NoDup, (comment_ids_ascend s Hs).
  destruct (get_thread_answered _ _ _ _ _ Hpage) as [Hl Ho].
  rewrite get_thread_accepts in Hpage by done. injection Hpage as <-.
  destruct (forest_rendered _ (NoDup_thread_rows postId d Hnd))
    as (built & nodes' & Hbuild & Hres & Hroots & Hthr).
  assert (nodes' = nodes) as ->.
  { unfold get_full_thread in Hfull. rewrite Hbuild in Hfull. simpl in Hfull.
    rewrite Hres in Hfull. by injection Hfull. }
  assert (∀ (P : row → Prop) `{!∀ r, Decision (P r)} (cs : list comment),
            filter P (with_likes d <$> cs)
            = with_likes d <$> filter (λ c, P (with_likes d c)) cs) as Hfilter.
  { intros P ? cs. by apply (filter_with_likes (λ c, P (with_likes d c)) P). }
  assert (node_row <$> nodes = top_level postId d) as Htop.
  { rewrite Hroots. unfold thread_rows, top_level.
    rewrite Hfilter, list_filter_filter. f_equal. apply filter_iff_on.
    intros c Hc. rewrite (consistent_has_parent s c Hs Hc). tauto. }
  split; [rewrite Htop; apply node_row_fmap|].
  intros n m Hn Hm Hrow.
  apply list_elem_of_fmap in Hn as (t & -> & Ht). simpl in Hrow. simpl.
  assert (t ∈ top_level postId d) as Htin.
  { eapply elem_of_sublist; [exact Ht|].
    etrans; [apply sublist_take|apply sublist_drop]. }
  apply list_elem_of_fmap in Htin as (c0 & Ht0 & [_ Hc0]%list_elem_of_filter).
  pose proof (comment_ids_drawn s Hs c0 Hc0) as Hpos.
  assert (r_id t = c_id c0) as Hid by (by rewrite Ht0).
  rewrite Forall_forall in Hthr.
  destruct (Hthr m Hm) as [r kids Hkids _]. simpl in Hrow. subst r. simpl.
  rewrite Hkids, (node_row_fmap (λ _, None)).
  unfold thread_rows, all_rows. rewrite !Hfilter, !list_filter_filter. f_equal.
  apply filter_iff_on. intros c Hc. unfold r_parent_id. simpl.
  rewrite has_parent_true. unfold r_parent_id. simpl. split.
  - tauto.
  - intros [Hpar Hpost]. split; [|done]. split; [|done].
    exists (r_id t). split; [done|]. unfold d in *. lia.
Qed.

Lemma views_agree_witness :
  let nodes r := match r with Json nodes => nodes | _ => [] end in
  let page := nodes (get_thread 1 None None (tables busy_store)) in
  let full := nodes (get_full_thread 1 (tables busy_store)) in
  consistent busy_store
  ∧ get_thread 1 None None (tables busy_store) = Json page
  ∧ get_full_thread 1 (tables busy_store) = Json full
  ∧ node_row <$> page
    = take (Z.to_nat (limit_number None)) (drop (Z.to_nat (offset_number None)) (node_row <$> full)).
Proof.
  intros nodes page full.
  assert (consistent busy_store) as Hs
    by apply reachable_consistent, busy_store_reachable.
  split; [exact Hs|]. split; [reflexivity|]. split; [reflexivity|].
  exact (proj1 (views_agree 1 None None busy_store page full Hs eq_refl eq_refl)).
Defined.
